(** * A shallow embedding of the triplet-structure solver (ts_cpp)

    The development follows the C++ sources [ts_lib.h], [structure.cc]
    and [solver.cc]: the fact structure with its eight-way bucket index,
    and the backtracking solver that enumerates the assignments of nodes
    to variables under which every constraint is a fact.

    Modelling conventions.
    - [int] values ([Node], [Variable], [current_index_]) are integers in
      [Z].  The only arithmetic the sources perform on them is unary
      minus and [++]/[--] on [current_index_], which stays within
      [-1, n_variables_]; no overflow occurs as long as [n_variables_]
      fits an [int].
    - [size_t] values (vector indices and sizes) are [nat].
    - [std::vector<T>] is [list T]; [v.at(i)] out of range throws
      ([OutOfRange]); [v[i]] out of range has no defined behaviour
      ([UndefinedBehaviour]).
    - [std::unordered_map<Triplet, std::vector<Triplet>>] is a [gmap].
    - [std::set<Node>] is a strictly increasing list (its iteration order);
      a [std::set<Node>::iterator] is a position in that list.  The
      iterator of a [State] is only read after [GetOptions] has set it for
      that level.
    - [assert] is enabled: a failing assertion is [AssertionFailed].
    - the [while] loop of [NextAssignment] takes a fuel argument; running
      out of it is [OutOfFuel]. *)

From Stdlib Require Import ZArith List Lia.
From stdpp Require Import base tactics option list numbers sorting gmap.
Import ListNotations.

Local Open Scope Z_scope.

(** ** Results of fallible code *)

Inductive error : Type :=
| AssertionFailed
| OutOfRange
| UndefinedBehaviour
| OutOfFuel.

Inductive result (A : Type) : Type :=
| Ok (a : A)
| Err (e : error).

Arguments Ok {A} a.
Arguments Err {A} e.

Definition bind {A B : Type} (m : result A) (k : A → result B) : result B :=
  match m with
  | Ok a => k a
  | Err e => Err e
  end.

Notation "'do' x <- m ; k" := (bind m (fun x => k))
  (at level 10, x name, m at level 100, k at level 200,
   format "'[v' 'do'  x  <-  m ; '/' k ']'").

(** [v.at(i)] and [v[i]] on a vector. *)
Definition vec_at {A : Type} (v : list A) (i : nat) : result A :=
  match v !! i with
  | Some x => Ok x
  | None => Err OutOfRange
  end.

Definition vec_get {A : Type} (v : list A) (i : nat) : result A :=
  match v !! i with
  | Some x => Ok x
  | None => Err UndefinedBehaviour
  end.

(** ** Triplets *)

Abbreviation Node := Z.

Abbreviation Triplet := (Z * Z * Z)%type.

Definition tget (t : Triplet) (j : nat) : Z :=
  match j with
  | O => t.1.1
  | S O => t.1.2
  | _ => t.2
  end.

Definition tset (t : Triplet) (j : nat) (v : Z) : Triplet :=
  match j with
  | O => (v, t.1.2, t.2)
  | S O => (t.1.1, v, t.2)
  | _ => (t.1.1, t.1.2, v)
  end.

(** A fact of the data model: all three positions are nodes. *)
Definition is_fact (t : Triplet) : Prop :=
  0 < tget t 0 ∧ 0 < tget t 1 ∧ 0 < tget t 2.

(** ** The fact structure ([structure.cc]) *)

Record Structure : Type := mkStructure {
  facts_ : gmap Triplet (list Triplet)
}.

Definition new_Structure : Structure := mkStructure ∅.

Definition bucket (m : gmap Triplet (list Triplet)) (key : Triplet)
  : list Triplet :=
  default [] (m !! key).

Definition IsTrue (st : Structure) (fact : Triplet) : bool :=
  match facts_ st !! fact with
  | Some (_ :: _) => true
  | _ => false
  end.

Definition Lookup (st : Structure) (fact : Triplet) : list Triplet :=
  match facts_ st !! fact with
  | Some b => b
  | None => []
  end.

Fixpoint AllTrue (st : Structure) (facts : list Triplet) : bool :=
  match facts with
  | [] => true
  | fact :: rest => if IsTrue st fact then AllTrue st rest else false
  end.

(** The inner loop over [j] of [AddFact] and [RemoveFact]: the key for
    mask [i]. *)
Definition mask_key (i : Z) (fact : Triplet) : Triplet :=
  foldl (fun key j =>
           if Z.land (Z.shiftr i (Z.of_nat j)) 1 =? 1
           then tset key j (tget fact j)
           else tset key j 0)
        fact [0%nat; 1%nat; 2%nat].

Definition masks : list Z := [0; 1; 2; 3; 4; 5; 6; 7].

(** [facts_[key].push_back(fact)] *)
Definition push_back_at (m : gmap Triplet (list Triplet)) (key fact : Triplet)
  : gmap Triplet (list Triplet) :=
  <[key := bucket m key ++ [fact]]> m.

Definition AddFact (st : Structure) (fact : Triplet) : result Structure :=
  if IsTrue st fact then Err AssertionFailed
  else Ok (mkStructure
             (foldl (fun m i => push_back_at m (mask_key i fact) fact)
                    (facts_ st) masks)).

(** [v.erase(it)] for the first position holding [x]. *)
Fixpoint erase_first (x : Triplet) (v : list Triplet) : list Triplet :=
  match v with
  | [] => []
  | y :: v' => if decide (x = y) then v' else y :: erase_first x v'
  end.

(** [it = std::find(...); assert(it != end); facts_[key].erase(it)] *)
Definition erase_at (m : gmap Triplet (list Triplet)) (key fact : Triplet)
  : result (gmap Triplet (list Triplet)) :=
  if decide (fact ∈ bucket m key)
  then Ok (<[key := erase_first fact (bucket m key)]> m)
  else Err AssertionFailed.

Fixpoint erase_all (m : gmap Triplet (list Triplet)) (fact : Triplet)
    (ms : list Z) : result (gmap Triplet (list Triplet)) :=
  match ms with
  | [] => Ok m
  | i :: ms' =>
      do m' <- erase_at m (mask_key i fact) fact;
      erase_all m' fact ms'
  end.

Definition RemoveFact (st : Structure) (fact : Triplet) : result Structure :=
  if IsTrue st fact
  then do m <- erase_all (facts_ st) fact masks; Ok (mkStructure m)
  else Err AssertionFailed.

Definition AddFactPy (st : Structure) (i j k : Node) : result Structure :=
  AddFact st (i, j, k).

Definition RemoveFactPy (st : Structure) (i j k : Node) : result Structure :=
  RemoveFact st (i, j, k).

(** [stores st F]: the structure [st] results from calls of [AddFact]
    and [RemoveFact] that respect the interface contract (only facts are
    passed and no call aborts), and [F] is the set of facts added and not
    removed since. *)
Inductive stores : Structure → gset Triplet → Prop :=
| stores_new : stores new_Structure ∅
| stores_add st F fact st' :
    stores st F → is_fact fact → AddFact st fact = Ok st' →
    stores st' ({[fact]} ∪ F)
| stores_remove st F fact st' :
    stores st F → is_fact fact → RemoveFact st fact = Ok st' →
    stores st' (F ∖ {[fact]}).

Definition reachable (st : Structure) : Prop := ∃ F, stores st F.

(** A pattern position is a wildcard or agrees with the fact. *)
Definition matches (p f : Triplet) : Prop :=
  ∀ j, (j < 3)%nat → tget p j = 0 ∨ tget p j = tget f j.

Definition is_pattern (p : Triplet) : Prop :=
  ∀ j, (j < 3)%nat → 0 ≤ tget p j.

(** ** [std::set<Node>] as a strictly increasing list *)

Fixpoint set_insert (x : Z) (l : list Z) : list Z :=
  match l with
  | [] => [x]
  | y :: l' =>
      if x <? y then x :: y :: l'
      else if x =? y then y :: l'
      else y :: set_insert x l'
  end.

Definition set_count (x : Z) (l : list Z) : bool :=
  existsb (Z.eqb x) l.

Definition set_erase (x : Z) (l : list Z) : list Z :=
  filter (fun y => y ≠ x) l.

(** ** The solver ([solver.cc]) *)

Record State : Type := mkState {
  options : list Node;
  options_it : nat
}.

(** [State()]: an empty set and its [begin()]. *)
Definition new_State : State := mkState [] 0.

(** [structure_] is a const reference in the source: the solver reads the
    structure and never writes it. *)
Record Solver : Type := mkSolver {
  structure_ : Structure;
  n_variables_ : nat;
  valid_ : bool;
  constraints_ : list Triplet;
  working_constraints_ : list Triplet;
  var_to_constraints_ : list (list nat);
  may_equal_ : list (gset nat);
  assignment_ : list Node;
  states_ : list State;
  current_index_ : Z
}.

Definition set_valid (s : Solver) (b : bool) : Solver :=
  mkSolver (structure_ s) (n_variables_ s) b (constraints_ s)
    (working_constraints_ s) (var_to_constraints_ s) (may_equal_ s)
    (assignment_ s) (states_ s) (current_index_ s).

Definition set_working (s : Solver) (w : list Triplet) : Solver :=
  mkSolver (structure_ s) (n_variables_ s) (valid_ s) (constraints_ s)
    w (var_to_constraints_ s) (may_equal_ s)
    (assignment_ s) (states_ s) (current_index_ s).

Definition set_assignment (s : Solver) (a : list Node) : Solver :=
  mkSolver (structure_ s) (n_variables_ s) (valid_ s) (constraints_ s)
    (working_constraints_ s) (var_to_constraints_ s) (may_equal_ s)
    a (states_ s) (current_index_ s).

Definition set_states (s : Solver) (sts : list State) : Solver :=
  mkSolver (structure_ s) (n_variables_ s) (valid_ s) (constraints_ s)
    (working_constraints_ s) (var_to_constraints_ s) (may_equal_ s)
    (assignment_ s) sts (current_index_ s).

Definition set_index (s : Solver) (c : Z) : Solver :=
  mkSolver (structure_ s) (n_variables_ s) (valid_ s) (constraints_ s)
    (working_constraints_ s) (var_to_constraints_ s) (may_equal_ s)
    (assignment_ s) (states_ s) c.

Definition IsValid (s : Solver) : bool := valid_ s.

Definition CurrentVariable (s : Solver) : Z := - current_index_ s.

Definition IsVariable (node : Z) : bool := node <=? 0.

(** Indexing a vector with an [int]: a negative value converts to a
    [size_t] beyond every vector's size. *)
Definition at_int {A : Type} (v : list A) (c : Z) : result A :=
  if c <? 0 then Err OutOfRange else vec_at v (Z.to_nat c).

Definition get_int {A : Type} (v : list A) (c : Z) : result A :=
  if c <? 0 then Err UndefinedBehaviour else vec_get v (Z.to_nat c).

Fixpoint foldM {A B : Type} (f : A → B → result A) (a : A) (l : list B)
  : result A :=
  match l with
  | [] => Ok a
  | b :: l' => do a' <- f a b; foldM f a' l'
  end.

Definition positions : list nat := [0%nat; 1%nat; 2%nat].

Arguments positions : simpl never.

(** *** Construction *)

(** One round of the constructor's loop over the positions of a
    constraint; [size] is [constraints_.size()]. *)
Definition register_position (size : nat) (constraint : Triplet)
    (acc : list (list nat) * bool) (i : nat)
  : result (list (list nat) * bool) :=
  if IsVariable (tget constraint i) then
    do l <- at_int acc.1 (- tget constraint i);
    Ok (<[Z.to_nat (- tget constraint i) := l ++ [size]]> acc.1, true)
  else Ok acc.

(** The constructor's loop over the constraints; the result is
    [(var_to_constraints_, constraints_, valid_)]. *)
Fixpoint register_constraints (st : Structure) (constraints : list Triplet)
    (v2c : list (list nat)) (kept : list Triplet)
  : result (list (list nat) * list Triplet * bool) :=
  match constraints with
  | [] => Ok (v2c, kept, true)
  | constraint :: rest =>
      do r <- foldM (register_position (length kept) constraint)
                    (v2c, false) positions;
      if r.2 then register_constraints st rest r.1 (kept ++ [constraint])
      else if negb (IsTrue st constraint) then Ok (r.1, kept, false)
      else register_constraints st rest r.1 kept
  end.

(** *** GetOptions *)

(** Step (1): the emptied triplet and [hole_is_var]. *)
Definition empty_holes (var : Z) (wc : Triplet) : Triplet * list bool :=
  foldl (fun acc j =>
           (if IsVariable (tget acc.1 j) then tset acc.1 j 0 else acc.1,
            acc.2 ++ [tget acc.1 j =? var]))
        (wc, []) positions.

(** The loop over [j] computing [choice] for one matching fact. *)
Fixpoint unify (hole_is_var : list bool) (triplet : Triplet)
    (js : list nat) (choice : Z) : Z :=
  match js with
  | [] => choice
  | j :: js' =>
      if negb (nth j hole_is_var false) then
        unify hole_is_var triplet js' choice
      else if choice =? 0 then
        unify hole_is_var triplet js' (tget triplet j)
      else if negb (choice =? tget triplet j) then 0
      else unify hole_is_var triplet js' choice
  end.

(** Step (2): [local_options] of one constraint. *)
Definition local_options_of (st : Structure) (var : Z) (wc : Triplet)
    (initialized_options : bool) (opts : list Node) : list Node :=
  let eh := empty_holes var wc in
  foldl (fun local triplet =>
           let choice := unify eh.2 triplet positions 0 in
           if (0 <? choice) &&
              (negb initialized_options || set_count choice opts)
           then set_insert choice local
           else local)
        [] (Lookup st eh.1).

(** The loop over [var_to_constraints_.at(current_index_)]. *)
Fixpoint options_loop (st : Structure) (working : list Triplet) (var : Z)
    (v2c : list nat) (initialized_options : bool) (opts : list Node)
  : result (list Node) :=
  match v2c with
  | [] => Ok opts
  | i :: rest =>
      do wc <- vec_get working i;
      let opts' := local_options_of st var wc initialized_options opts in
      match opts' with
      | [] => Ok []
      | _ => options_loop st working var rest true opts'
      end
  end.

(** Step (3): the loop over [i < current_index_]. *)
Fixpoint inequality_loop (assignment : list Node) (may_equal : gset nat)
    (idx : list nat) (opts : list Node) : result (list Node) :=
  match idx with
  | [] => Ok opts
  | i :: rest =>
      do a <- vec_get assignment i;
      if set_count a opts && negb (bool_decide (i ∈ may_equal))
      then inequality_loop assignment may_equal rest (set_erase a opts)
      else inequality_loop assignment may_equal rest opts
  end.

Definition GetOptions (s : Solver) : result Solver :=
  let var := CurrentVariable s in
  if (Z.of_nat (n_variables_ s) <=? current_index_ s)
     || (current_index_ s <? 0)
  then Ok s
  else
    do state <- at_int (states_ s) (current_index_ s);
    do v2c <- at_int (var_to_constraints_ s) (current_index_ s);
    do opts <- options_loop (structure_ s) (working_constraints_ s) var
                 v2c false (options state);
    do may_equal <- get_int (may_equal_ s) (current_index_ s);
    do opts' <- inequality_loop (assignment_ s) may_equal
                  (seq 0 (Z.to_nat (current_index_ s))) opts;
    Ok (set_states s
          (<[Z.to_nat (current_index_ s) := mkState opts' 0]> (states_ s))).

Definition Solver_new (structure : Structure) (n_variables : nat)
    (constraints : list Triplet) (maybe_equal : list (gset nat))
  : result Solver :=
  if (n_variables =? 0)%nat then Err AssertionFailed
  else
    do r <- register_constraints structure constraints
              (replicate n_variables []) [];
    let s := mkSolver structure n_variables r.2 r.1.2 []
               r.1.1 maybe_equal (replicate n_variables 0)
               (replicate n_variables new_State) 0 in
    if valid_ s
    then GetOptions (set_working s (constraints_ s))
    else Ok s.

(** *** Assign / UnAssign *)

Definition assign_triplet (var to : Z) (wc : Triplet) : Triplet :=
  foldl (fun t j => if tget t j =? var then tset t j to else t)
        wc positions.

Definition Assign (to : Node) (s : Solver) : result Solver :=
  do _ <- get_int (assignment_ s) (current_index_ s);
  let assignment := <[Z.to_nat (current_index_ s) := to]> (assignment_ s) in
  let var := CurrentVariable s in
  do v2c <- get_int (var_to_constraints_ s) (current_index_ s);
  do working <-
    foldM (fun w i =>
             do wc <- vec_get w i;
             Ok (<[i := assign_triplet var to wc]> w))
          (working_constraints_ s) v2c;
  Ok (set_index (set_working (set_assignment s assignment) working)
        (current_index_ s + 1)).

Definition unassign_position (constraint : Triplet) (var : Z) (i : nat)
    (w : list Triplet) (j : nat) : result (list Triplet) :=
  if tget constraint j =? var then
    do wc <- vec_get w i;
    Ok (<[i := tset wc j (tget constraint j)]> w)
  else Ok w.

Definition UnAssign (s : Solver) : result Solver :=
  let s1 := set_index s (current_index_ s - 1) in
  if current_index_ s1 <? 0 then Ok s1
  else
    let var := CurrentVariable s1 in
    do v2c <- at_int (var_to_constraints_ s1) (current_index_ s1);
    do working <-
      foldM (fun w i =>
               do constraint <- vec_get (constraints_ s1) i;
               foldM (unassign_position constraint var i) w positions)
            (working_constraints_ s1) v2c;
    Ok (set_working s1 working).

(** *** NextAssignment *)

Inductive iteration : Type :=
| Continue (s : Solver)
| Return (copy : list Node) (s : Solver).

(** One round of the [while] loop. *)
Definition loop_body (s : Solver) : result iteration :=
  do state <- get_int (states_ s) (current_index_ s);
  if (options_it state =? length (options state))%nat then
    do s' <- UnAssign s; Ok (Continue s')
  else
    do to <- vec_get (options state) (options_it state);
    do s1 <- Assign to s;
    let s2 := set_states s1
                (<[Z.to_nat (current_index_ s) :=
                     mkState (options state) (S (options_it state))]>
                   (states_ s1)) in
    if current_index_ s2 =? Z.of_nat (n_variables_ s2) then
      let copy := assignment_ s2 in
      do s3 <- UnAssign s2; Ok (Return copy s3)
    else
      do s3 <- GetOptions s2; Ok (Continue s3).

Fixpoint NextAssignment_loop (fuel : nat) (s : Solver)
  : result (list Node * Solver) :=
  match fuel with
  | O => Err OutOfFuel
  | S fuel' =>
      if 0 <=? current_index_ s then
        do r <- loop_body s;
        match r with
        | Continue s' => NextAssignment_loop fuel' s'
        | Return copy s' => Ok (copy, s')
        end
      else Ok ([], set_valid s false)
  end.

Definition NextAssignment (fuel : nat) (s : Solver)
  : result (list Node * Solver) :=
  if negb (valid_ s) || (n_variables_ s =? 0)%nat then Ok ([], s)
  else NextAssignment_loop fuel s.

(** A caller that requests assignments until the empty one comes back;
    [calls] bounds the number of requests. *)
Fixpoint enumerate (calls fuel : nat) (s : Solver)
  : result (list (list Node) * Solver) :=
  match calls with
  | O => Err OutOfFuel
  | S calls' =>
      do r <- NextAssignment fuel s;
      match r.1 with
      | [] => Ok ([], r.2)
      | _ => do rest <- enumerate calls' fuel r.2;
             Ok (r.1 :: rest.1, rest.2)
      end
  end.

Definition build (facts : list Triplet) : result Structure :=
  foldM AddFact new_Structure facts.

(** ** Specification-level notions *)

(** Substituting an assignment into the variable positions of a
    constraint: position value [-k] becomes [A[k]]. *)
Definition subst_pos (A : list Node) (x : Z) : Z :=
  if IsVariable x then default x (A !! Z.to_nat (- x)) else x.

Definition subst (A : list Node) (c : Triplet) : Triplet :=
  (subst_pos A c.1.1, subst_pos A c.1.2, subst_pos A c.2).

(** Constraint [c] holds variable index [k] at some position. *)
Definition mentions (c : Triplet) (k : nat) : Prop :=
  ∃ j, (j < 3)%nat ∧ tget c j = - Z.of_nat k.

(** The assignments the solver is meant to enumerate. *)
Definition satisfying (st : Structure) (n : nat) (cs : list Triplet)
    (me : list (gset nat)) (A : list Node) : Prop :=
  length A = n ∧
  (∀ a, a ∈ A → 0 < a) ∧
  (∀ c, c ∈ cs → IsTrue st (subst A c) = true) ∧
  (∀ j k m a b, (j < k)%nat → me !! k = Some m → j ∉ m →
     A !! j = Some a → A !! k = Some b → a ≠ b).

(** The working-constraints invariant of the search. *)
Definition working_invariant (s : Solver) : Prop :=
  ∀ i c j, constraints_ s !! i = Some c → (j < 3)%nat →
    IsVariable (tget c j) = true →
    ∃ w, working_constraints_ s !! i = Some w ∧
      if - tget c j <? current_index_ s
      then assignment_ s !! Z.to_nat (- tget c j) = Some (tget w j)
      else tget w j = tget c j.

(** The domain of the variable of index [length P] once the earlier
    variables hold the values [P]: what [GetOptions] computes. *)
Section Domains.
Variables (st : Structure) (cons : list Triplet)
          (v2c : list (list nat)) (me : list (gset nat)).

Definition domain (P : list Node) : result (list Node) :=
  do l <- vec_at v2c (length P);
  do o <- options_loop st (subst P <$> cons) (- Z.of_nat (length P))
            l false [];
  do m <- vec_get me (length P);
  inequality_loop P m (seq 0 (length P)) o.

Definition dom (P : list Node) : list Node :=
  match domain P with
  | Ok o => o
  | Err _ => []
  end.

(** The assignments extending [P] by [d] more variables, in the order
    of the depth-first search. *)
Fixpoint sols (d : nat) (P : list Node) : list (list Node) :=
  match d with
  | O => [P]
  | S d' => dom P ≫= (fun v => sols d' (P ++ [v]))
  end.

(** The number of loop rounds spent below prefix [P]. *)
Fixpoint cost (d : nat) (P : list Node) : nat :=
  match d with
  | O => O
  | S d' => S (sum_list ((fun v => S (cost d' (P ++ [v]))) <$> dom P))
  end.
End Domains.

Definition solutions (s : Solver) : list (list Node) :=
  sols (structure_ s) (constraints_ s) (var_to_constraints_ s)
       (may_equal_ s) (n_variables_ s) [].

(** The values of level [j] not tried yet. *)
Definition pending (s : Solver) (j : nat) : list Node :=
  match states_ s !! j with
  | Some stj => drop (options_it stj) (options stj)
  | None => []
  end.

Definition level_rem (s : Solver) (j : nat) : list (list Node) :=
  pending s j ≫=
    (fun v => sols (structure_ s) (constraints_ s) (var_to_constraints_ s)
                (may_equal_ s) (n_variables_ s - S j)
                (take j (assignment_ s) ++ [v])).

Definition level_cost (s : Solver) (j : nat) : nat :=
  S (sum_list
       ((fun v => S (cost (structure_ s) (constraints_ s)
                       (var_to_constraints_ s) (may_equal_ s)
                       (n_variables_ s - S j)
                       (take j (assignment_ s) ++ [v])))
          <$> pending s j)).

Definition active_levels (s : Solver) : list nat :=
  seq 0 (Z.to_nat (current_index_ s + 1)).

(** The assignments still to be returned, and the loop rounds left. *)
Definition remaining (s : Solver) : list (list Node) :=
  reverse (active_levels s) ≫= level_rem s.

Definition rounds (s : Solver) : nat :=
  sum_list (level_cost s <$> active_levels s).

Definition has_variable (c : Triplet) : Prop :=
  ∃ j, (j < 3)%nat ∧ tget c j ≤ 0.

(** Shape of the data the constructor sets up. *)
Record static_wf (s : Solver) : Prop := {
  wf_n : (0 < n_variables_ s)%nat;
  wf_v2c_len : length (var_to_constraints_ s) = n_variables_ s;
  wf_assignment_len : length (assignment_ s) = n_variables_ s;
  wf_states_len : length (states_ s) = n_variables_ s;
  wf_v2c : ∀ k l i, var_to_constraints_ s !! k = Some l →
             (i ∈ l ↔ ∃ c, constraints_ s !! i = Some c ∧ mentions c k);
  wf_vars : ∀ c j, c ∈ constraints_ s → (j < 3)%nat →
              tget c j ≤ 0 → (Z.to_nat (- tget c j) < n_variables_ s)%nat;
  wf_parametric : ∀ c, c ∈ constraints_ s → has_variable c
}.

(** State of a search in progress; the levels below [lim] hold their
    domain and cursor. *)
Record search_pre (lim : Z) (s : Solver) : Prop := {
  inv_static : static_wf s;
  inv_index : -1 ≤ current_index_ s ≤ Z.of_nat (n_variables_ s);
  inv_working :
    working_constraints_ s =
      subst (take (Z.to_nat (current_index_ s)) (assignment_ s))
        <$> constraints_ s;
  inv_assigned : ∀ j a, (Z.of_nat j < current_index_ s) →
                   assignment_ s !! j = Some a → 0 < a;
  inv_options : ∀ j stj, (Z.of_nat j < lim) →
                  states_ s !! j = Some stj →
                  domain (structure_ s) (constraints_ s)
                    (var_to_constraints_ s) (may_equal_ s)
                    (take j (assignment_ s)) = Ok (options stj) ∧
                  (options_it stj ≤ length (options stj))%nat;
  inv_stale : ∀ j stj, states_ s !! j = Some stj →
                var_to_constraints_ s !! j = Some [] → options stj = []
}.

(** The invariant at the head of the loop of [NextAssignment]. *)
Definition search_inv (s : Solver) : Prop :=
  search_pre (current_index_ s + 1) s ∧
  current_index_ s < Z.of_nat (n_variables_ s).

(** What the constructor's loop maintains. *)
Definition registered (n : nat) (v2c : list (list nat))
    (kept : list Triplet) : Prop :=
  length v2c = n ∧
  (∀ k l i, v2c !! k = Some l →
     (i ∈ l ↔ ∃ c, kept !! i = Some c ∧ mentions c k)) ∧
  (∀ c j, c ∈ kept → (j < 3)%nat → tget c j ≤ 0 →
     (Z.to_nat (- tget c j) < n)%nat) ∧
  (∀ c, c ∈ kept → has_variable c).

(** The fields a search never writes. *)
Definition same_instance (s s' : Solver) : Prop :=
  structure_ s' = structure_ s ∧
  n_variables_ s' = n_variables_ s ∧
  constraints_ s' = constraints_ s ∧
  var_to_constraints_ s' = var_to_constraints_ s ∧
  may_equal_ s' = may_equal_ s.

Definition iteration_state (r : iteration) : Solver :=
  match r with
  | Continue s => s
  | Return _ s => s
  end.

(** Solver states at the head of the loop of [NextAssignment], over any
    number of calls. *)
Inductive searching (s0 : Solver) : Solver → Prop :=
| searching_start : searching s0 s0
| searching_round s r :
    searching s0 s → valid_ s = true → 0 ≤ current_index_ s →
    loop_body s = Ok r → searching s0 (iteration_state r)
| searching_exit s :
    searching s0 s → valid_ s = true → current_index_ s < 0 →
    searching s0 (set_valid s false).

(** Solver states between calls of [NextAssignment]. *)
Inductive after_calls (s0 : Solver) : Solver → Prop :=
| after_calls_none : after_calls s0 s0
| after_calls_next s fuel A s' :
    after_calls s0 s → NextAssignment fuel s = Ok (A, s') →
    after_calls s0 s'.

(** [may_equal] without the entries [j >= k] of [may_equal[k]]. *)
Definition lower (me : list (gset nat)) : list (gset nat) :=
  imap (fun k m => filter (fun j => (j < k)%nat) m) me.

Definition set_may_equal (s : Solver) (me : list (gset nat)) : Solver :=
  mkSolver (structure_ s) (n_variables_ s) (valid_ s) (constraints_ s)
    (working_constraints_ s) (var_to_constraints_ s) me
    (assignment_ s) (states_ s) (current_index_ s).

(** ** Auxiliary notions used in the proofs *)

(** Number of masks of [f] that produce [key]. *)
Definition hits (f key : Triplet) (ms : list Z) : nat :=
  length (filter (fun i => mask_key i f = key) ms).

(** *** The bucket invariant *)

Record Structure_inv (st : Structure) : Prop := {
  sinv_sound : ∀ key f, f ∈ Lookup st key →
                 is_fact f ∧ matches key f ∧ f ∈ Lookup st f;
  sinv_complete : ∀ key f, f ∈ Lookup st f → matches key f →
                    f ∈ Lookup st key;
  sinv_nodup : ∀ key, NoDup (Lookup st key)
}.

Definition sorted (l : list Z) : Prop := StronglySorted Z.lt l.

Definition zero_var (x : Z) : Z := if IsVariable x then 0 else x.

Definition picks (st : Structure) (var : Z) (wc : Triplet) (v : Z) : Prop :=
  ∃ t, t ∈ Lookup st (empty_holes var wc).1 ∧
       unify (empty_holes var wc).2 t positions 0 = v ∧ 0 < v.

(** [v] is picked by every constraint listed in [v2c]. *)
Definition in_all (st : Structure) (w : list Triplet) (var : Z)
    (v2c : list nat) (v : Z) : Prop :=
  ∀ i, i ∈ v2c → ∃ wc, w !! i = Some wc ∧ picks st var wc v.

(** Position-wise effect of [Assign] and [UnAssign] on one triplet. *)
Definition replace_var (var to x : Z) : Z := if x =? var then to else x.

Definition restore_var (var : Z) (constraint wc : Triplet) (j : nat) : Z :=
  if tget constraint j =? var then tget constraint j else tget wc j.

Definition restore_triplet (var : Z) (constraint wc : Triplet) : Triplet :=
  (restore_var var constraint wc 0, restore_var var constraint wc 1,
   restore_var var constraint wc 2).

(** In-place update of the entries listed in [l]. *)
Definition update_listed (f : nat → Triplet → Triplet) (l : list nat)
    (w : list Triplet) : list Triplet :=
  imap (fun i x => if decide (i ∈ l) then f i x else x) w.

(** The solver after a backtracking round, and after [Assign] with the
    cursor of the level moved on. *)
Definition backtracked (s : Solver) : Solver :=
  set_working (set_index s (current_index_ s - 1))
    (subst (take (Z.to_nat (current_index_ s - 1)) (assignment_ s))
       <$> constraints_ s).

Definition advanced (s : Solver) (state : State) (to : Node) : Solver :=
  set_states
    (set_index
       (set_working
          (set_assignment s
             (<[Z.to_nat (current_index_ s) := to]> (assignment_ s)))
          (subst (take (Z.to_nat (current_index_ s)) (assignment_ s) ++ [to])
             <$> constraints_ s))
       (current_index_ s + 1))
    (<[Z.to_nat (current_index_ s) :=
         mkState (options state) (S (options_it state))]> (states_ s)).

Definition entered (s : Solver) (o : list Node) : Solver :=
  set_states s
    (<[Z.to_nat (current_index_ s) := mkState o 0]> (states_ s)).

(** The solver the constructor builds before its call of [GetOptions]. *)
Definition initial (st : Structure) (n : nat) (kept : list Triplet)
    (v2c : list (list nat)) (me : list (gset nat)) : Solver :=
  mkSolver st n true kept kept v2c me (replicate n 0)
    (replicate n new_State) 0.

(** The solver with the entries [j >= k] of every [may_equal_[k]]
    removed. *)
Definition lower_solver (s : Solver) : Solver :=
  set_may_equal s (lower (may_equal_ s)).

Definition lower_iteration (r : iteration) : iteration :=
  match r with
  | Continue s => Continue (lower_solver s)
  | Return copy s => Return copy (lower_solver s)
  end.

(** ** Notions used to state further properties *)

(** Lexicographic order on assignments. *)
Fixpoint lex_lt (A B : list Node) : Prop :=
  match A, B with
  | a :: A', b :: B' => a < b ∨ (a = b ∧ lex_lt A' B')
  | [], _ :: _ => True
  | _, [] => False
  end.

(** The test [any_variables] of the constructor, on a whole triplet. *)
Definition parametric (c : Triplet) : bool :=
  IsVariable (tget c 0) || IsVariable (tget c 1) || IsVariable (tget c 2).

(** Every variable of [c] has an index below [n]. *)
Definition in_range (n : nat) (c : Triplet) : Prop :=
  ∀ j, (j < 3)%nat → tget c j ≤ 0 → (Z.to_nat (- tget c j) < n)%nat.

(** The solver after [Assign] alone. *)
Definition assigned (s : Solver) (to : Node) : Solver :=
  set_index
    (set_working
       (set_assignment s
          (<[Z.to_nat (current_index_ s) := to]> (assignment_ s)))
       (subst (take (Z.to_nat (current_index_ s)) (assignment_ s) ++ [to])
          <$> constraints_ s))
    (current_index_ s + 1).

(** Fact [f] agrees with constraint [c] under the values [P] of the
    first variables: at a node position of [c] it holds that node, at
    the position of a variable that has a value in [P] it holds that
    value; the positions of the other variables are free. *)
Definition agrees (P : list Node) (c f : Triplet) : Prop :=
  ∀ j, (j < 3)%nat →
    if IsVariable (tget c j)
    then ∀ a, P !! Z.to_nat (- tget c j) = Some a → tget f j = a
    else tget f j = tget c j.

(** Number of positions of [t] that hold 0. *)
Definition zeros (t : Triplet) : nat :=
  length (filter (fun x => x = 0) [tget t 0; tget t 1; tget t 2]).

(** ** Example instances *)

Definition unwrap {A : Type} (d : A) (r : result A) : A :=
  match r with
  | Ok a => a
  | Err _ => d
  end.

Definition no_solver : Solver :=
  mkSolver new_Structure 0 false [] [] [] [] [] [] 0.

(** The structure holding the single fact (1, 1, 1). *)
Definition st_one : Structure := unwrap new_Structure (build [(1, 1, 1)]).

(** The structure of the inequality scenario. *)
Definition st_pairs : Structure :=
  unwrap new_Structure (build [(1, 2, 1); (1, 2, 2); (2, 2, 1)]).

(** One variable, held three times by the single constraint. *)
Definition solver_one : Solver :=
  unwrap no_solver (Solver_new st_one 1 [(0, 0, 0)] [∅]).

(** Two variables that must differ. *)
Definition solver_pairs : Solver :=
  unwrap no_solver (Solver_new st_pairs 2 [(0, 2, -1)] [∅; ∅]).

(** Two variables, the second one held by no constraint. *)
Definition solver_free : Solver :=
  unwrap no_solver (Solver_new st_one 2 [(0, 0, 0)] [∅; ∅]).

(** A ground constraint that is not a fact. *)
Definition solver_ground : Solver :=
  unwrap no_solver (Solver_new st_one 1 [(2, 2, 2); (0, 0, 0)] [∅]).

(** No fact at all: the first call exhausts the search. *)
Definition solver_empty : Solver :=
  unwrap no_solver (Solver_new new_Structure 1 [(0, 0, 0)] [∅]).

(** A ground constraint that is a fact, before a parametric one. *)
Definition solver_mixed : Solver :=
  unwrap no_solver (Solver_new st_one 1 [(1, 1, 1); (0, 0, 0)] [∅]).

(** The facts of [st_pairs], inserted in the opposite order. *)
Definition st_pairs_rev : Structure :=
  unwrap new_Structure (build [(2, 2, 1); (1, 2, 2); (1, 2, 1)]).

Definition solver_pairs_rev : Solver :=
  unwrap no_solver (Solver_new st_pairs_rev 2 [(0, 2, -1)] [∅; ∅]).

(** The solver after one call of [NextAssignment]. *)
Definition after_call (fuel : nat) (s : Solver) : Solver :=
  (unwrap ([], no_solver) (NextAssignment fuel s)).2.

(** * Properties of the fact structure *)

Section StructureFacts.

Lemma matches_alt p q r a b c :
  matches (p, q, r) (a, b, c) ↔
  (p = 0 ∨ p = a) ∧ (q = 0 ∨ q = b) ∧ (r = 0 ∨ r = c).
Proof.
  unfold matches. split.
  - intros H. split; [|split].
    + apply (H 0%nat). lia.
    + apply (H 1%nat). lia.
    + apply (H 2%nat). lia.
  - intros (H0 & H1 & H2) [|[|[|j]]] Hj; simpl; auto.
Qed.

Lemma classic_matches key f : matches key f ∨ ¬ matches key f.
Proof.
  destruct f as [[a b] c], key as [[p q] r]. rewrite matches_alt.
  destruct (decide (p = 0 ∨ p = a)), (decide (q = 0 ∨ q = b)),
    (decide (r = 0 ∨ r = c)); tauto.
Qed.

Lemma is_fact_alt a b c : is_fact (a, b, c) ↔ 0 < a ∧ 0 < b ∧ 0 < c.
Proof. reflexivity. Qed.

Lemma mask_keys_explicit a b c :
  (fun i => mask_key i (a, b, c)) <$> masks =
  [(0, 0, 0); (a, 0, 0); (0, b, 0); (a, b, 0);
   (0, 0, c); (a, 0, c); (0, b, c); (a, b, c)].
Proof. reflexivity. Qed.

Lemma elem_of_mask_keys f key :
  key ∈ (fun i => mask_key i f) <$> masks ↔ matches key f.
Proof.
  destruct f as [[a b] c], key as [[p q] r].
  rewrite mask_keys_explicit, matches_alt.
  rewrite !elem_of_cons, elem_of_nil.
  split.
  - intros H. repeat destruct H as [H|H]; try done; simplify_eq; auto.
  - intros ([->| ->] & [->| ->] & [->| ->]); tauto.
Qed.

Lemma NoDup_mask_keys f :
  is_fact f → NoDup ((fun i => mask_key i f) <$> masks).
Proof.
  destruct f as [[a b] c]. rewrite is_fact_alt. intros (Ha & Hb & Hc).
  rewrite mask_keys_explicit.
  repeat (apply NoDup_cons; split;
          [rewrite ?elem_of_cons, elem_of_nil; intros H;
           repeat destruct H as [H|H]; try done; simplify_eq; lia|]).
  constructor.
Qed.


Lemma hits_cons f key i ms :
  hits f key (i :: ms) =
  ((if decide (mask_key i f = key) then 1 else 0) + hits f key ms)%nat.
Proof.
  unfold hits. rewrite filter_cons. case_decide; reflexivity.
Qed.

Lemma hits_fmap f key ms :
  hits f key ms =
  length (filter (fun k => k = key) ((fun i => mask_key i f) <$> ms)).
Proof.
  induction ms as [|i ms IH]; [reflexivity|].
  rewrite hits_cons, fmap_cons, filter_cons, IH.
  case_decide; reflexivity.
Qed.

Lemma length_filter_eq_NoDup (l : list Triplet) key :
  NoDup l →
  length (filter (fun k => k = key) l) =
  if decide (key ∈ l) then 1%nat else 0%nat.
Proof.
  induction 1 as [|k l Hk Hnd IH].
  - rewrite decide_False; [reflexivity|]. apply not_elem_of_nil.
  - rewrite filter_cons. destruct (decide (k = key)) as [->|Hd].
    + simpl. rewrite IH.
      rewrite decide_False by done. rewrite decide_True; [done|].
      apply elem_of_cons; auto.
    + rewrite IH. destruct (decide (key ∈ l)) as [Hin|Hin].
      * rewrite decide_True; [done|]. by constructor.
      * rewrite decide_False; [done|].
        intros [?|?]%elem_of_cons; [congruence|done].
Qed.

Lemma hits_matches f key :
  is_fact f → matches key f → hits f key masks = 1%nat.
Proof.
  intros Hf Hm. rewrite hits_fmap, length_filter_eq_NoDup
    by (by apply NoDup_mask_keys).
  rewrite decide_True; [done|]. by apply elem_of_mask_keys.
Qed.

Lemma hits_no_match f key :
  ¬ matches key f → hits f key masks = 0%nat.
Proof.
  intros Hm. unfold hits.
  destruct (filter _ masks) as [|i l] eqn:Hl; [done|].
  assert (i ∈ filter (fun i => mask_key i f = key) masks) as Hin
    by (rewrite Hl; constructor).
  apply list_elem_of_filter in Hin as [Hk Hi].
  exfalso. apply Hm, elem_of_mask_keys, list_elem_of_fmap. eauto.
Qed.

Lemma hits_pos f key : matches key f → (0 < hits f key masks)%nat.
Proof.
  intros Hm. apply elem_of_mask_keys, list_elem_of_fmap in Hm
    as (i & Hk & Hi).
  unfold hits.
  assert (i ∈ filter (fun i => mask_key i f = key) masks) as Hin
    by (apply list_elem_of_filter; split; done).
  destruct (filter _ masks); [by apply elem_of_nil in Hin | simpl; lia].
Qed.

(** *** Effect of the two loops on a bucket *)

Lemma bucket_push_back_at m k f key :
  bucket (push_back_at m k f) key =
  if decide (k = key) then bucket m key ++ [f] else bucket m key.
Proof.
  unfold push_back_at, bucket. rewrite lookup_insert.
  case_decide; subst; reflexivity.
Qed.

Lemma bucket_push_all f key ms m :
  bucket (foldl (fun m i => push_back_at m (mask_key i f) f) m ms) key =
  bucket m key ++ replicate (hits f key ms) f.
Proof.
  revert m. induction ms as [|i ms IH]; intros m.
  - simpl. by rewrite app_nil_r.
  - simpl foldl. rewrite IH, bucket_push_back_at, hits_cons.
    case_decide; simpl; [by rewrite <- app_assoc | done].
Qed.

Lemma bucket_erase_at m k f m' key :
  erase_at m k f = Ok m' →
  f ∈ bucket m k ∧
  bucket m' key =
  if decide (k = key) then erase_first f (bucket m key) else bucket m key.
Proof.
  unfold erase_at. case_decide as Hin; [|done].
  intros [= <-]. split; [done|].
  unfold bucket at 1. rewrite lookup_insert.
  case_decide; subst; reflexivity.
Qed.

Lemma bucket_erase_all f key ms m m' :
  erase_all m f ms = Ok m' →
  bucket m' key = Nat.iter (hits f key ms) (erase_first f) (bucket m key).
Proof.
  revert m. induction ms as [|i ms IH]; intros m; simpl.
  - by intros [= <-].
  - destruct (erase_at m (mask_key i f) f) as [m1|] eqn:He; [|done].
    simpl. intros H. apply IH in H. rewrite H.
    apply (bucket_erase_at _ _ _ _ key) in He as [_ ->].
    rewrite hits_cons. case_decide; simpl; [|done].
    apply Nat.iter_swap.
Qed.

Lemma elem_of_erase_first f l x :
  NoDup l → x ∈ erase_first f l ↔ x ∈ l ∧ x ≠ f.
Proof.
  induction 1 as [|y l Hy Hnd IH]; simpl.
  - rewrite elem_of_nil. tauto.
  - destruct (decide (f = y)) as [->|Hne].
    + rewrite elem_of_cons. split.
      * intros Hx. split; [by right|]. by intros ->.
      * intros [[->|Hx] Hney]; done.
    + rewrite !elem_of_cons, IH. split.
      * intros [->|[? ?]]; [split; [by left|done]|split; [by right|done]].
      * intros [[->|?] ?]; [by left|by right].
Qed.

Lemma NoDup_erase_first f l : NoDup l → NoDup (erase_first f l).
Proof.
  induction 1 as [|y l Hy Hnd IH]; simpl; [constructor|].
  case_decide; [done|]. constructor; [|done].
  rewrite elem_of_erase_first by done. tauto.
Qed.

Lemma Lookup_bucket st key : Lookup st key = bucket (facts_ st) key.
Proof. unfold Lookup, bucket. by destruct (facts_ st !! key). Qed.

Lemma IsTrue_bucket st f :
  IsTrue st f = true ↔ bucket (facts_ st) f ≠ [].
Proof.
  unfold IsTrue, bucket.
  destruct (facts_ st !! f) as [[|]|]; simpl; split; done.
Qed.


Lemma matches_fact_eq f g : is_fact f → matches f g → f = g.
Proof.
  destruct f as [[a b] c], g as [[x y] z].
  rewrite is_fact_alt, matches_alt. intros (?&?&?) (?&?&?).
  f_equal; [f_equal|]; lia.
Qed.

Lemma matches_refl f : matches f f.
Proof. intros j _. by right. Qed.

Lemma IsTrue_iff st f :
  Structure_inv st → is_fact f → IsTrue st f = true ↔ f ∈ Lookup st f.
Proof.
  intros Hinv Hf. rewrite IsTrue_bucket, <- Lookup_bucket. split.
  - destruct (Lookup st f) as [|g l] eqn:Hl; [done|]. intros _.
    assert (g ∈ Lookup st f) as Hg by (rewrite Hl; constructor).
    apply (sinv_sound _ Hinv) in Hg as (_ & Hm & _).
    apply matches_fact_eq in Hm; [|done]. subst g. constructor.
  - intros Hin Hnil. rewrite Hnil in Hin. by apply elem_of_nil in Hin.
Qed.

Lemma Structure_inv_new : Structure_inv new_Structure.
Proof.
  split; unfold Lookup; simpl; intros key; rewrite ?lookup_empty.
  - intros f Hf. by apply elem_of_nil in Hf.
  - intros f. rewrite lookup_empty. intros Hf. by apply elem_of_nil in Hf.
  - constructor.
Qed.

Lemma AddFact_Ok st f st' :
  AddFact st f = Ok st' →
  IsTrue st f = false ∧
  facts_ st' =
    foldl (fun m i => push_back_at m (mask_key i f) f) (facts_ st) masks.
Proof.
  unfold AddFact. destruct (IsTrue st f); [done|].
  intros H. split; [done|]. injection H as <-. reflexivity.
Qed.

Lemma Lookup_AddFact st f st' key :
  AddFact st f = Ok st' →
  Lookup st' key = Lookup st key ++ replicate (hits f key masks) f.
Proof.
  intros [_ H]%AddFact_Ok. rewrite !Lookup_bucket, H.
  apply bucket_push_all.
Qed.

Lemma Structure_inv_AddFact st f st' :
  Structure_inv st → is_fact f → AddFact st f = Ok st' →
  Structure_inv st'.
Proof.
  intros Hinv Hf Hadd.
  assert (∀ key, f ∉ Lookup st key) as Hfresh.
  { intros key Hin. apply (sinv_sound _ Hinv) in Hin as (_ & _ & Hin).
    apply IsTrue_iff in Hin; [|done..].
    apply AddFact_Ok in Hadd as [Hadd _]. congruence. }
  assert (∀ key g, g ∈ Lookup st' key ↔
            g ∈ Lookup st key ∨ (g = f ∧ matches key f)) as Hchar.
  { intros key g. rewrite (Lookup_AddFact _ _ _ _ Hadd), elem_of_app.
    apply or_iff_compat_l. rewrite elem_of_replicate. split.
    - intros [-> Hh]. split; [done|].
      destruct (classic_matches key f) as [Hm|Hm]; [done|].
      by rewrite hits_no_match in Hh.
    - intros [-> Hm]. split; [done|]. rewrite hits_matches; done. }
  split.
  - intros key g. rewrite !Hchar. intros [Hin|[-> Hm]].
    + apply (sinv_sound _ Hinv) in Hin as (?&?&?). auto.
    + split; [done|]. split; [done|]. right. split; [done|].
      apply matches_refl.
  - intros key g. rewrite !Hchar. intros [Hin|[-> _]] Hm.
    + left. by apply (sinv_complete _ Hinv).
    + right. done.
  - intros key. rewrite (Lookup_AddFact _ _ _ _ Hadd).
    apply NoDup_app. split; [apply (sinv_nodup _ Hinv)|]. split.
    + intros g Hg. rewrite elem_of_replicate. intros [-> _].
      by apply (Hfresh key).
    + destruct (classic_matches key f) as [Hm|Hm].
      * rewrite hits_matches by done. simpl. apply NoDup_singleton.
      * rewrite hits_no_match by done. constructor.
Qed.

Lemma RemoveFact_Ok st f st' :
  RemoveFact st f = Ok st' →
  IsTrue st f = true ∧ erase_all (facts_ st) f masks = Ok (facts_ st').
Proof.
  unfold RemoveFact. destruct (IsTrue st f); [|done].
  destruct (erase_all (facts_ st) f masks) as [m|] eqn:He; [|done].
  intros H. split; [done|]. injection H as <-. reflexivity.
Qed.

Lemma Lookup_RemoveFact st f st' key :
  RemoveFact st f = Ok st' →
  Lookup st' key =
  Nat.iter (hits f key masks) (erase_first f) (Lookup st key).
Proof.
  intros [_ H]%RemoveFact_Ok. rewrite !Lookup_bucket.
  by apply bucket_erase_all.
Qed.

Lemma elem_of_Lookup_RemoveFact st f st' key g :
  Structure_inv st → is_fact f → RemoveFact st f = Ok st' →
  g ∈ Lookup st' key ↔ g ∈ Lookup st key ∧ ¬ (g = f ∧ matches key f).
Proof.
  intros Hinv Hf Hrm. rewrite (Lookup_RemoveFact _ _ _ _ Hrm).
  destruct (classic_matches key f) as [Hm|Hm].
  - rewrite hits_matches by done. simpl.
    rewrite elem_of_erase_first by apply (sinv_nodup _ Hinv). tauto.
  - rewrite hits_no_match by done. simpl. tauto.
Qed.

Lemma Structure_inv_RemoveFact st f st' :
  Structure_inv st → is_fact f → RemoveFact st f = Ok st' →
  Structure_inv st'.
Proof.
  intros Hinv Hf Hrm.
  pose proof (fun key g =>
    elem_of_Lookup_RemoveFact st f st' key g Hinv Hf Hrm) as Hchar.
  split.
  - intros key g. rewrite !Hchar. intros [Hin Hne].
    destruct (sinv_sound _ Hinv _ _ Hin) as (Hg & Hm & Hown).
    split; [done|]. split; [done|]. split; [done|].
    intros [-> _]. apply Hne. auto.
  - intros key g. rewrite !Hchar. intros [Hin Hne] Hm.
    split; [by apply (sinv_complete _ Hinv)|].
    intros [-> _]. apply Hne. split; [done|]. apply matches_refl.
  - intros key. rewrite (Lookup_RemoveFact _ _ _ _ Hrm).
    destruct (hits f key masks) as [|[|n]] eqn:Hh; simpl.
    + apply (sinv_nodup _ Hinv).
    + apply NoDup_erase_first, (sinv_nodup _ Hinv).
    + destruct (classic_matches key f) as [Hm|Hm].
      * rewrite hits_matches in Hh by done. done.
      * rewrite hits_no_match in Hh by done. done.
Qed.

(** The ghost set of [stores] is the content of the full-key buckets. *)
Lemma stores_inv st F :
  stores st F →
  Structure_inv st ∧ ∀ f, f ∈ Lookup st f ↔ f ∈ F.
Proof.
  induction 1 as [|st F f st' _ [IH1 IH2] Hf Hadd
                  |st F f st' _ [IH1 IH2] Hf Hrm].
  - split; [apply Structure_inv_new|]. intros f.
    unfold Lookup. simpl. rewrite lookup_empty. set_solver.
  - split; [by eapply Structure_inv_AddFact|]. intros g.
    rewrite (Lookup_AddFact _ _ _ _ Hadd), elem_of_app, elem_of_replicate.
    rewrite IH2, elem_of_union, elem_of_singleton.
    split.
    + intros [?|[-> _]]; auto.
    + intros [->|?]; auto. right. split; [done|].
      rewrite hits_matches; [done..|apply matches_refl].
  - split; [by eapply Structure_inv_RemoveFact|]. intros g.
    rewrite (elem_of_Lookup_RemoveFact _ _ _ _ _ IH1 Hf Hrm).
    rewrite IH2, elem_of_difference, elem_of_singleton.
    split.
    + intros [? Hne]. split; [done|]. intros ->. apply Hne.
      split; [done|]. apply matches_refl.
    + intros [? Hne]. split; [done|]. intros [-> _]. done.
Qed.

Lemma reachable_inv st : reachable st → Structure_inv st.
Proof. intros [F HF]. by apply stores_inv in HF as [? _]. Qed.

End StructureFacts.

(** * Ordered sets and the loops of [GetOptions] *)

Section Sets.

Lemma set_count_spec x l : set_count x l = true ↔ x ∈ l.
Proof.
  unfold set_count. rewrite existsb_exists. split.
  - intros (y & Hy & Heq). apply Z.eqb_eq in Heq. subst.
    by apply list_elem_of_In.
  - intros Hx. exists x. split; [by apply list_elem_of_In|apply Z.eqb_refl].
Qed.

Lemma set_count_false x l : set_count x l = false ↔ x ∉ l.
Proof.
  rewrite <- set_count_spec. destruct (set_count x l); split; congruence.
Qed.

Lemma elem_of_set_insert x l y : y ∈ set_insert x l ↔ y = x ∨ y ∈ l.
Proof.
  induction l as [|z l IH]; simpl.
  - rewrite list_elem_of_singleton, elem_of_nil. tauto.
  - destruct (Z.ltb_spec x z); [by rewrite elem_of_cons|].
    destruct (Z.eqb_spec x z) as [->|Hne].
    + rewrite elem_of_cons. tauto.
    + rewrite !elem_of_cons, IH. tauto.
Qed.


Lemma sorted_nil : sorted [].
Proof. constructor. Qed.

Lemma set_insert_sorted x l : sorted l → sorted (set_insert x l).
Proof.
  unfold sorted. induction 1 as [|z l Hs IH Hall]; simpl.
  - repeat constructor.
  - destruct (Z.ltb_spec x z).
    + constructor; [by constructor|]. constructor; [done|].
      eapply Forall_impl; [exact Hall|]. simpl. intros. lia.
    + destruct (Z.eqb_spec x z); [by constructor|].
      constructor; [done|]. apply Forall_forall. intros y Hy.
      apply elem_of_set_insert in Hy as [->|Hy]; [lia|].
      rewrite Forall_forall in Hall. auto.
Qed.

Lemma sorted_NoDup l : sorted l → NoDup l.
Proof.
  unfold sorted. induction 1 as [|z l Hs IH Hall]; constructor; [|done].
  intros Hin. rewrite Forall_forall in Hall. apply Hall in Hin. lia.
Qed.

Lemma elem_of_set_erase x l y : y ∈ set_erase x l ↔ y ∈ l ∧ y ≠ x.
Proof. unfold set_erase. rewrite list_elem_of_filter. tauto. Qed.

Lemma set_erase_sorted x l : sorted l → sorted (set_erase x l).
Proof.
  unfold sorted, set_erase. induction 1 as [|z l Hs IH Hall].
  - constructor.
  - rewrite filter_cons. case_decide; [|done]. constructor; [done|].
    apply Forall_forall. intros y [_ Hy]%list_elem_of_filter.
    rewrite Forall_forall in Hall. auto.
Qed.

(** *** [empty_holes] and [unify] *)


Lemma empty_holes_explicit var a b c :
  empty_holes var (a, b, c) =
  ((zero_var a, zero_var b, zero_var c), [a =? var; b =? var; c =? var]).
Proof.
  unfold empty_holes, zero_var, positions. cbn.
  destruct (IsVariable a); cbn; destruct (IsVariable b); cbn;
    destruct (IsVariable c); reflexivity.
Qed.

Lemma unify_positive_spec h0 h1 h2 t v :
  is_fact t →
  (unify [h0; h1; h2] t positions 0 = v ∧ 0 < v) ↔
  ((h0 = true ∨ h1 = true ∨ h2 = true) ∧ 0 < v ∧
   (h0 = true → tget t 0 = v) ∧ (h1 = true → tget t 1 = v) ∧
   (h2 = true → tget t 2 = v)).
Proof.
  destruct t as [[a b] c]. rewrite is_fact_alt. intros (Ha & Hb & Hc).
  assert (∀ P : Prop, (true = true → P) ↔ P) as Ht by (intros; tauto).
  assert (∀ P : Prop, (false = true → P) ↔ True) as Hff
    by (intros; split; [done|intros _ ?; done]).
  unfold positions. destruct h0, h1, h2; cbn;
    repeat match goal with
           | |- context [?x =? ?y] => destruct (Z.eqb_spec x y); cbn
           end;
    rewrite ?Ht, ?Hff; split; intros; destruct_and?; repeat split;
    try lia; auto.
Qed.

(** *** [local_options_of] *)


Lemma local_options_fold (P : Triplet → Z) (Q : Z → bool) L acc v :
  v ∈ foldl (fun local triplet =>
               if (0 <? P triplet) && Q (P triplet)
               then set_insert (P triplet) local else local) acc L ↔
  v ∈ acc ∨ ∃ t, t ∈ L ∧ P t = v ∧ 0 < v ∧ Q v = true.
Proof.
  revert acc. induction L as [|t L IH]; intros acc; simpl.
  - split; [auto|]. intros [?|(t & Ht & _)]; [done|].
    by apply elem_of_nil in Ht.
  - rewrite IH. destruct (Z.ltb_spec 0 (P t)); simpl.
    + destruct (Q (P t)) eqn:HQ.
      * rewrite elem_of_set_insert. split.
        -- intros [[->|?]|(t' & Ht' & ?)]; auto.
           ++ right. exists t. split; [constructor|]. auto.
           ++ right. exists t'. split; [by constructor|]. auto.
        -- intros [?|(t' & Ht' & Hv & Hpos & HQv)]; auto.
           apply elem_of_cons in Ht' as [->|Ht']; [auto|].
           right. eauto.
      * split.
        -- intros [?|(t' & Ht' & ?)]; auto.
           right. exists t'. split; [by constructor|]. auto.
        -- intros [?|(t' & Ht' & Hv & Hpos & HQv)]; auto.
           apply elem_of_cons in Ht' as [->|Ht']; [congruence|].
           right. eauto.
    + split.
      * intros [?|(t' & Ht' & ?)]; auto.
        right. exists t'. split; [by constructor|]. auto.
      * intros [?|(t' & Ht' & Hv & Hpos & HQv)]; auto.
        apply elem_of_cons in Ht' as [->|Ht']; [lia|].
        right. eauto.
Qed.

Lemma local_options_fold_sorted (P : Triplet → Z) (Q : Z → bool) L acc :
  sorted acc →
  sorted (foldl (fun local triplet =>
                   if (0 <? P triplet) && Q (P triplet)
                   then set_insert (P triplet) local else local) acc L).
Proof.
  revert acc. induction L as [|t L IH]; intros acc Hs; simpl; [done|].
  apply IH. destruct (_ && _); [by apply set_insert_sorted|done].
Qed.

Lemma elem_of_local_options st var wc init opts v :
  v ∈ local_options_of st var wc init opts ↔
  picks st var wc v ∧ (init = false ∨ v ∈ opts).
Proof.
  unfold local_options_of, picks.
  rewrite (local_options_fold
             (fun t => unify (empty_holes var wc).2 t positions 0)
             (fun c => negb init || set_count c opts)).
  rewrite elem_of_nil. split.
  - intros [[]|(t & Ht & Hv & Hpos & HQ)]. split; [eauto|].
    destruct init; simpl in HQ; [right; by apply set_count_spec|by left].
  - intros [(t & Ht & Hv & Hpos) Hq]. right. exists t.
    repeat split; try done. destruct Hq as [->|Hq]; [done|].
    apply set_count_spec in Hq. rewrite Hq. apply orb_true_r.
Qed.

Lemma local_options_sorted st var wc init opts :
  sorted (local_options_of st var wc init opts).
Proof.
  unfold local_options_of.
  apply (local_options_fold_sorted
           (fun t => unify (empty_holes var wc).2 t positions 0)
           (fun c => negb init || set_count c opts)), sorted_nil.
Qed.

End Sets.

(** * The loops of [GetOptions] *)

Section GetOptionsLoops.

Lemma vec_get_Ok {A} (v : list A) i x : vec_get v i = Ok x ↔ v !! i = Some x.
Proof. unfold vec_get. destruct (v !! i); split; congruence. Qed.

Lemma vec_at_Ok {A} (v : list A) i x : vec_at v i = Ok x ↔ v !! i = Some x.
Proof. unfold vec_at. destruct (v !! i); split; congruence. Qed.

Lemma bind_Ok {A B} (m : result A) (k : A → result B) b :
  bind m k = Ok b ↔ ∃ a, m = Ok a ∧ k a = Ok b.
Proof.
  destruct m; simpl; split.
  - eauto.
  - by intros (a' & [= <-] & ?).
  - done.
  - by intros (a' & [=] & ?).
Qed.

Lemma options_loop_initialized st w var v2c opts o v :
  options_loop st w var v2c true opts = Ok o →
  v ∈ o ↔ v ∈ opts ∧ in_all st w var v2c v.
Proof.
  revert opts. induction v2c as [|i rest IH]; intros opts; simpl.
  - intros [= <-]. unfold in_all. split; [|tauto].
    intros ?. split; [done|]. intros i Hi. by apply elem_of_nil in Hi.
  - intros (wc & Hwc%vec_get_Ok & H)%bind_Ok.
    assert (in_all st w var (i :: rest) v ↔
            picks st var wc v ∧ in_all st w var rest v) as Hall.
    { unfold in_all. split.
      - intros Ha. split.
        + destruct (Ha i) as (wc' & Hwc' & Hp); [constructor|]. congruence.
        + intros i' Hi'. apply Ha. by constructor.
      - intros [Hp Ha] i' [->|Hi']%elem_of_cons; eauto. }
    rewrite Hall.
    pose proof (elem_of_local_options st var wc true opts v) as Hloc.
    destruct (local_options_of st var wc true opts) as [|x l] eqn:Hl.
    + injection H as <-. rewrite elem_of_nil in Hloc |- *.
      split; [done|]. intros [? [? ?]]. apply Hloc. auto.
    + apply IH in H. rewrite H, Hloc. intuition congruence.
Qed.

Lemma options_loop_uninitialized st w var i rest opts o v :
  options_loop st w var (i :: rest) false opts = Ok o →
  v ∈ o ↔ in_all st w var (i :: rest) v.
Proof.
  simpl. intros (wc & Hwc%vec_get_Ok & H)%bind_Ok.
  assert (in_all st w var (i :: rest) v ↔
          picks st var wc v ∧ in_all st w var rest v) as Hall.
  { unfold in_all. split.
    - intros Ha. split.
      + destruct (Ha i) as (wc' & Hwc' & Hp); [constructor|]. congruence.
      + intros i' Hi'. apply Ha. by constructor.
    - intros [Hp Ha] i' [->|Hi']%elem_of_cons; eauto. }
  rewrite Hall.
  pose proof (elem_of_local_options st var wc false opts v) as Hloc.
  destruct (local_options_of st var wc false opts) as [|x l] eqn:Hl.
  - injection H as <-. rewrite elem_of_nil in Hloc |- *.
    split; [done|]. intros [? ?]. apply Hloc. auto.
  - apply options_loop_initialized with (v := v) in H.
    rewrite H, Hloc. intuition congruence.
Qed.

Lemma options_loop_sorted st w var v2c init opts o :
  sorted opts → options_loop st w var v2c init opts = Ok o → sorted o.
Proof.
  revert init opts. induction v2c as [|i rest IH]; intros init opts Hs; simpl.
  - by intros [= <-].
  - intros (wc & Hwc & H)%bind_Ok.
    pose proof (local_options_sorted st var wc init opts) as Hloc.
    destruct (local_options_of st var wc init opts) as [|x l] eqn:Hl.
    + injection H as <-. apply sorted_nil.
    + by eapply IH.
Qed.

Lemma options_loop_total st w var v2c init opts :
  (∀ i, i ∈ v2c → (i < length w)%nat) →
  ∃ o, options_loop st w var v2c init opts = Ok o.
Proof.
  revert init opts. induction v2c as [|i rest IH]; intros init opts Hin; simpl.
  - eauto.
  - destruct (lookup_lt_is_Some_2 w i) as [wc Hwc]; [apply Hin; constructor|].
    unfold vec_get. rewrite Hwc. simpl.
    destruct (local_options_of st var wc init opts); [eauto|].
    apply IH. intros i' Hi'. apply Hin. by constructor.
Qed.

Lemma options_loop_stale st w var v2c opts :
  v2c ≠ [] ∨ opts = [] →
  options_loop st w var v2c false opts = options_loop st w var v2c false [].
Proof.
  destruct v2c as [|i rest]; [|reflexivity].
  intros [?| ->]; done.
Qed.

Lemma options_loop_positive st w var v2c opts o v :
  options_loop st w var v2c false opts = Ok o →
  v2c ≠ [] ∨ opts = [] → v ∈ o → 0 < v.
Proof.
  destruct v2c as [|i rest].
  - simpl. intros [= <-] [?| ->]; [done|]. by intros ?%elem_of_nil.
  - intros H _ Hv. apply options_loop_uninitialized with (v := v) in H.
    apply H in Hv. destruct (Hv i) as (wc & _ & t & _ & _ & Hpos);
      [constructor|done].
Qed.

(** *** The inequality filter *)

Lemma inequality_loop_spec a m idx opts o v :
  inequality_loop a m idx opts = Ok o →
  v ∈ o ↔ v ∈ opts ∧ ∀ i, i ∈ idx → i ∉ m → a !! i ≠ Some v.
Proof.
  revert opts. induction idx as [|i rest IH]; intros opts; simpl.
  - intros [= <-]. split; [|tauto]. intros ?. split; [done|].
    intros i Hi. by apply elem_of_nil in Hi.
  - intros (x & Hx%vec_get_Ok & H)%bind_Ok.
    destruct (set_count x opts) eqn:Hc;
      [apply set_count_spec in Hc|apply set_count_false in Hc];
      (destruct (bool_decide (i ∈ m)) eqn:Hm;
       [apply bool_decide_eq_true in Hm|apply bool_decide_eq_false in Hm]);
      simpl in H; apply IH in H; rewrite H; clear H.
    + split; intros [Hv Hall]; (split; [done|]).
      * intros i' [->|?]%elem_of_cons; [done|auto].
      * intros i' Hi'. apply Hall. by constructor.
    + rewrite elem_of_set_erase. split.
      * intros [[Hv Hne] Hall]. split; [done|].
        intros i' [->|?]%elem_of_cons; [intros _ ?; congruence|auto].
      * intros [Hv Hall]. split; [split; [done|]|].
        -- intros ->. by apply (Hall i); [constructor|..].
        -- intros i' Hi'. apply Hall. by constructor.
    + split; intros [Hv Hall]; (split; [done|]).
      * intros i' [->|?]%elem_of_cons; [done|auto].
      * intros i' Hi'. apply Hall. by constructor.
    + split; intros [Hv Hall]; (split; [done|]).
      * intros i' [->|?]%elem_of_cons; [|auto].
        intros _ Heq. rewrite Hx in Heq. by injection Heq as ->.
      * intros i' Hi'. apply Hall. by constructor.
Qed.

Lemma inequality_loop_sorted a m idx opts o :
  sorted opts → inequality_loop a m idx opts = Ok o → sorted o.
Proof.
  revert opts. induction idx as [|i rest IH]; intros opts Hs; simpl.
  - by intros [= <-].
  - intros (x & Hx & H)%bind_Ok.
    destruct (_ && _); eapply IH; try exact H; [|done].
    by apply set_erase_sorted.
Qed.

Lemma inequality_loop_total a m idx opts :
  (∀ i, i ∈ idx → (i < length a)%nat) →
  ∃ o, inequality_loop a m idx opts = Ok o.
Proof.
  revert opts. induction idx as [|i rest IH]; intros opts Hin; simpl.
  - eauto.
  - destruct (lookup_lt_is_Some_2 a i) as [x Hx]; [apply Hin; constructor|].
    unfold vec_get. rewrite Hx. simpl.
    destruct (_ && _); apply IH; intros i' Hi'; apply Hin; by constructor.
Qed.

Lemma inequality_loop_ext a a' m m' idx opts :
  (∀ i, i ∈ idx → a !! i = a' !! i) →
  (∀ i, i ∈ idx → i ∈ m ↔ i ∈ m') →
  inequality_loop a m idx opts = inequality_loop a' m' idx opts.
Proof.
  revert opts. induction idx as [|i rest IH]; intros opts Ha Hm; simpl.
  - done.
  - unfold vec_get. rewrite <- (Ha i) by constructor.
    destruct (a !! i) as [x|]; simpl; [|done].
    rewrite (bool_decide_ext (i ∈ m) (i ∈ m')) by (apply Hm; constructor).
    destruct (_ && _); apply IH; intros i' Hi';
      try (apply Ha; by constructor); apply Hm; by constructor.
Qed.

End GetOptionsLoops.

(** * The constructor *)

Section Constructor.

Lemma elem_of_positions j : j ∈ positions ↔ (j < 3)%nat.
Proof.
  unfold positions. rewrite !elem_of_cons, elem_of_nil. lia.
Qed.

Lemma at_int_Ok {A} (v : list A) c x :
  at_int v c = Ok x ↔ 0 ≤ c ∧ v !! Z.to_nat c = Some x.
Proof.
  unfold at_int. destruct (Z.ltb_spec c 0).
  - split; [done|]. lia.
  - rewrite vec_at_Ok. intuition.
Qed.

Lemma get_int_Ok {A} (v : list A) c x :
  get_int v c = Ok x ↔ 0 ≤ c ∧ v !! Z.to_nat c = Some x.
Proof.
  unfold get_int. destruct (Z.ltb_spec c 0).
  - split; [done|]. lia.
  - rewrite vec_get_Ok. intuition.
Qed.

Lemma IsVariable_true x : IsVariable x = true ↔ x ≤ 0.
Proof. unfold IsVariable. apply Z.leb_le. Qed.

Lemma IsVariable_false x : IsVariable x = false ↔ 0 < x.
Proof. unfold IsVariable. rewrite Z.leb_gt. done. Qed.

Lemma register_position_spec size c v b j v' b' :
  register_position size c (v, b) j = Ok (v', b') →
  length v' = length v ∧
  (b' = true ↔ b = true ∨ tget c j ≤ 0) ∧
  (tget c j ≤ 0 → (Z.to_nat (- tget c j) < length v)%nat) ∧
  (∀ k l', v' !! k = Some l' →
     ∃ l, v !! k = Some l ∧
       ∀ i, i ∈ l' ↔ i ∈ l ∨ (i = size ∧ tget c j = - Z.of_nat k)).
Proof.
  unfold register_position. simpl.
  destruct (IsVariable (tget c j)) eqn:Hv.
  - apply IsVariable_true in Hv.
    intros (l0 & [_ Hl0]%at_int_Ok & [= <- <-])%bind_Ok.
    pose proof (lookup_lt_Some _ _ _ Hl0) as Hlt.
    split; [by rewrite length_insert|]. split; [tauto|]. split; [done|].
    intros k l'. destruct (decide (k = Z.to_nat (- tget c j))) as [->|Hk].
    + rewrite list_lookup_insert_eq by done. intros [= <-].
      exists l0. split; [done|]. intros i.
      rewrite elem_of_app, list_elem_of_singleton. split.
      * intros [?| ->]; [auto|]. right. split; [done|]. lia.
      * intros [?|[-> _]]; auto.
    + rewrite list_lookup_insert_ne by done. intros Hl'.
      exists l'. split; [done|]. intros i. split; [auto|].
      intros [?|[_ Heq]]; [done|]. lia.
  - apply IsVariable_false in Hv. intros [= <- <-].
    split; [done|]. split; [split; [auto|intros [?|?]; [done|lia]]|].
    split; [lia|]. intros k l' Hl'. exists l'. split; [done|].
    intros i. split; [auto|]. intros [?|[_ Heq]]; [done|lia].
Qed.

Lemma register_positions_spec size c js v b v' b' :
  foldM (register_position size c) (v, b) js = Ok (v', b') →
  length v' = length v ∧
  (b' = true ↔ b = true ∨ ∃ j, j ∈ js ∧ tget c j ≤ 0) ∧
  (∀ j, j ∈ js → tget c j ≤ 0 →
     (Z.to_nat (- tget c j) < length v)%nat) ∧
  (∀ k l', v' !! k = Some l' →
     ∃ l, v !! k = Some l ∧
       ∀ i, i ∈ l' ↔
         i ∈ l ∨ (i = size ∧ ∃ j, j ∈ js ∧ tget c j = - Z.of_nat k)).
Proof.
  revert v b. induction js as [|j js IH]; intros v b; simpl.
  - intros [= <- <-]. split; [done|].
    split; [split; [auto|intros [?|(j & Hj & _)]; [done|]];
            by apply elem_of_nil in Hj|].
    split; [intros j Hj; by apply elem_of_nil in Hj|].
    intros k l' Hl'. exists l'. split; [done|]. intros i. split; [auto|].
    intros [?|(_ & j & Hj & _)]; [done|]. by apply elem_of_nil in Hj.
  - intros ([v1 b1] & H1 & H2)%bind_Ok.
    apply register_position_spec in H1 as (Hlen1 & Hb1 & Hr1 & Hl1).
    apply IH in H2 as (Hlen2 & Hb2 & Hr2 & Hl2).
    split; [congruence|]. split; [|split].
    + rewrite Hb2, Hb1. split.
      * intros [[?|?]|(j' & Hj' & ?)]; auto.
        -- right. exists j. split; [constructor|done].
        -- right. exists j'. split; [by constructor|done].
      * intros [?|(j' & [->|Hj']%elem_of_cons & ?)]; eauto.
    + intros j' [->|Hj']%elem_of_cons Hle; [auto|].
      rewrite <- Hlen1. auto.
    + intros k l' Hl'. apply Hl2 in Hl' as (l1 & Hk1 & Hi1).
      apply Hl1 in Hk1 as (l & Hk & Hi). exists l. split; [done|].
      intros i. rewrite Hi1, Hi. split.
      * intros [[?|[-> ?]]|[-> (j' & Hj' & ?)]]; auto.
        -- right. split; [done|]. exists j. split; [constructor|done].
        -- right. split; [done|]. exists j'. split; [by constructor|done].
      * intros [?|[-> (j' & [->|Hj']%elem_of_cons & ?)]]; eauto 6.
Qed.

Lemma register_positions_ground size c js v b :
  (∀ j, j ∈ js → IsVariable (tget c j) = false) →
  foldM (register_position size c) (v, b) js = Ok (v, b).
Proof.
  induction js as [|j js IH]; intros Hg; simpl; [done|].
  unfold register_position at 1. rewrite Hg by constructor. simpl.
  apply IH. intros j' Hj'. apply Hg. by constructor.
Qed.

Lemma mentions_variable c k : mentions c k → has_variable c.
Proof. intros (j & Hj & Heq). exists j. split; [done|lia]. Qed.

Lemma register_constraints_cons st c cs v2c kept :
  register_constraints st (c :: cs) v2c kept =
  do r <- foldM (register_position (length kept) c) (v2c, false) positions;
  if r.2 then register_constraints st cs r.1 (kept ++ [c])
  else if negb (IsTrue st c) then Ok (r.1, kept, false)
  else register_constraints st cs r.1 kept.
Proof. reflexivity. Qed.

Lemma register_constraints_spec st n cs v2c kept v2c' kept' valid :
  registered n v2c kept →
  register_constraints st cs v2c kept = Ok (v2c', kept', valid) →
  registered n v2c' kept' ∧
  (valid = true →
     (∀ c, c ∈ kept' ↔ c ∈ kept ∨ (c ∈ cs ∧ has_variable c)) ∧
     (∀ c, c ∈ cs → ¬ has_variable c → IsTrue st c = true)) ∧
  (valid = false →
     ∃ c, c ∈ cs ∧ ¬ has_variable c ∧ IsTrue st c = false).
Proof.
  revert v2c kept. induction cs as [|c cs IH]; intros v2c kept Hreg;
    [simpl|rewrite register_constraints_cons].
  - intros [= <- <- <-]. split; [done|]. split; [|done]. intros _. split.
    + intros c. split; [auto|]. intros [?|[Hc _]]; [done|].
      by apply elem_of_nil in Hc.
    + intros c Hc. by apply elem_of_nil in Hc.
  - intros ([v1 any] & Hpos & H)%bind_Ok. simpl in H.
    pose proof Hpos as Hpos0.
    apply register_positions_spec in Hpos as (Hlen & Hany & Hrange & Hl).
    destruct Hreg as (Hn & Hv2c & Hvars & Hparam).
    assert (any = true ↔ has_variable c) as Hany'.
    { rewrite Hany. unfold has_variable. split.
      - intros [?|(j & Hj%elem_of_positions & ?)]; [done|eauto].
      - intros (j & Hj%elem_of_positions & ?). eauto. }
    destruct any.
    + (* parametric: the constraint is kept *)
      assert (registered n v1 (kept ++ [c])) as Hreg1.
      { split; [congruence|]. split.
        - intros k l' i Hl'. apply Hl in Hl' as (l & Hk & Hi).
          rewrite Hi, (Hv2c _ _ _ Hk). split.
          + intros [(c' & Hc' & Hm)|[-> (j & Hj%elem_of_positions & Hm)]].
            * exists c'. split; [|done].
              rewrite lookup_app_l; [done|]. by eapply lookup_lt_Some.
            * exists c. split; [|by exists j].
              rewrite lookup_app_r by done.
              by rewrite Nat.sub_diag.
          + intros (c' & Hc' & Hm).
            apply lookup_app_Some in Hc' as [Hc'|[Hge Hc']].
            * left. eauto.
            * right. apply list_lookup_singleton_Some in Hc' as [Hi0 ->].
              split; [lia|]. destruct Hm as (j & Hj & Hm).
              exists j. split; [by apply elem_of_positions|done].
        - split.
          + intros c' j [Hc'| ->%list_elem_of_singleton]%elem_of_app Hj Hle.
            * eauto.
            * rewrite <- Hn.
              apply Hrange; [by apply elem_of_positions|done].
          + intros c' [Hc'| ->%list_elem_of_singleton]%elem_of_app;
              [auto|tauto]. }
      apply IH in H as (Hreg' & Hval & Hinval); [|done]. split; [done|].
      split.
      * intros Hvalid. destruct (Hval Hvalid) as [Hk Hg]. split.
        -- intros c'. rewrite Hk, elem_of_app, list_elem_of_singleton,
             elem_of_cons. split.
           ++ intros [[?| ->]|[? ?]]; auto. right. split; [auto|]. tauto.
           ++ intros [?|[[->|?] ?]]; auto.
        -- intros c' [->|Hc']%elem_of_cons Hnv; [|auto]. tauto.
      * intros Hinvalid. destruct (Hinval Hinvalid) as (c' & Hc' & ?).
        exists c'. split; [by constructor|done].
    + (* ground: only checked *)
      assert (¬ has_variable c) as Hground.
      { intros Hv. assert (false = true) by tauto. done. }
      assert (v1 = v2c) as ->.
      { assert (Ok (v1, false) = Ok (v2c, false)) as [=]; [|done].
        rewrite <- Hpos0. apply register_positions_ground.
        intros j Hj%elem_of_positions. apply IsVariable_false.
        destruct (Z.ltb_spec 0 (tget c j)); [done|].
        exfalso. apply Hground. exists j. split; [done|lia]. }
      destruct (IsTrue st c) eqn:Htrue; simpl in H.
      * apply IH in H as (Hreg' & Hval & Hinval); [|done]. split; [done|].
        split.
        -- intros Hvalid. destruct (Hval Hvalid) as [Hk Hg]. split.
           ++ intros c'. rewrite Hk, elem_of_cons. split.
              ** intros [?|[? ?]]; auto.
              ** intros [?|[[->|?] Hv]]; auto. done.
           ++ intros c' [->|Hc']%elem_of_cons Hnv; [done|auto].
        -- intros Hinvalid. destruct (Hinval Hinvalid) as (c' & Hc' & ?).
           exists c'. split; [by constructor|done].
      * injection H as <- <- <-. split; [done|]. split; [done|].
        intros _. exists c. split; [constructor|done].
Qed.

End Constructor.

(** * Assign, UnAssign and GetOptions on a state of the search *)

Section Operations.

Lemma tget_subst A c j : tget (subst A c) j = subst_pos A (tget c j).
Proof. destruct c as [[a b] d], j as [|[|j]]; reflexivity. Qed.

Lemma triplet_eq (t u : Triplet) :
  (∀ j, (j < 3)%nat → tget t j = tget u j) → t = u.
Proof.
  destruct t as [[a b] c], u as [[x y] z]. intros H.
  pose proof (H 0%nat). pose proof (H 1%nat). pose proof (H 2%nat).
  simpl in *. f_equal; [f_equal|]; auto.
Qed.

Lemma subst_pos_node A x : 0 < x → subst_pos A x = x.
Proof.
  intros Hx. unfold subst_pos.
  destruct (IsVariable x) eqn:Hv; [|done].
  apply IsVariable_true in Hv. lia.
Qed.

Lemma subst_pos_var A x :
  x ≤ 0 → subst_pos A x = default x (A !! Z.to_nat (- x)).
Proof.
  intros Hx. unfold subst_pos.
  destruct (IsVariable x) eqn:Hv; [done|].
  apply IsVariable_false in Hv. lia.
Qed.

Lemma subst_nil c : subst [] c = c.
Proof.
  apply triplet_eq. intros j _. rewrite tget_subst. unfold subst_pos.
  destruct (IsVariable _); done.
Qed.

Lemma subst_nil_fmap (cs : list Triplet) : subst [] <$> cs = cs.
Proof.
  induction cs as [|c cs IH]; [done|].
  rewrite fmap_cons, subst_nil. by f_equal.
Qed.

Lemma assign_triplet_explicit var to a b c :
  assign_triplet var to (a, b, c) =
  (replace_var var to a, replace_var var to b, replace_var var to c).
Proof.
  unfold assign_triplet, replace_var, positions. cbn.
  destruct (a =? var); cbn; destruct (b =? var); cbn;
    destruct (c =? var); reflexivity.
Qed.

Lemma tget_assign_triplet var to t j :
  tget (assign_triplet var to t) j = replace_var var to (tget t j).
Proof.
  destruct t as [[a b] c]. rewrite assign_triplet_explicit.
  destruct j as [|[|j]]; reflexivity.
Qed.

Lemma tget_restore_triplet var cst wc j :
  (j < 3)%nat →
  tget (restore_triplet var cst wc) j = restore_var var cst wc j.
Proof. intros _. destruct j as [|[|[|j]]]; reflexivity. Qed.

(** Extending the prefix by the value given to variable [length P]. *)
Lemma assign_subst P to c :
  (∀ a, a ∈ P → 0 < a) →
  assign_triplet (- Z.of_nat (length P)) to (subst P c) = subst (P ++ [to]) c.
Proof.
  intros HP. apply triplet_eq. intros j _.
  rewrite tget_assign_triplet, !tget_subst. unfold replace_var.
  destruct (Z.ltb_spec 0 (tget c j)) as [Hpos|Hvar].
  - rewrite !subst_pos_node by done.
    destruct (Z.eqb_spec (tget c j) (- Z.of_nat (length P))); [lia|done].
  - rewrite !subst_pos_var by done.
    destruct (decide (Z.to_nat (- tget c j) < length P)%nat) as [Hlt|Hge].
    + rewrite lookup_app_l by done.
      destruct (lookup_lt_is_Some_2 P _ Hlt) as [a Ha]. rewrite Ha. simpl.
      assert (0 < a) by (apply HP; by eapply list_elem_of_lookup_2).
      destruct (Z.eqb_spec a (- Z.of_nat (length P))); [lia|done].
    + rewrite (lookup_ge_None_2 P) by lia. simpl.
      destruct (Z.eqb_spec (tget c j) (- Z.of_nat (length P))) as [Heq|Hne].
      * rewrite Heq, Z.opp_involutive, Nat2Z.id.
        rewrite lookup_app_r by done. by rewrite Nat.sub_diag.
      * rewrite lookup_ge_None_2; [done|]. rewrite length_app. simpl. lia.
Qed.

(** A constraint that does not hold the new variable is unaffected. *)
Lemma subst_snoc_other P to c :
  ¬ mentions c (length P) → subst (P ++ [to]) c = subst P c.
Proof.
  intros Hm. apply triplet_eq. intros j Hj. rewrite !tget_subst.
  destruct (Z.ltb_spec 0 (tget c j)) as [Hpos|Hvar].
  - by rewrite !subst_pos_node.
  - rewrite !subst_pos_var by done.
    destruct (decide (Z.to_nat (- tget c j) < length P)%nat) as [Hlt|Hge].
    + by rewrite lookup_app_l.
    + assert (Z.to_nat (- tget c j) ≠ length P).
      { intros Heq. apply Hm. exists j. split; [done|]. lia. }
      rewrite (lookup_ge_None_2 P) by lia.
      rewrite lookup_ge_None_2; [done|]. rewrite length_app. simpl. lia.
Qed.

Lemma restore_subst P a c :
  restore_triplet (- Z.of_nat (length P)) c (subst (P ++ [a]) c) = subst P c.
Proof.
  apply triplet_eq. intros j Hj.
  rewrite tget_restore_triplet by done. unfold restore_var.
  rewrite !tget_subst.
  destruct (Z.eqb_spec (tget c j) (- Z.of_nat (length P))) as [Heq|Hne].
  - rewrite subst_pos_var by lia. rewrite Heq, Z.opp_involutive, Nat2Z.id.
    by rewrite lookup_ge_None_2.
  - destruct (Z.ltb_spec 0 (tget c j)) as [Hpos|Hvar].
    + by rewrite !subst_pos_node.
    + rewrite !subst_pos_var by done.
      destruct (decide (Z.to_nat (- tget c j) < length P)%nat) as [Hlt|Hge].
      * by rewrite lookup_app_l.
      * rewrite (lookup_ge_None_2 P) by lia.
        rewrite lookup_ge_None_2; [done|]. rewrite length_app. simpl. lia.
Qed.

(** *** In-place updates driven by a list of indices *)

Lemma update_listed_nil f w : update_listed f [] w = w.
Proof.
  apply list_eq. intros i. unfold update_listed.
  rewrite list_lookup_imap. destruct (w !! i); simpl; [|done].
  first [done | rewrite decide_False; [done|]; apply not_elem_of_nil].
Qed.

Lemma update_listed_cons f i l w wi :
  w !! i = Some wi →
  (∀ k x, f k (f k x) = f k x) →
  update_listed f l (<[i := f i wi]> w) = update_listed f (i :: l) w.
Proof.
  intros Hi Hidem. apply list_eq. intros k. unfold update_listed.
  rewrite !list_lookup_imap.
  destruct (decide (k = i)) as [->|Hne].
  - rewrite list_lookup_insert_eq by (by eapply lookup_lt_Some).
    rewrite Hi. simpl. rewrite (decide_True (P := i ∈ i :: l))
      by constructor.
    case_decide; by rewrite ?Hidem.
  - rewrite list_lookup_insert_ne by done.
    destruct (w !! k); simpl; [|done].
    destruct (decide (k ∈ l)).
    + rewrite decide_True; [done|]. by constructor.
    + rewrite decide_False; [done|].
      intros [?|?]%elem_of_cons; done.
Qed.

Lemma foldM_update (g : list Triplet → nat → result (list Triplet)) f l w :
  (∀ w' i wi, i ∈ l → w' !! i = Some wi →
     g w' i = Ok (<[i := f i wi]> w')) →
  (∀ i, i ∈ l → (i < length w)%nat) →
  (∀ k x, f k (f k x) = f k x) →
  foldM g w l = Ok (update_listed f l w).
Proof.
  intros Hg Hin Hidem. revert w Hin.
  induction l as [|i l IH]; intros w Hin.
  - simpl. by rewrite update_listed_nil.
  - simpl.
    destruct (lookup_lt_is_Some_2 w i) as [wi Hwi]; [apply Hin; constructor|].
    rewrite (Hg w i wi) by (done || constructor). simpl.
    rewrite IH.
    + by rewrite (update_listed_cons f i l w wi).
    + intros w' k wk Hk. apply Hg. by constructor.
    + intros k Hk. rewrite length_insert. apply Hin. by constructor.
Qed.

Lemma replace_var_idem var to x :
  to ≠ var → replace_var var to (replace_var var to x) = replace_var var to x.
Proof.
  intros Hne. unfold replace_var.
  destruct (Z.eqb_spec x var) as [->|Hx].
  - destruct (Z.eqb_spec to var); [done|done].
  - destruct (Z.eqb_spec x var); done.
Qed.

Lemma assign_triplet_idem var to t :
  to ≠ var →
  assign_triplet var to (assign_triplet var to t) = assign_triplet var to t.
Proof.
  intros Hne. apply triplet_eq. intros j _.
  rewrite !tget_assign_triplet. by apply replace_var_idem.
Qed.

Lemma restore_triplet_idem var cst t :
  restore_triplet var cst (restore_triplet var cst t) =
  restore_triplet var cst t.
Proof.
  apply triplet_eq. intros j Hj. rewrite !tget_restore_triplet by done.
  unfold restore_var. rewrite tget_restore_triplet by done.
  unfold restore_var. destruct (tget cst j =? var); done.
Qed.

Lemma unassign_position_spec cst var i w wi j :
  w !! i = Some wi →
  unassign_position cst var i w j =
  Ok (<[i := if tget cst j =? var then tset wi j (tget cst j) else wi]> w).
Proof.
  intros Hwi. unfold unassign_position.
  destruct (_ =? _).
  - unfold vec_get. by rewrite Hwi.
  - by rewrite list_insert_id.
Qed.

Lemma unassign_positions_spec cst var i w wi :
  w !! i = Some wi →
  foldM (unassign_position cst var i) w positions =
  Ok (<[i := restore_triplet var cst wi]> w).
Proof.
  intros Hwi. pose proof (lookup_lt_Some _ _ _ Hwi) as Hlt.
  unfold positions. simpl.
  rewrite (unassign_position_spec _ _ _ _ wi) by done. simpl.
  erewrite unassign_position_spec
    by (by apply list_lookup_insert_eq). simpl.
  rewrite list_insert_insert_eq.
  erewrite unassign_position_spec
    by (by apply list_lookup_insert_eq). simpl.
  rewrite list_insert_insert_eq. do 2 f_equal.
  destruct wi as [[a b] c], cst as [[x y] z].
  unfold restore_triplet, restore_var. simpl.
  destruct (x =? var), (y =? var), (z =? var); reflexivity.
Qed.

(** *** Assign *)

Lemma static_index_lt s i l k :
  static_wf s → var_to_constraints_ s !! k = Some l → i ∈ l →
  (i < length (constraints_ s))%nat.
Proof.
  intros Hwf Hl Hi. apply (wf_v2c _ Hwf _ _ i Hl) in Hi as (c & Hc & _).
  by eapply lookup_lt_Some.
Qed.

Lemma take_assignment_positive lim s j :
  search_pre lim s → Z.of_nat j ≤ current_index_ s →
  ∀ a, a ∈ take j (assignment_ s) → 0 < a.
Proof.
  intros Hinv Hj a [k Hk]%list_elem_of_lookup.
  apply lookup_take_Some in Hk as [Hk Hlt].
  apply (inv_assigned _ _ Hinv k a); [lia|done].
Qed.

Lemma length_take_assignment lim s j :
  search_pre lim s → Z.of_nat j ≤ current_index_ s →
  length (take j (assignment_ s)) = j.
Proof.
  intros Hinv Hj. rewrite length_take.
  rewrite (wf_assignment_len _ (inv_static _ _ Hinv)).
  pose proof (inv_index _ _ Hinv). lia.
Qed.

Lemma Assign_spec lim s to :
  search_pre lim s → 0 ≤ current_index_ s →
  current_index_ s < Z.of_nat (n_variables_ s) → 0 < to →
  Assign to s =
  Ok (set_index
        (set_working
           (set_assignment s
              (<[Z.to_nat (current_index_ s) := to]> (assignment_ s)))
           (subst (take (Z.to_nat (current_index_ s)) (assignment_ s) ++ [to])
              <$> constraints_ s))
        (current_index_ s + 1)).
Proof.
  intros Hinv H0 Hn Hto. pose proof (inv_static _ _ Hinv) as Hwf.
  set (ci := Z.to_nat (current_index_ s)).
  assert (ci < n_variables_ s)%nat as Hci by lia.
  unfold Assign.
  destruct (lookup_lt_is_Some_2 (assignment_ s) ci) as [a0 Ha0];
    [by rewrite (wf_assignment_len _ Hwf)|].
  destruct (lookup_lt_is_Some_2 (var_to_constraints_ s) ci) as [l Hl];
    [by rewrite (wf_v2c_len _ Hwf)|].
  rewrite (proj2 (get_int_Ok _ _ a0)) by done. simpl.
  rewrite (proj2 (get_int_Ok _ _ l)) by done. simpl.
  assert (length (take ci (assignment_ s)) = ci) as Hlen
    by (eapply length_take_assignment; [done|lia]).
  rewrite (foldM_update _
             (fun _ => assign_triplet (CurrentVariable s) to) l).
  - simpl. do 3 f_equal.
    rewrite (inv_working _ _ Hinv). fold ci.
    apply list_eq. intros i. unfold update_listed.
    rewrite list_lookup_imap, !list_lookup_fmap.
    destruct (constraints_ s !! i) as [c|] eqn:Hc; simpl; [|done].
    f_equal. unfold CurrentVariable.
    replace (- current_index_ s)
      with (- Z.of_nat (length (take ci (assignment_ s)))) by lia.
    case_decide as Hin.
    + apply assign_subst. eapply take_assignment_positive; [done|lia].
    + symmetry. apply subst_snoc_other. rewrite Hlen. intros Hm.
      apply Hin. apply (wf_v2c _ Hwf _ _ i Hl). eauto.
  - intros w' i wi _ Hwi. unfold vec_get. by rewrite Hwi.
  - intros i Hi. rewrite (inv_working _ _ Hinv), length_fmap.
    by eapply static_index_lt.
  - intros _ x. apply assign_triplet_idem. unfold CurrentVariable. lia.
Qed.

(** *** UnAssign *)

Lemma UnAssign_spec lim s :
  search_pre lim s → 0 ≤ current_index_ s →
  UnAssign s =
  Ok (set_working (set_index s (current_index_ s - 1))
        (subst (take (Z.to_nat (current_index_ s - 1)) (assignment_ s))
           <$> constraints_ s)).
Proof.
  intros Hinv H0. pose proof (inv_static _ _ Hinv) as Hwf.
  pose proof (inv_index _ _ Hinv) as Hidx.
  unfold UnAssign. simpl.
  destruct (Z.ltb_spec (current_index_ s - 1) 0) as [Hneg|Hpos].
  - f_equal. replace (Z.to_nat (current_index_ s - 1)) with 0%nat by lia.
    replace 0%nat with (Z.to_nat (current_index_ s)) at 1 by lia.
    rewrite <- (inv_working _ _ Hinv).
    destruct s; reflexivity.
  - set (cj := Z.to_nat (current_index_ s - 1)).
    assert (cj < n_variables_ s)%nat as Hcj by lia.
    destruct (lookup_lt_is_Some_2 (var_to_constraints_ s) cj) as [l Hl];
      [by rewrite (wf_v2c_len _ Hwf)|].
    destruct (lookup_lt_is_Some_2 (assignment_ s) cj) as [a Ha];
      [by rewrite (wf_assignment_len _ Hwf)|].
    rewrite (proj2 (at_int_Ok _ _ l)) by done. simpl.
    rewrite (foldM_update _
               (fun i wi =>
                  match constraints_ s !! i with
                  | Some cst =>
                      restore_triplet (- (current_index_ s - 1)) cst wi
                  | None => wi
                  end) l).
    + simpl. do 2 f_equal.
      rewrite (inv_working _ _ Hinv).
      replace (Z.to_nat (current_index_ s)) with (S cj) by lia.
      rewrite (take_S_r _ _ _ Ha).
      assert (length (take cj (assignment_ s)) = cj) as Hlen
        by (eapply length_take_assignment; [done|lia]).
      apply list_eq. intros i. unfold update_listed.
      rewrite list_lookup_imap, !list_lookup_fmap.
      destruct (constraints_ s !! i) as [c|] eqn:Hc; simpl; [|done].
      f_equal.
      replace (- (current_index_ s - 1))
        with (- Z.of_nat (length (take cj (assignment_ s)))) by lia.
      case_decide as Hin.
      * apply restore_subst.
      * apply subst_snoc_other. rewrite Hlen. intros Hm.
        apply Hin. apply (wf_v2c _ Hwf _ _ i Hl). eauto.
    + intros w' i wi Hi Hwi. unfold CurrentVariable. simpl.
      destruct (lookup_lt_is_Some_2 (constraints_ s) i) as [cst Hcst];
        [by eapply static_index_lt|].
      unfold vec_get at 1. rewrite Hcst. simpl.
      by apply unassign_positions_spec.
    + intros i Hi. rewrite (inv_working _ _ Hinv), length_fmap.
      by eapply static_index_lt.
    + intros i x. destruct (constraints_ s !! i); [|done].
      apply restore_triplet_idem.
Qed.

(** *** GetOptions *)

Lemma inequality_loop_nil a m idx o :
  inequality_loop a m idx [] = Ok o → o = [].
Proof.
  intros H. destruct o as [|v o]; [done|].
  apply inequality_loop_spec with (v := v) in H.
  assert (v ∈ v :: o) as Hv by constructor.
  apply H in Hv as [Hv _]. by apply elem_of_nil in Hv.
Qed.

Section DomainFacts.
Variables (st : Structure) (cons : list Triplet)
          (v2c : list (list nat)) (me : list (gset nat)).

Lemma domain_Ok P o :
  domain st cons v2c me P = Ok o ↔
  ∃ l o1 m,
    v2c !! length P = Some l ∧
    options_loop st (subst P <$> cons) (- Z.of_nat (length P)) l false []
      = Ok o1 ∧
    me !! length P = Some m ∧
    inequality_loop P m (seq 0 (length P)) o1 = Ok o.
Proof.
  unfold domain. rewrite bind_Ok. split.
  - intros (l & Hl%vec_at_Ok & (o1 & Ho1 & (m & Hm%vec_get_Ok & H)%bind_Ok)
              %bind_Ok).
    eauto 8.
  - intros (l & o1 & m & Hl & Ho1 & Hm & H). exists l.
    split; [by apply vec_at_Ok|]. rewrite Ho1. simpl.
    rewrite (proj2 (vec_get_Ok _ _ m)) by done. done.
Qed.

Lemma domain_sorted P o : domain st cons v2c me P = Ok o → sorted o.
Proof.
  intros (l & o1 & m & _ & Ho1 & _ & H)%domain_Ok.
  eapply inequality_loop_sorted; [|done].
  eapply options_loop_sorted; [|done]. apply sorted_nil.
Qed.

Lemma domain_positive P o v :
  domain st cons v2c me P = Ok o → v ∈ o → 0 < v.
Proof.
  intros (l & o1 & m & _ & Ho1 & _ & H)%domain_Ok Hv.
  apply inequality_loop_spec with (v := v) in H. apply H in Hv as [Hv _].
  eapply options_loop_positive; [done|by right|done].
Qed.

Lemma domain_unconstrained P o :
  v2c !! length P = Some [] → domain st cons v2c me P = Ok o → o = [].
Proof.
  intros Hl (l & o1 & m & Hl' & Ho1 & _ & H)%domain_Ok.
  rewrite Hl in Hl'. injection Hl' as <-. simpl in Ho1.
  injection Ho1 as <-. by eapply inequality_loop_nil.
Qed.

Lemma domain_total P l :
  v2c !! length P = Some l →
  (∀ i, i ∈ l → (i < length cons)%nat) →
  (length P < length me)%nat →
  ∃ o, domain st cons v2c me P = Ok o.
Proof.
  intros Hl Hin Hme.
  destruct (options_loop_total st (subst P <$> cons)
              (- Z.of_nat (length P)) l false []) as [o1 Ho1].
  { intros i Hi. rewrite length_fmap. auto. }
  destruct (lookup_lt_is_Some_2 me _ Hme) as [m Hm].
  destruct (inequality_loop_total P m (seq 0 (length P)) o1) as [o Ho].
  { intros i Hi%elem_of_seq. lia. }
  exists o. apply domain_Ok. eauto 8.
Qed.

(** Membership in a domain. *)
Lemma elem_of_domain P o v :
  domain st cons v2c me P = Ok o →
  v ∈ o ↔
  ∃ l m, v2c !! length P = Some l ∧ me !! length P = Some m ∧
    l ≠ [] ∧
    in_all st (subst P <$> cons) (- Z.of_nat (length P)) l v ∧
    ∀ i a, (i < length P)%nat → i ∉ m → P !! i = Some a → a ≠ v.
Proof.
  intros (l & o1 & m & Hl & Ho1 & Hm & H)%domain_Ok.
  rewrite (inequality_loop_spec _ _ _ _ _ v H).
  assert (v ∈ o1 ↔
          l ≠ [] ∧ in_all st (subst P <$> cons)
                     (- Z.of_nat (length P)) l v) as ->.
  { destruct l as [|i l].
    - simpl in Ho1. injection Ho1 as <-. split.
      + by intros ?%elem_of_nil.
      + by intros [? _].
    - rewrite (options_loop_uninitialized _ _ _ _ _ _ _ v Ho1).
      split; [by intros ?|by intros [_ ?]]. }
  split.
  - intros [[Hne Hall] Hineq]. exists l, m. repeat split; try done.
    intros i a Hi Him Ha ->. eapply Hineq; [|done|done].
    apply elem_of_seq. lia.
  - intros (l' & m' & Hl' & Hm' & Hne & Hall & Hineq).
    rewrite Hl in Hl'. rewrite Hm in Hm'. simplify_eq.
    split; [done|]. intros i Hi%elem_of_seq Him Ha.
    apply (Hineq i v); [lia|done..].
Qed.
End DomainFacts.

Lemma GetOptions_spec s :
  search_pre (current_index_ s) s → 0 ≤ current_index_ s →
  current_index_ s < Z.of_nat (n_variables_ s) →
  GetOptions s =
  do o <- domain (structure_ s) (constraints_ s) (var_to_constraints_ s)
            (may_equal_ s)
            (take (Z.to_nat (current_index_ s)) (assignment_ s));
  Ok (set_states s
        (<[Z.to_nat (current_index_ s) := mkState o 0]> (states_ s))).
Proof.
  intros Hinv H0 Hn. pose proof (inv_static _ _ Hinv) as Hwf.
  set (ci := Z.to_nat (current_index_ s)).
  assert (ci < n_variables_ s)%nat as Hci by lia.
  assert (length (take ci (assignment_ s)) = ci) as Hlen
    by (eapply length_take_assignment; [done|lia]).
  unfold GetOptions, domain.
  destruct (Z.leb_spec (Z.of_nat (n_variables_ s)) (current_index_ s));
    [lia|].
  destruct (Z.ltb_spec (current_index_ s) 0); [lia|]. simpl.
  destruct (lookup_lt_is_Some_2 (states_ s) ci) as [state Hstate];
    [by rewrite (wf_states_len _ Hwf)|].
  destruct (lookup_lt_is_Some_2 (var_to_constraints_ s) ci) as [l Hl];
    [by rewrite (wf_v2c_len _ Hwf)|].
  rewrite (proj2 (at_int_Ok _ _ state)) by done. simpl.
  rewrite (proj2 (at_int_Ok _ _ l)) by done. simpl.
  rewrite Hlen. rewrite (proj2 (vec_at_Ok _ _ l)) by done. simpl.
  rewrite (inv_working _ _ Hinv). fold ci.
  unfold CurrentVariable. replace (- current_index_ s) with (- Z.of_nat ci)
    by lia.
  rewrite (options_loop_stale _ _ _ l (options state)).
  2:{ destruct l as [|i l]; [right|by left].
      by apply (inv_stale _ _ Hinv ci). }
  destruct (options_loop _ _ _ l false []) as [o1|]; simpl; [|done].
  unfold get_int. destruct (Z.ltb_spec (current_index_ s) 0); [lia|].
  fold ci. destruct (vec_get (may_equal_ s) ci) as [m|]; simpl; [|done].
  rewrite (inequality_loop_ext (assignment_ s) (take ci (assignment_ s))
             m m (seq 0 ci) o1); [done| |done].
  intros i Hi%elem_of_seq. symmetry. apply lookup_take_lt. lia.
Qed.

End Operations.

(** * One round of the loop of [NextAssignment] *)

Section Step.

Lemma bind_ext_in {A B} (f g : A → list B) (l : list A) :
  (∀ x, x ∈ l → f x = g x) → l ≫= f = l ≫= g.
Proof.
  induction l as [|x l IH]; intros H; [done|].
  rewrite !bind_cons, (H x) by constructor. f_equal.
  apply IH. intros y Hy. apply H. by constructor.
Qed.

Lemma fmap_ext_in {A B} (f g : A → B) (l : list A) :
  (∀ x, x ∈ l → f x = g x) → f <$> l = g <$> l.
Proof.
  induction l as [|x l IH]; intros H; [done|].
  rewrite !fmap_cons, (H x) by constructor. f_equal.
  apply IH. intros y Hy. apply H. by constructor.
Qed.

Lemma same_instance_refl s : same_instance s s.
Proof. by repeat split. Qed.

Lemma same_instance_trans s1 s2 s3 :
  same_instance s1 s2 → same_instance s2 s3 → same_instance s1 s3.
Proof.
  unfold same_instance. intros (?&?&?&?&?) (?&?&?&?&?).
  repeat split; congruence.
Qed.

Lemma level_rem_ext s s' j :
  same_instance s s' → states_ s' !! j = states_ s !! j →
  take j (assignment_ s') = take j (assignment_ s) →
  level_rem s' j = level_rem s j.
Proof.
  intros (Hst & Hn & Hc & Hv & Hm) Hj Ht. unfold level_rem, pending.
  by rewrite Hst, Hn, Hc, Hv, Hm, Hj, Ht.
Qed.

Lemma level_cost_ext s s' j :
  same_instance s s' → states_ s' !! j = states_ s !! j →
  take j (assignment_ s') = take j (assignment_ s) →
  level_cost s' j = level_cost s j.
Proof.
  intros (Hst & Hn & Hc & Hv & Hm) Hj Ht. unfold level_cost, pending.
  by rewrite Hst, Hn, Hc, Hv, Hm, Hj, Ht.
Qed.

Lemma remaining_split s k :
  current_index_ s + 1 = Z.of_nat (S k) →
  remaining s = level_rem s k ++ (reverse (seq 0 k) ≫= level_rem s).
Proof.
  intros Hk. unfold remaining, active_levels. rewrite Hk, Nat2Z.id.
  rewrite seq_S, reverse_snoc. reflexivity.
Qed.

Lemma rounds_split s k :
  current_index_ s + 1 = Z.of_nat (S k) →
  rounds s = (sum_list (level_cost s <$> seq 0 k) + level_cost s k)%nat.
Proof.
  intros Hk. unfold rounds, active_levels. rewrite Hk, Nat2Z.id.
  rewrite seq_S, fmap_app, sum_list_with_app. cbn -[level_cost]. lia.
Qed.

Lemma remaining_below s k :
  current_index_ s + 1 = Z.of_nat k →
  remaining s = reverse (seq 0 k) ≫= level_rem s.
Proof.
  intros Hk. unfold remaining, active_levels. by rewrite Hk, Nat2Z.id.
Qed.

Lemma rounds_below s k :
  current_index_ s + 1 = Z.of_nat k →
  rounds s = sum_list (level_cost s <$> seq 0 k).
Proof.
  intros Hk. unfold rounds, active_levels. by rewrite Hk, Nat2Z.id.
Qed.

(** Levels below [k] agree when the states and prefixes below [k] do. *)
Lemma lower_levels_ext s s' k :
  same_instance s s' →
  (∀ j, (j < k)%nat → states_ s' !! j = states_ s !! j) →
  take k (assignment_ s') = take k (assignment_ s) →
  reverse (seq 0 k) ≫= level_rem s' = reverse (seq 0 k) ≫= level_rem s ∧
  sum_list (level_cost s' <$> seq 0 k) = sum_list (level_cost s <$> seq 0 k).
Proof.
  intros Hsame Hst Ht.
  assert (∀ j, (j < k)%nat →
            take j (assignment_ s') = take j (assignment_ s)) as Htj.
  { intros j Hj.
    replace j with (j `min` k)%nat by lia.
    by rewrite <- !take_take, Ht. }
  split.
  - apply bind_ext_in. intros j Hj%elem_of_reverse%elem_of_seq.
    apply level_rem_ext; [done|apply Hst; lia|apply Htj; lia].
  - f_equal. apply fmap_ext_in. intros j Hj%elem_of_seq.
    apply level_cost_ext; [done|apply Hst; lia|apply Htj; lia].
Qed.

Lemma backtracked_inv lim s :
  search_pre lim s → current_index_ s ≤ lim → 0 ≤ current_index_ s →
  search_inv (backtracked s).
Proof.
  intros Hinv Hlim H0. destruct Hinv as [Hwf Hidx Hw Ha Hopt Hstale].
  split; [|simpl; lia]. split; simpl.
  - destruct Hwf. by split.
  - lia.
  - done.
  - intros j a Hj. apply Ha. lia.
  - intros j stj Hj. apply Hopt. lia.
  - done.
Qed.

Lemma backtracked_same s : same_instance s (backtracked s).
Proof. by repeat split. Qed.

Lemma advanced_same s state to : same_instance s (advanced s state to).
Proof. by repeat split. Qed.

Lemma entered_same s o : same_instance s (entered s o).
Proof. by repeat split. Qed.

Lemma current_state s :
  search_inv s → 0 ≤ current_index_ s →
  ∃ state, states_ s !! Z.to_nat (current_index_ s) = Some state ∧
    domain (structure_ s) (constraints_ s) (var_to_constraints_ s)
      (may_equal_ s)
      (take (Z.to_nat (current_index_ s)) (assignment_ s))
    = Ok (options state) ∧
    (options_it state ≤ length (options state))%nat.
Proof.
  intros [Hinv Hn] H0.
  destruct (lookup_lt_is_Some_2 (states_ s) (Z.to_nat (current_index_ s)))
    as [state Hstate].
  { rewrite (wf_states_len _ (inv_static _ _ Hinv)). lia. }
  exists state. split; [done|].
  apply (inv_options _ _ Hinv); [lia|done].
Qed.

Lemma advanced_pre s state to :
  search_inv s → 0 ≤ current_index_ s →
  states_ s !! Z.to_nat (current_index_ s) = Some state →
  options state !! options_it state = Some to →
  search_pre (current_index_ s + 1) (advanced s state to).
Proof.
  intros [Hinv Hn] H0 Hstate Hto.
  destruct Hinv as [Hwf Hidx Hw Ha Hopt Hstale].
  set (ci := Z.to_nat (current_index_ s)) in *.
  assert (ci < length (assignment_ s))%nat as Hci
    by (rewrite (wf_assignment_len _ Hwf); lia).
  destruct (Hopt ci state) as [Hdom Hit]; [lia|done|].
  assert (0 < to) as Hpos.
  { eapply domain_positive; [exact Hdom|]. by eapply list_elem_of_lookup_2. }
  split; simpl.
  - destruct Hwf. split; simpl; try done. by rewrite length_insert.
    by rewrite length_insert.
  - lia.
  - replace (Z.to_nat (current_index_ s + 1)) with (S ci) by lia.
    rewrite (take_S_r _ _ to) by (by apply list_lookup_insert_eq).
    by rewrite take_insert_ge.
  - intros j a Hj. destruct (decide (j = ci)) as [->|Hne].
    + rewrite list_lookup_insert_eq by done. by intros [= <-].
    + rewrite list_lookup_insert_ne by done. apply Ha. lia.
  - intros j stj Hj. rewrite take_insert_ge by lia.
    destruct (decide (j = ci)) as [->|Hne].
    + rewrite list_lookup_insert_eq
        by (rewrite (wf_states_len _ Hwf); lia).
      intros [= <-]. simpl. split; [done|].
      by apply lookup_lt_Some in Hto.
    + rewrite list_lookup_insert_ne by done. apply Hopt. lia.
  - intros j stj. destruct (decide (j = ci)) as [->|Hne].
    + rewrite list_lookup_insert_eq
        by (rewrite (wf_states_len _ Hwf); lia).
      intros [= <-]. simpl. by apply Hstale.
    + rewrite list_lookup_insert_ne by done. apply Hstale.
Qed.

Lemma entered_inv s o :
  search_pre (current_index_ s) s → 0 ≤ current_index_ s →
  current_index_ s < Z.of_nat (n_variables_ s) →
  domain (structure_ s) (constraints_ s) (var_to_constraints_ s)
    (may_equal_ s) (take (Z.to_nat (current_index_ s)) (assignment_ s))
  = Ok o →
  search_inv (entered s o).
Proof.
  intros Hinv H0 Hn Hdom.
  assert (length (take (Z.to_nat (current_index_ s)) (assignment_ s))
          = Z.to_nat (current_index_ s)) as Hlen
    by (eapply length_take_assignment; [done|lia]).
  destruct Hinv as [Hwf Hidx Hw Ha Hopt Hstale].
  set (ci := Z.to_nat (current_index_ s)) in *.
  split; [|done]. split; simpl; try done.
  - destruct Hwf. split; simpl; try done. by rewrite length_insert.
  - intros j stj Hj. destruct (decide (j = ci)) as [->|Hne].
    + rewrite list_lookup_insert_eq
        by (rewrite (wf_states_len _ Hwf); lia).
      intros [= <-]. simpl. split; [done|lia].
    + rewrite list_lookup_insert_ne by done. apply Hopt. lia.
  - intros j stj. destruct (decide (j = ci)) as [->|Hne].
    + rewrite list_lookup_insert_eq
        by (rewrite (wf_states_len _ Hwf); lia).
      intros [= <-] Hl. simpl.
      eapply domain_unconstrained; [|exact Hdom]. by rewrite Hlen.
    + rewrite list_lookup_insert_ne by done. apply Hstale.
Qed.

(** *** The three kinds of round *)

Lemma loop_body_backtrack s state :
  search_inv s → 0 ≤ current_index_ s →
  states_ s !! Z.to_nat (current_index_ s) = Some state →
  options_it state = length (options state) →
  loop_body s = Ok (Continue (backtracked s)).
Proof.
  intros [Hinv Hn] H0 Hstate Hend. unfold loop_body.
  rewrite (proj2 (get_int_Ok _ _ state)) by done. simpl.
  rewrite Hend, Nat.eqb_refl.
  by rewrite (UnAssign_spec _ _ Hinv H0).
Qed.

Lemma loop_body_advance s state to :
  search_inv s → 0 ≤ current_index_ s →
  states_ s !! Z.to_nat (current_index_ s) = Some state →
  options state !! options_it state = Some to →
  loop_body s =
  if current_index_ s + 1 =? Z.of_nat (n_variables_ s) then
    do s3 <- UnAssign (advanced s state to);
    Ok (Return (<[Z.to_nat (current_index_ s) := to]> (assignment_ s)) s3)
  else
    do s3 <- GetOptions (advanced s state to); Ok (Continue s3).
Proof.
  intros Hsinv H0 Hstate Hto. pose proof Hsinv as [Hinv Hn].
  destruct (current_state s Hsinv H0) as (state' & Hstate' & Hdom & _).
  rewrite Hstate in Hstate'. injection Hstate' as <-.
  assert (0 < to) as Hpos.
  { eapply domain_positive; [exact Hdom|]. by eapply list_elem_of_lookup_2. }
  unfold loop_body.
  rewrite (proj2 (get_int_Ok _ _ state)) by done. simpl.
  pose proof (lookup_lt_Some _ _ _ Hto) as Hlt.
  destruct (Nat.eqb_spec (options_it state) (length (options state)));
    [lia|].
  rewrite (proj2 (vec_get_Ok _ _ to)) by done. simpl.
  rewrite (Assign_spec _ _ _ Hinv H0 Hn Hpos). simpl.
  reflexivity.
Qed.

Lemma loop_body_return s state to :
  search_inv s → 0 ≤ current_index_ s →
  states_ s !! Z.to_nat (current_index_ s) = Some state →
  options state !! options_it state = Some to →
  current_index_ s + 1 = Z.of_nat (n_variables_ s) →
  loop_body s =
  Ok (Return (<[Z.to_nat (current_index_ s) := to]> (assignment_ s))
        (backtracked (advanced s state to))).
Proof.
  intros Hsinv H0 Hstate Hto Hlast.
  rewrite (loop_body_advance s state to) by done.
  rewrite Hlast, Z.eqb_refl.
  pose proof (advanced_pre s state to Hsinv H0 Hstate Hto) as Hpre.
  rewrite (UnAssign_spec _ _ Hpre) by (simpl; lia). reflexivity.
Qed.

Lemma loop_body_descend s state to :
  search_inv s → 0 ≤ current_index_ s →
  states_ s !! Z.to_nat (current_index_ s) = Some state →
  options state !! options_it state = Some to →
  current_index_ s + 1 < Z.of_nat (n_variables_ s) →
  loop_body s =
  do o <- domain (structure_ s) (constraints_ s) (var_to_constraints_ s)
            (may_equal_ s)
            (take (Z.to_nat (current_index_ s)) (assignment_ s) ++ [to]);
  Ok (Continue (entered (advanced s state to) o)).
Proof.
  intros Hsinv H0 Hstate Hto Hlast. pose proof Hsinv as [Hinv Hn].
  rewrite (loop_body_advance s state to) by done.
  destruct (Z.eqb_spec (current_index_ s + 1) (Z.of_nat (n_variables_ s)));
    [lia|].
  pose proof (advanced_pre s state to Hsinv H0 Hstate Hto) as Hpre.
  rewrite (GetOptions_spec (advanced s state to))
    by (done || simpl; lia).
  simpl.
  replace (Z.to_nat (current_index_ s + 1))
    with (S (Z.to_nat (current_index_ s))) by lia.
  rewrite (take_S_r _ _ to).
  2:{ apply list_lookup_insert_eq.
      rewrite (wf_assignment_len _ (inv_static _ _ Hinv)). lia. }
  rewrite take_insert_ge by lia.
  destruct (domain _ _ _ _ _) as [o|]; simpl; [|done].
  do 2 f_equal. unfold entered. simpl.
  by replace (Z.to_nat (current_index_ s + 1))
    with (S (Z.to_nat (current_index_ s))) by lia.
Qed.

(** *** What is left to enumerate after each kind of round *)

Lemma backtrack_accounting s state :
  search_inv s → 0 ≤ current_index_ s →
  states_ s !! Z.to_nat (current_index_ s) = Some state →
  options_it state = length (options state) →
  remaining (backtracked s) = remaining s ∧
  rounds s = S (rounds (backtracked s)).
Proof.
  intros Hsinv H0 Hstate Hend.
  set (ci := Z.to_nat (current_index_ s)) in *.
  rewrite (remaining_split s ci), (rounds_split s ci) by lia.
  rewrite (remaining_below (backtracked s) ci),
    (rounds_below (backtracked s) ci) by (simpl; lia).
  destruct (lower_levels_ext s (backtracked s) ci) as [-> ->];
    [apply backtracked_same|done|done|].
  unfold level_rem, level_cost, pending. rewrite Hstate, Hend, drop_all.
  simpl. split; [done|lia].
Qed.

Lemma sum_list_cons x l : sum_list (x :: l) = (x + sum_list l)%nat.
Proof. reflexivity. Qed.

Lemma sols_succ st cons v2c me d d' P o :
  d = S d' → domain st cons v2c me P = Ok o →
  sols st cons v2c me d P =
  o ≫= (fun v => sols st cons v2c me d' (P ++ [v])).
Proof. intros -> Hdom. simpl. unfold dom. by rewrite Hdom. Qed.

Lemma cost_succ st cons v2c me d d' P o :
  d = S d' → domain st cons v2c me P = Ok o →
  cost st cons v2c me d P =
  S (sum_list ((fun v => S (cost st cons v2c me d' (P ++ [v]))) <$> o)).
Proof. intros -> Hdom. simpl. unfold dom. by rewrite Hdom. Qed.

Lemma insert_last {A} (l : list A) i x :
  length l = S i → <[i := x]> l = take i l ++ [x].
Proof.
  intros Hlen. rewrite <- (take_drop i l) at 1.
  rewrite insert_app_r_alt by (rewrite length_take; lia).
  rewrite length_take, Nat.min_l, Nat.sub_diag by lia.
  f_equal. destruct (drop i l) as [|y [|z k]] eqn:Hd.
  - apply (f_equal length) in Hd. rewrite length_drop in Hd. simpl in Hd. lia.
  - done.
  - apply (f_equal length) in Hd. rewrite length_drop in Hd. simpl in Hd. lia.
Qed.

Lemma return_accounting s state to :
  search_inv s → 0 ≤ current_index_ s →
  states_ s !! Z.to_nat (current_index_ s) = Some state →
  options state !! options_it state = Some to →
  current_index_ s + 1 = Z.of_nat (n_variables_ s) →
  search_inv (backtracked (advanced s state to)) ∧
  remaining s =
    <[Z.to_nat (current_index_ s) := to]> (assignment_ s)
      :: remaining (backtracked (advanced s state to)) ∧
  rounds s = S (rounds (backtracked (advanced s state to))).
Proof.
  intros Hsinv H0 Hstate Hto Hlast. pose proof Hsinv as [Hinv Hn].
  pose proof (inv_static _ _ Hinv) as Hwf.
  pose proof (advanced_pre s state to Hsinv H0 Hstate Hto) as Hpre.
  set (s3 := backtracked (advanced s state to)).
  set (ci := Z.to_nat (current_index_ s)) in *.
  assert (search_inv s3) as Hinv3.
  { eapply backtracked_inv; [exact Hpre|simpl; lia..]. }
  split; [done|].
  rewrite (remaining_split s ci), (rounds_split s ci) by lia.
  rewrite (remaining_split s3 ci), (rounds_split s3 ci) by (simpl; lia).
  destruct (lower_levels_ext s s3 ci) as [-> ->].
  { eapply same_instance_trans;
      [apply advanced_same|apply backtracked_same]. }
  { intros j Hj. simpl. by rewrite list_lookup_insert_ne by lia. }
  { simpl. by rewrite take_insert_ge. }
  unfold level_rem, level_cost, pending. simpl. fold ci.
  rewrite list_lookup_insert_eq by (rewrite (wf_states_len _ Hwf); lia).
  rewrite Hstate. simpl. rewrite take_insert_ge by done.
  rewrite (drop_S _ _ _ Hto).
  replace (n_variables_ s - S ci)%nat with 0%nat by lia.
  rewrite bind_cons, fmap_cons. simpl.
  rewrite (insert_last (assignment_ s) ci to)
    by (rewrite (wf_assignment_len _ Hwf); lia).
  split; [done|lia].
Qed.

Lemma descend_accounting s state to o :
  search_inv s → 0 ≤ current_index_ s →
  states_ s !! Z.to_nat (current_index_ s) = Some state →
  options state !! options_it state = Some to →
  current_index_ s + 1 < Z.of_nat (n_variables_ s) →
  domain (structure_ s) (constraints_ s) (var_to_constraints_ s)
    (may_equal_ s)
    (take (Z.to_nat (current_index_ s)) (assignment_ s) ++ [to]) = Ok o →
  search_inv (entered (advanced s state to) o) ∧
  remaining (entered (advanced s state to) o) = remaining s ∧
  rounds s = S (rounds (entered (advanced s state to) o)).
Proof.
  intros Hsinv H0 Hstate Hto Hlast Hdom. pose proof Hsinv as [Hinv Hn].
  pose proof (inv_static _ _ Hinv) as Hwf.
  pose proof (advanced_pre s state to Hsinv H0 Hstate Hto) as Hpre.
  set (s3 := entered (advanced s state to) o).
  set (ci := Z.to_nat (current_index_ s)) in *.
  assert (take (S ci) (<[ci := to]> (assignment_ s))
          = take ci (assignment_ s) ++ [to]) as Htake.
  { rewrite (take_S_r _ _ to).
    - by rewrite take_insert_ge.
    - apply list_lookup_insert_eq.
      rewrite (wf_assignment_len _ Hwf). lia. }
  assert (search_inv s3) as Hinv3.
  { apply entered_inv; simpl; try lia; [done|].
    replace (Z.to_nat (current_index_ s + 1)) with (S ci) by lia.
    fold ci. by rewrite Htake. }
  split; [done|].
  rewrite (remaining_split s ci), (rounds_split s ci) by lia.
  rewrite (remaining_split s3 (S ci)), (rounds_split s3 (S ci))
    by (simpl; lia).
  rewrite seq_S, reverse_snoc, fmap_app, sum_list_with_app.
  rewrite bind_cons. cbn [fmap list_fmap sum_list_with].
  change (0 + ci)%nat with ci.
  destruct (lower_levels_ext s s3 ci) as [-> ->].
  { eapply same_instance_trans; [apply advanced_same|apply entered_same]. }
  { intros j Hj. simpl.
    replace (Z.to_nat (current_index_ s + 1)) with (S ci) by lia.
    by rewrite !list_lookup_insert_ne by lia. }
  { simpl. by rewrite take_insert_ge. }
  unfold level_rem, level_cost, pending. simpl. fold ci.
  replace (Z.to_nat (current_index_ s + 1)) with (S ci) by lia.
  rewrite list_lookup_insert_eq
    by (rewrite length_insert, (wf_states_len _ Hwf); lia).
  rewrite list_lookup_insert_ne by lia.
  rewrite list_lookup_insert_eq by (rewrite (wf_states_len _ Hwf); lia).
  rewrite Hstate. simpl. rewrite Htake, take_insert_ge by done.
  rewrite (drop_S _ _ _ Hto). rewrite bind_cons, fmap_cons.
  rewrite sum_list_cons.
  assert (n_variables_ s - S ci = S (n_variables_ s - S (S ci)))%nat
    as Hd by lia.
  rewrite (sols_succ _ _ _ _ _ _ _ o Hd Hdom).
  rewrite (cost_succ _ _ _ _ _ _ _ o Hd Hdom).
  change (drop 0 o) with o.
  split; [by rewrite app_assoc|]. lia.
Qed.

End Step.

(** * The constructor and the loop of [NextAssignment] *)

Section Loop.

Lemma Solver_new_Ok st n cs me s0 :
  Solver_new st n cs me = Ok s0 →
  ∃ v2c kept valid,
    (0 < n)%nat ∧
    register_constraints st cs (replicate n []) [] = Ok (v2c, kept, valid) ∧
    if valid then GetOptions (initial st n kept v2c me) = Ok s0
    else s0 = mkSolver st n false kept [] v2c me (replicate n 0)
                (replicate n new_State) 0.
Proof.
  unfold Solver_new. destruct (Nat.eqb_spec n 0); [done|].
  intros ([[v2c kept] valid] & Hreg & H)%bind_Ok. simpl in H.
  exists v2c, kept, valid. split; [lia|]. split; [done|].
  destruct valid; [done|]. by injection H as <-.
Qed.

Lemma registered_initial n : registered n (replicate n []) [].
Proof.
  split; [apply length_replicate|]. split; [|split].
  - intros k l i [-> _]%lookup_replicate. split.
    + by intros ?%elem_of_nil.
    + by intros (c & ? & _).
  - intros c j Hc. by apply elem_of_nil in Hc.
  - intros c Hc. by apply elem_of_nil in Hc.
Qed.

Lemma initial_pre st n kept v2c me :
  (0 < n)%nat → registered n v2c kept →
  search_pre 0 (initial st n kept v2c me).
Proof.
  intros Hn (Hlen & Hv2c & Hvars & Hparam). split; simpl.
  - split; simpl; try done; apply length_replicate.
  - lia.
  - by rewrite subst_nil_fmap.
  - intros j a Hj. lia.
  - intros j stj Hj. lia.
  - intros j stj [-> _]%lookup_replicate. done.
Qed.

(** What a successfully constructed solver looks like. *)
Lemma Solver_new_inv st n cs me s0 :
  Solver_new st n cs me = Ok s0 →
  structure_ s0 = st ∧ n_variables_ s0 = n ∧ may_equal_ s0 = me ∧
  (0 < n)%nat ∧
  (valid_ s0 = true →
     search_inv s0 ∧ current_index_ s0 = 0 ∧
     remaining s0 = solutions s0 ∧
     (∀ c, c ∈ constraints_ s0 ↔ c ∈ cs ∧ has_variable c) ∧
     (∀ c, c ∈ cs → ¬ has_variable c → IsTrue st c = true)) ∧
  (valid_ s0 = false →
     (∃ c, c ∈ cs ∧ ¬ has_variable c ∧ IsTrue st c = false) ∧
     states_ s0 = replicate n new_State).
Proof.
  intros (v2c & kept & valid & Hn & Hreg & H)%Solver_new_Ok.
  apply (register_constraints_spec st n) in Hreg
    as (Hreg & Hvalid & Hinvalid); [|apply registered_initial].
  destruct valid.
  - pose proof (initial_pre st n kept v2c me Hn Hreg) as Hpre.
    rewrite (GetOptions_spec (initial st n kept v2c me)) in H
      by (done || simpl; lia).
    apply bind_Ok in H as (o & Hdom & [= <-]). simpl in Hdom.
    do 4 (split; [done|]). split; [|done].
    intros _. split; [|split; [done|split]].
    + by apply entered_inv; [done|simpl; lia..|].
    + rewrite (remaining_split _ 0) by done.
      unfold level_rem, pending, solutions. simpl.
      rewrite app_nil_r.
      rewrite (sols_succ _ _ _ _ n (n - 1) [] o) by (done || lia).
      change (Z.to_nat 0) with 0%nat.
      rewrite list_lookup_insert_eq by (rewrite length_replicate; lia).
      done.
    + destruct (Hvalid eq_refl) as [Hk Hg]. split; [|done].
      intros c. rewrite Hk. simpl. split.
      * intros [?%elem_of_nil|?]; done.
      * auto.
  - subst s0. do 4 (split; [done|]). split; [done|].
    intros _. split; [by apply Hinvalid|done].
Qed.

Lemma loop_body_step s r :
  search_inv s → 0 ≤ current_index_ s → loop_body s = Ok r →
  same_instance s (iteration_state r) ∧
  valid_ (iteration_state r) = valid_ s ∧
  search_inv (iteration_state r) ∧
  rounds s = S (rounds (iteration_state r)) ∧
  match r with
  | Continue s' => remaining s' = remaining s
  | Return A s' => remaining s = A :: remaining s' ∧ A ≠ []
  end.
Proof.
  intros Hsinv H0 Hbody. pose proof Hsinv as [Hinv Hn].
  destruct (current_state s Hsinv H0) as (state & Hstate & Hdom & Hit).
  destruct (decide (options_it state = length (options state)))
    as [Hend|Hmore].
  - rewrite (loop_body_backtrack s state) in Hbody by done.
    injection Hbody as <-. simpl.
    destruct (backtrack_accounting s state) as [Hrem Hrounds]; try done.
    split; [apply backtracked_same|]. split; [done|].
    split; [by eapply backtracked_inv; [exact Hinv|lia..]|]. done.
  - destruct (lookup_lt_is_Some_2 (options state) (options_it state))
      as [to Hto]; [lia|].
    destruct (decide (current_index_ s + 1 = Z.of_nat (n_variables_ s)))
      as [Hlast|Hdeeper].
    + rewrite (loop_body_return s state to) in Hbody by done.
      injection Hbody as <-. simpl.
      destruct (return_accounting s state to) as (? & ? & ?); try done.
      split.
      { eapply same_instance_trans;
          [apply advanced_same|apply backtracked_same]. }
      do 4 (split; [done|]).
      intros Hnil. apply (f_equal length) in Hnil.
      rewrite length_insert in Hnil. simpl in Hnil.
      rewrite (wf_assignment_len _ (inv_static _ _ Hinv)) in Hnil. lia.
    + rewrite (loop_body_descend s state to) in Hbody by (done || lia).
      apply bind_Ok in Hbody as (o & Hdom' & [= <-]). simpl.
      destruct (descend_accounting s state to o) as (? & ? & ?);
        try done; try lia.
Qed.

Lemma loop_body_total s :
  search_inv s → 0 ≤ current_index_ s →
  (n_variables_ s ≤ length (may_equal_ s))%nat →
  ∃ r, loop_body s = Ok r.
Proof.
  intros Hsinv H0 Hme. pose proof Hsinv as [Hinv Hn].
  pose proof (inv_static _ _ Hinv) as Hwf.
  destruct (current_state s Hsinv H0) as (state & Hstate & Hdom & Hit).
  destruct (decide (options_it state = length (options state)))
    as [Hend|Hmore].
  - rewrite (loop_body_backtrack s state) by done. eauto.
  - destruct (lookup_lt_is_Some_2 (options state) (options_it state))
      as [to Hto]; [lia|].
    destruct (decide (current_index_ s + 1 = Z.of_nat (n_variables_ s)))
      as [Hlast|Hdeeper].
    + rewrite (loop_body_return s state to) by done. eauto.
    + rewrite (loop_body_descend s state to) by (done || lia).
      assert (length (take (Z.to_nat (current_index_ s)) (assignment_ s)
                        ++ [to]) = S (Z.to_nat (current_index_ s))) as Hlen.
      { rewrite length_app, (length_take_assignment _ _ _ Hinv) by lia.
        simpl. lia. }
      destruct (lookup_lt_is_Some_2 (var_to_constraints_ s)
                  (S (Z.to_nat (current_index_ s)))) as [l Hl].
      { rewrite (wf_v2c_len _ Hwf). lia. }
      destruct (domain_total (structure_ s) (constraints_ s)
                  (var_to_constraints_ s) (may_equal_ s)
                  (take (Z.to_nat (current_index_ s)) (assignment_ s)
                     ++ [to]) l) as [o Ho].
      * by rewrite Hlen.
      * intros i Hi. by eapply static_index_lt.
      * rewrite Hlen. lia.
      * rewrite Ho. simpl. eauto.
Qed.

Lemma search_inv_set_valid s b : search_inv s → search_inv (set_valid s b).
Proof.
  intros [[Hwf ? ? ? ? ?] ?]. split; [|done]. split; try done.
  destruct Hwf. by split.
Qed.

Lemma remaining_exhausted s :
  search_inv s → current_index_ s < 0 → remaining s = [] ∧ rounds s = 0%nat.
Proof.
  intros [Hinv _] Hneg. pose proof (inv_index _ _ Hinv).
  unfold remaining, rounds, active_levels.
  by replace (current_index_ s + 1) with 0 by lia.
Qed.

Lemma NextAssignment_loop_spec fuel s A s' :
  search_inv s → NextAssignment_loop fuel s = Ok (A, s') →
  same_instance s s' ∧ search_inv s' ∧ (rounds s' ≤ rounds s)%nat ∧
  ((A ≠ [] ∧ remaining s = A :: remaining s' ∧ valid_ s' = valid_ s) ∨
   (A = [] ∧ remaining s = [] ∧ valid_ s' = false)).
Proof.
  revert s. induction fuel as [|fuel IH]; intros s Hinv; simpl; [done|].
  destruct (Z.leb_spec 0 (current_index_ s)) as [H0|Hneg].
  - intros (r & Hbody & H)%bind_Ok.
    destruct (loop_body_step s r Hinv H0 Hbody)
      as (Hsame & Hvalid & Hinv' & Hrounds & Hrem).
    destruct r as [s1|A1 s1]; simpl in *.
    + destruct (IH s1 Hinv' H) as (Hsame' & Hinv'' & Hle & Hres).
      split; [by eapply same_instance_trans|]. split; [done|].
      split; [lia|]. rewrite <- Hrem, <- Hvalid. done.
    + injection H as <- <-. destruct Hrem as [Hrem Hne].
      split; [done|]. split; [done|]. split; [lia|]. left. done.
  - intros [= <- <-].
    destruct (remaining_exhausted s Hinv Hneg) as [Hrem Hrounds].
    split; [by repeat split|]. split; [by apply search_inv_set_valid|].
    split; [done|]. right. done.
Qed.

Lemma NextAssignment_loop_total fuel s :
  search_inv s → (n_variables_ s ≤ length (may_equal_ s))%nat →
  (rounds s < fuel)%nat →
  ∃ A s', NextAssignment_loop fuel s = Ok (A, s').
Proof.
  revert s. induction fuel as [|fuel IH]; intros s Hinv Hme Hfuel; [lia|].
  simpl. destruct (Z.leb_spec 0 (current_index_ s)) as [H0|Hneg]; [|eauto].
  destruct (loop_body_total s Hinv H0 Hme) as [r Hbody]. rewrite Hbody.
  destruct (loop_body_step s r Hinv H0 Hbody)
    as (Hsame & Hvalid & Hinv' & Hrounds & Hrem).
  simpl. destruct r as [s1|A1 s1]; [|eauto]. simpl in *.
  apply IH; [done| |lia].
  destruct Hsame as (_ & -> & _ & _ & ->). done.
Qed.

(** *** Calls of [NextAssignment] *)

Lemma NextAssignment_spec fuel s A s' :
  (valid_ s = true → search_inv s) →
  NextAssignment fuel s = Ok (A, s') →
  same_instance s s' ∧ (valid_ s' = true → search_inv s') ∧
  (rounds s' ≤ rounds s)%nat ∧
  ((A ≠ [] ∧ valid_ s = true ∧ valid_ s' = true ∧
    remaining s = A :: remaining s') ∨
   (A = [] ∧ valid_ s' = false ∧ (valid_ s = true → remaining s = []))).
Proof.
  intros Hinv. unfold NextAssignment.
  destruct (valid_ s) eqn:Hvalid; simpl.
  - destruct (Nat.eqb_spec (n_variables_ s) 0) as [Hn|Hn].
    { pose proof (wf_n _ (inv_static _ _ (proj1 (Hinv eq_refl)))). lia. }
    intros H. apply NextAssignment_loop_spec in H
      as (Hsame & Hinv' & Hle & Hres); [|auto].
    split; [done|]. split; [done|]. split; [done|].
    destruct Hres as [(? & ? & Hv)|(? & ? & ?)]; [left|right]; auto.
    rewrite Hv. done.
  - intros [= <- <-]. split; [apply same_instance_refl|].
    split; [congruence|]. split; [done|]. right. done.
Qed.

Lemma after_calls_inv st n cs me s0 s :
  Solver_new st n cs me = Ok s0 → after_calls s0 s →
  same_instance s0 s ∧
  (valid_ s = true →
     valid_ s0 = true ∧ search_inv s ∧
     ∃ pre, solutions s0 = pre ++ remaining s).
Proof.
  intros Hnew. pose proof (Solver_new_inv _ _ _ _ _ Hnew)
    as (_ & _ & _ & _ & Hvalid0 & _).
  induction 1 as [|s fuel A s' _ [Hsame IH] Hcall].
  - split; [apply same_instance_refl|]. intros Hv.
    destruct (Hvalid0 Hv) as (Hinv & _ & Hrem & _).
    split; [done|]. split; [done|]. exists []. by rewrite Hrem.
  - apply NextAssignment_spec in Hcall
      as (Hsame' & Hinv' & _ & Hres); [|intros Hv; by apply IH].
    split; [by eapply same_instance_trans|]. intros Hv'.
    destruct Hres as [(HA & Hv & _ & Hrem)|(_ & Hv & _)]; [|congruence].
    destruct (IH Hv) as (Hv0 & Hinv & pre & Hpre).
    split; [done|]. split; [auto|]. exists (pre ++ [A]).
    rewrite Hpre, Hrem, <- app_assoc. done.
Qed.

(** Every non-empty result of [NextAssignment] is one of the solutions. *)
Lemma returned_solution st n cs me s0 s fuel A s' :
  Solver_new st n cs me = Ok s0 → after_calls s0 s →
  NextAssignment fuel s = Ok (A, s') → A ≠ [] →
  valid_ s0 = true ∧ A ∈ solutions s0.
Proof.
  intros Hnew Hcalls Hcall HA.
  destruct (after_calls_inv _ _ _ _ _ _ Hnew Hcalls) as [Hsame Hinv].
  apply NextAssignment_spec in Hcall
    as (_ & _ & _ & Hres); [|intros Hv; by apply Hinv].
  destruct Hres as [(_ & Hv & _ & Hrem)|(? & _)]; [|done].
  destruct (Hinv Hv) as (Hv0 & _ & pre & Hpre). split; [done|].
  rewrite Hpre, Hrem. apply elem_of_app. right. constructor.
Qed.

Lemma searching_inv st n cs me s0 s :
  Solver_new st n cs me = Ok s0 → valid_ s0 = true → searching s0 s →
  same_instance s0 s ∧ search_inv s.
Proof.
  intros Hnew Hv0. pose proof (Solver_new_inv _ _ _ _ _ Hnew)
    as (_ & _ & _ & _ & Hvalid0 & _).
  destruct (Hvalid0 Hv0) as (Hinv0 & _).
  induction 1 as [|s r _ [Hsame IH] Hv H0 Hbody|s _ [Hsame IH] Hv Hneg].
  - split; [apply same_instance_refl|done].
  - destruct (loop_body_step s r IH H0 Hbody) as (Hsame' & _ & Hinv' & _).
    split; [by eapply same_instance_trans|done].
  - split; [|by apply search_inv_set_valid].
    eapply same_instance_trans; [done|]. by repeat split.
Qed.

End Loop.

(** * The enumerated assignments *)

Section Solutions.
Variables (st : Structure) (cons : list Triplet)
          (v2c : list (list nat)) (me : list (gset nat)).

Lemma elem_of_dom P v :
  v ∈ dom st cons v2c me P ↔
  ∃ o, domain st cons v2c me P = Ok o ∧ v ∈ o.
Proof.
  unfold dom. destruct (domain st cons v2c me P) as [o|e].
  - split; [eauto|]. by intros (o' & [= <-] & ?).
  - split; [by intros ?%elem_of_nil|]. by intros (o' & [=] & ?).
Qed.

Lemma NoDup_dom P : NoDup (dom st cons v2c me P).
Proof.
  unfold dom. destruct (domain st cons v2c me P) as [o|e] eqn:Hd.
  - by eapply sorted_NoDup, domain_sorted.
  - constructor.
Qed.

Lemma elem_of_sols d P A :
  A ∈ sols st cons v2c me d P ↔
  length A = (length P + d)%nat ∧ take (length P) A = P ∧
  ∀ k v, (length P ≤ k)%nat → A !! k = Some v →
         v ∈ dom st cons v2c me (take k A).
Proof.
  revert P. induction d as [|d IH]; intros P; simpl.
  - rewrite list_elem_of_singleton. split.
    + intros ->. split; [lia|]. split; [by rewrite firstn_all|].
      intros k v Hk Hv. apply lookup_lt_Some in Hv. lia.
    + intros (Hlen & Htake & _). rewrite <- Htake.
      rewrite take_ge; [done|lia].
  - rewrite list_elem_of_bind. split.
    + intros (v & HA & Hv). apply IH in HA as (Hlen & Htake & Hdom).
      rewrite length_app in Hlen, Htake. simpl in Hlen, Htake.
      assert (take (length P) A = P) as HP.
      { replace (length P) with (length P `min` (length P + 1))%nat
          at 1 by lia.
        by rewrite <- take_take, Htake, take_app_length. }
      assert (A !! length P = Some v) as HAv.
      { rewrite <- (lookup_take_lt A (length P + 1)) by lia.
        rewrite Htake. by rewrite lookup_app_r, Nat.sub_diag. }
      split; [lia|]. split; [done|]. intros k v' Hk Hv'.
      destruct (decide (k = length P)) as [->|Hne].
      * rewrite HP. congruence.
      * apply Hdom; [|done]. rewrite length_app. simpl. lia.
    + intros (Hlen & Htake & Hdom).
      destruct (lookup_lt_is_Some_2 A (length P)) as [v Hv]; [lia|].
      exists v. split.
      * apply IH. rewrite length_app. simpl. split; [lia|]. split.
        -- replace (length P + 1)%nat with (S (length P)) by lia.
           by rewrite (take_S_r _ _ _ Hv), Htake.
        -- intros k v' Hk. apply Hdom. lia.
      * rewrite <- Htake at 1. by apply Hdom.
Qed.

Lemma NoDup_sols d P : NoDup (sols st cons v2c me d P).
Proof.
  revert P. induction d as [|d IH]; intros P; simpl.
  - apply NoDup_singleton.
  - apply NoDup_bind; [|auto|apply NoDup_dom].
    intros v1 v2 A _ _ H1 H2.
    apply elem_of_sols in H1 as (_ & H1 & _).
    apply elem_of_sols in H2 as (_ & H2 & _).
    rewrite length_app in H1, H2. simpl in H1, H2.
    rewrite H1 in H2. by apply app_inj_1 in H2 as [_ [= ->]].
Qed.
End Solutions.

(** *** Domains and facts *)

Section DomainsAndFacts.

Lemma tget_empty_holes var wc j :
  (j < 3)%nat →
  tget (empty_holes var wc).1 j = zero_var (tget wc j) ∧
  nth j (empty_holes var wc).2 false = (tget wc j =? var).
Proof.
  destruct wc as [[a b] c]. rewrite empty_holes_explicit.
  destruct j as [|[|[|j]]]; simpl; auto; lia.
Qed.

Lemma unify_spec var wc t v :
  is_fact t →
  (unify (empty_holes var wc).2 t positions 0 = v ∧ 0 < v) ↔
  ((∃ j, (j < 3)%nat ∧ tget wc j = var) ∧ 0 < v ∧
   ∀ j, (j < 3)%nat → tget wc j = var → tget t j = v).
Proof.
  intros Ht. destruct wc as [[a b] c]. rewrite empty_holes_explicit.
  cbn [snd].
  rewrite (unify_positive_spec _ _ _ t v Ht), !Z.eqb_eq. split.
  - intros (Hex & Hpos & H0 & H1 & H2). split; [|split; [done|]].
    + destruct Hex as [?|[?|?]];
        [exists 0%nat|exists 1%nat|exists 2%nat]; simpl; split; (lia || done).
    + intros [|[|[|j]]] Hj; simpl; auto.
  - intros ((j & Hj & Hex) & Hpos & Hall). split; [|split; [done|]].
    + destruct j as [|[|[|j]]]; simpl in Hex; auto.
    + split; [|split].
      * apply (Hall 0%nat). lia.
      * apply (Hall 1%nat). lia.
      * apply (Hall 2%nat). lia.
Qed.

Lemma zero_var_node x : 0 < x → zero_var x = x.
Proof.
  intros Hx. unfold zero_var. destruct (IsVariable x) eqn:Hv; [|done].
  apply IsVariable_true in Hv. lia.
Qed.

Lemma zero_var_var x : x ≤ 0 → zero_var x = 0.
Proof.
  intros Hx. unfold zero_var. destruct (IsVariable x) eqn:Hv; [done|].
  apply IsVariable_false in Hv. lia.
Qed.

(** The variable of greatest index held by a parametric constraint. *)
Lemma max_variable c :
  has_variable c →
  ∃ k, mentions c k ∧
    ∀ j, (j < 3)%nat → tget c j ≤ 0 → (Z.to_nat (- tget c j) ≤ k)%nat.
Proof.
  destruct c as [[a b] d]. intros (j & Hj & Hle).
  set (m := Z.min a (Z.min b d)).
  assert (m ≤ a ∧ m ≤ b ∧ m ≤ d) as (Ha & Hb & Hd) by lia.
  assert (m ≤ 0) as Hm.
  { destruct j as [|[|[|j]]]; simpl in Hle; lia. }
  exists (Z.to_nat (- m)). split.
  - assert (m = a ∨ m = b ∨ m = d) as [H|[H|H]] by lia;
      [exists 0%nat|exists 1%nat|exists 2%nat]; simpl; split; lia.
  - intros [|[|[|j']]] Hj'; simpl; lia.
Qed.

(** A value picked for variable [k] by a constraint whose variables have
    index at most [k] turns the constraint into a fact. *)
Lemma picks_sound st P c v :
  Structure_inv st → (∀ a, a ∈ P → 0 < a) →
  (∀ j, (j < 3)%nat → tget c j ≤ 0 →
     (Z.to_nat (- tget c j) ≤ length P)%nat) →
  picks st (- Z.of_nat (length P)) (subst P c) v →
  IsTrue st (subst (P ++ [v]) c) = true.
Proof.
  intros Hinv HP Hmax (t & Ht & Hunify & Hpos).
  destruct (sinv_sound _ Hinv _ _ Ht) as (Hfact & Hmatch & Hown).
  destruct (proj1 (unify_spec _ _ _ _ Hfact) (conj Hunify Hpos))
    as (_ & _ & Hholes).
  assert (subst (P ++ [v]) c = t) as ->; [|by apply IsTrue_iff].
  apply triplet_eq. intros j Hj. rewrite tget_subst.
  specialize (Hmatch j Hj). specialize (Hholes j Hj).
  rewrite (proj1 (tget_empty_holes _ _ j Hj)) in Hmatch.
  rewrite tget_subst in Hmatch, Hholes.
  assert (0 < tget t j) as Htj.
  { destruct Hfact as (Hf0 & Hf1 & Hf2). clear -Hf0 Hf1 Hf2.
    destruct j as [|[|[|j]]]; simpl in *; lia. }
  destruct (Z.ltb_spec 0 (tget c j)) as [Hnode|Hvar].
  - rewrite subst_pos_node in Hmatch |- * by done.
    rewrite zero_var_node in Hmatch by done. lia.
  - rewrite subst_pos_var in Hmatch, Hholes |- * by done.
    specialize (Hmax j Hj Hvar).
    destruct (decide (Z.to_nat (- tget c j) = length P)) as [Heq|Hne].
    + rewrite Heq, lookup_app_r, Nat.sub_diag by done. simpl.
      rewrite Heq, lookup_ge_None_2 in Hholes by done. simpl in Hholes.
      symmetry. apply Hholes. lia.
    + rewrite lookup_app_l by lia.
      destruct (lookup_lt_is_Some_2 P (Z.to_nat (- tget c j))) as [a Ha];
        [lia|].
      rewrite Ha in Hmatch |- *. simpl in *.
      assert (0 < a) by (apply HP; by eapply list_elem_of_lookup_2).
      rewrite zero_var_node in Hmatch by done. lia.
Qed.

(** Variables beyond the prefix do not matter to [subst]. *)
Lemma subst_take A k c :
  (∀ j, (j < 3)%nat → tget c j ≤ 0 → (Z.to_nat (- tget c j) < k)%nat) →
  subst (take k A) c = subst A c.
Proof.
  intros Hk. apply triplet_eq. intros j Hj. rewrite !tget_subst.
  destruct (Z.ltb_spec 0 (tget c j)) as [Hnode|Hvar].
  - by rewrite !subst_pos_node.
  - rewrite !subst_pos_var by done. rewrite lookup_take_lt; [done|auto].
Qed.

Lemma is_fact_subst A c :
  (∀ a, a ∈ A → 0 < a) →
  (∀ j, (j < 3)%nat → tget c j ≤ 0 →
     (Z.to_nat (- tget c j) < length A)%nat) →
  is_fact (subst A c).
Proof.
  intros HA Hc.
  assert (∀ j, (j < 3)%nat → 0 < tget (subst A c) j) as H.
  { intros j Hj. rewrite tget_subst.
    destruct (Z.ltb_spec 0 (tget c j)) as [Hnode|Hvar].
    - by rewrite subst_pos_node.
    - rewrite subst_pos_var by done.
      destruct (lookup_lt_is_Some_2 A (Z.to_nat (- tget c j))) as [a Ha];
        [auto|].
      rewrite Ha. simpl. apply HA. by eapply list_elem_of_lookup_2. }
  split; [|split]; apply H; lia.
Qed.

(** A satisfying assignment is picked by every constraint at every
    level. *)
Lemma picks_complete st A k v c :
  Structure_inv st → (∀ a, a ∈ A → 0 < a) → A !! k = Some v →
  (∀ j, (j < 3)%nat → tget c j ≤ 0 →
     (Z.to_nat (- tget c j) < length A)%nat) →
  mentions c k →
  IsTrue st (subst A c) = true →
  picks st (- Z.of_nat k) (subst (take k A) c) v.
Proof.
  intros Hinv HA Hv Hrange Hm Htrue.
  pose proof (is_fact_subst A c HA Hrange) as Hfact.
  pose proof (lookup_lt_Some _ _ _ Hv) as Hk.
  assert (0 < v) as Hpos by (apply HA; by eapply list_elem_of_lookup_2).
  apply IsTrue_iff in Htrue; [|done..].
  exists (subst A c). split; [|apply unify_spec; [done|]].
  - apply (sinv_complete _ Hinv); [done|]. intros j Hj.
    rewrite (proj1 (tget_empty_holes _ _ j Hj)), !tget_subst.
    destruct (Z.ltb_spec 0 (tget c j)) as [Hnode|Hvar].
    + rewrite !subst_pos_node by done. rewrite zero_var_node by done.
      by right.
    + rewrite !subst_pos_var by done.
      destruct (decide (Z.to_nat (- tget c j) < k)%nat) as [Hlt|Hge].
      * rewrite lookup_take_lt by done.
        destruct (lookup_lt_is_Some_2 A (Z.to_nat (- tget c j))) as [a Ha];
          [auto|].
        rewrite Ha. simpl.
        assert (0 < a) by (apply HA; by eapply list_elem_of_lookup_2).
        rewrite zero_var_node by done. by right.
      * rewrite lookup_take_ge by lia. simpl. left.
        by apply zero_var_var.
  - split; [|split; [done|]].
    + destruct Hm as (j & Hj & Heq). exists j. split; [done|].
      rewrite tget_subst, subst_pos_var by lia.
      rewrite Heq, Z.opp_involutive, Nat2Z.id.
      by rewrite lookup_take_ge.
    + intros j Hj. rewrite !tget_subst.
      destruct (Z.ltb_spec 0 (tget c j)) as [Hnode|Hvar].
      * rewrite !subst_pos_node by done. lia.
      * rewrite !subst_pos_var by done.
        destruct (decide (Z.to_nat (- tget c j) < k)%nat) as [Hlt|Hge].
        -- rewrite lookup_take_lt by done.
           destruct (lookup_lt_is_Some_2 A (Z.to_nat (- tget c j)))
             as [a Ha]; [auto|].
           rewrite Ha. simpl.
           assert (0 < a) by (apply HA; by eapply list_elem_of_lookup_2).
           lia.
        -- rewrite lookup_take_ge by lia. simpl. intros Heq.
           replace (Z.to_nat (- tget c j)) with k by lia.
           by rewrite Hv.
Qed.

End DomainsAndFacts.

(** * Soundness and completeness of the enumeration *)

Section Results.

Lemma classic_has_variable c : has_variable c ∨ ¬ has_variable c.
Proof.
  destruct (Z.ltb_spec 0 (tget c 0)) as [H0|H0];
    [|left; exists 0%nat; split; [lia|done]].
  destruct (Z.ltb_spec 0 (tget c 1)) as [H1|H1];
    [|left; exists 1%nat; split; [lia|done]].
  destruct (Z.ltb_spec 0 (tget c 2)) as [H2|H2];
    [|left; exists 2%nat; split; [lia|done]].
  right. intros ([|[|[|j]]] & Hj & Hle); simpl in *; lia.
Qed.

Lemma subst_ground A c : ¬ has_variable c → subst A c = c.
Proof.
  intros Hg. apply triplet_eq. intros j Hj. rewrite tget_subst.
  apply subst_pos_node. destruct (Z.ltb_spec 0 (tget c j)); [done|].
  exfalso. apply Hg. by exists j.
Qed.

Lemma solutions_shape s A :
  A ∈ solutions s →
  length A = n_variables_ s ∧
  (∀ a, a ∈ A → 0 < a) ∧
  ∀ k v, A !! k = Some v →
    ∃ o, domain (structure_ s) (constraints_ s) (var_to_constraints_ s)
           (may_equal_ s) (take k A) = Ok o ∧ v ∈ o.
Proof.
  intros (Hlen & _ & Hdom)%elem_of_sols. simpl in Hlen.
  assert (∀ k v, A !! k = Some v →
            ∃ o, domain (structure_ s) (constraints_ s)
                   (var_to_constraints_ s) (may_equal_ s) (take k A) = Ok o
                 ∧ v ∈ o) as Hdom'.
  { intros k v Hv. apply elem_of_dom, Hdom; [simpl; lia|done]. }
  split; [done|]. split; [|done].
  intros a [k Hk]%list_elem_of_lookup.
  destruct (Hdom' k a Hk) as (o & Ho & Ha). by eapply domain_positive.
Qed.

Lemma solutions_facts s A c :
  Structure_inv (structure_ s) → static_wf s →
  A ∈ solutions s → c ∈ constraints_ s →
  IsTrue (structure_ s) (subst A c) = true.
Proof.
  intros Hinv Hwf (Hlen & Hpos & Hdom)%solutions_shape Hc.
  pose proof Hc as [i Hi]%list_elem_of_lookup.
  pose proof (wf_parametric _ Hwf c Hc) as Hvar.
  destruct (max_variable c Hvar) as (k & Hm & Hmax).
  assert (k < n_variables_ s)%nat as Hk.
  { destruct Hm as (j & Hj & Heq).
    pose proof (wf_vars _ Hwf c j Hc Hj). lia. }
  destruct (lookup_lt_is_Some_2 A k) as [v Hv]; [lia|].
  destruct (Hdom k v Hv) as (o & Ho & Hvo).
  assert (length (take k A) = k) as Hlenk by (rewrite length_take; lia).
  apply (elem_of_domain _ _ _ _ _ _ v Ho) in Hvo
    as (l & m & Hl & _ & _ & Hall & _).
  rewrite Hlenk in Hl, Hall.
  destruct (Hall i) as (wc & Hwc & Hpicks).
  { apply (wf_v2c _ Hwf _ _ i Hl). eauto. }
  rewrite list_lookup_fmap, Hi in Hwc. injection Hwc as <-.
  rewrite <- Hlenk in Hpicks at 1.
  apply picks_sound in Hpicks; [|done| |].
  - rewrite <- (take_S_r _ _ _ Hv) in Hpicks.
    rewrite subst_take in Hpicks; [done|].
    intros j Hj Hle. specialize (Hmax j Hj Hle). lia.
  - intros a (i' & Ha & _)%elem_of_take. apply Hpos.
    by eapply list_elem_of_lookup_2.
  - rewrite Hlenk. done.
Qed.

Lemma solutions_unequal s A j k m a b :
  A ∈ solutions s → (j < k)%nat → may_equal_ s !! k = Some m → j ∉ m →
  A !! j = Some a → A !! k = Some b → a ≠ b.
Proof.
  intros (Hlen & Hpos & Hdom)%solutions_shape Hjk Hm Hj Ha Hb.
  destruct (Hdom k b Hb) as (o & Ho & Hbo).
  pose proof (lookup_lt_Some _ _ _ Hb) as Hk.
  assert (length (take k A) = k) as Hlenk by (rewrite length_take; lia).
  apply (elem_of_domain _ _ _ _ _ _ b Ho) in Hbo
    as (l & m' & _ & Hm' & _ & _ & Hineq).
  rewrite Hlenk in Hm', Hineq. rewrite Hm in Hm'. injection Hm' as <-.
  apply (Hineq j a); [done..|]. by rewrite lookup_take_lt.
Qed.

Lemma solutions_complete s A :
  Structure_inv (structure_ s) → static_wf s →
  (n_variables_ s ≤ length (may_equal_ s))%nat →
  (∀ k, (k < n_variables_ s)%nat → var_to_constraints_ s !! k ≠ Some []) →
  length A = n_variables_ s →
  (∀ a, a ∈ A → 0 < a) →
  (∀ c, c ∈ constraints_ s → IsTrue (structure_ s) (subst A c) = true) →
  (∀ j k m a b, (j < k)%nat → may_equal_ s !! k = Some m → j ∉ m →
     A !! j = Some a → A !! k = Some b → a ≠ b) →
  A ∈ solutions s.
Proof.
  intros Hinv Hwf Hme Hcons Hlen Hpos Hfacts Hineq.
  apply elem_of_sols. split; [simpl; lia|]. split; [done|].
  intros k v _ Hv. pose proof (lookup_lt_Some _ _ _ Hv) as Hk.
  assert (length (take k A) = k) as Hlenk by (rewrite length_take; lia).
  destruct (lookup_lt_is_Some_2 (var_to_constraints_ s) k) as [l Hl];
    [rewrite (wf_v2c_len _ Hwf); lia|].
  destruct (lookup_lt_is_Some_2 (may_equal_ s) k) as [m Hm]; [lia|].
  destruct (domain_total (structure_ s) (constraints_ s)
              (var_to_constraints_ s) (may_equal_ s) (take k A) l)
    as [o Ho].
  { by rewrite Hlenk. }
  { intros i Hi. by eapply static_index_lt. }
  { lia. }
  apply elem_of_dom. exists o. split; [done|].
  apply (elem_of_domain _ _ _ _ _ _ v Ho). exists l, m.
  rewrite Hlenk. split; [done|]. split; [done|]. split; [|split].
  - intros ->. by apply (Hcons k); [lia|].
  - intros i Hi. apply (wf_v2c _ Hwf _ _ i Hl) in Hi as (c & Hc & Hmc).
    exists (subst (take k A) c). split; [by rewrite list_lookup_fmap, Hc|].
    assert (c ∈ constraints_ s) as Hin by (by eapply list_elem_of_lookup_2).
    apply (picks_complete _ A); try done; [|by apply Hfacts].
    intros j Hj Hle. rewrite Hlen. by apply (wf_vars _ Hwf c j).
  - intros i a Hi Him Ha. rewrite lookup_take_lt in Ha by done.
    by apply (Hineq i k m a v).
Qed.

(** *** The solutions of a constructed solver *)

Lemma new_solutions_satisfying st n cs me s0 A :
  reachable st → Solver_new st n cs me = Ok s0 → valid_ s0 = true →
  A ∈ solutions s0 → satisfying st n cs me A.
Proof.
  intros Hst%reachable_inv Hnew Hv HA.
  destruct (Solver_new_inv _ _ _ _ _ Hnew)
    as (Hs & Hn & Hme & _ & Hvalid & _).
  destruct (Hvalid Hv) as ([Hinv _] & _ & _ & Hkept & Hground).
  pose proof (inv_static _ _ Hinv) as Hwf. subst st n me.
  destruct (solutions_shape _ _ HA) as (Hlen & Hpos & _).
  split; [done|]. split; [done|]. split.
  - intros c Hc. destruct (classic_has_variable c) as [Hvar|Hg].
    + apply solutions_facts; [done..|]. apply Hkept. done.
    + rewrite subst_ground by done. by apply Hground.
  - intros j k m a b. by apply solutions_unequal.
Qed.

Lemma satisfying_new_solutions st n cs me s0 A :
  reachable st → Solver_new st n cs me = Ok s0 →
  (n ≤ length me)%nat →
  (∀ k, (k < n)%nat → ∃ c, c ∈ cs ∧ mentions c k) →
  satisfying st n cs me A →
  valid_ s0 = true ∧ A ∈ solutions s0.
Proof.
  intros Hst%reachable_inv Hnew Hlen Hmentioned Hsat.
  destruct (Solver_new_inv _ _ _ _ _ Hnew)
    as (Hs & Hn & Hme & _ & Hvalid & Hinvalid).
  subst st n me. destruct Hsat as (HlenA & Hpos & Hfacts & Hineq).
  destruct (valid_ s0) eqn:Hv.
  - split; [done|].
    destruct (Hvalid eq_refl) as ([Hinv _] & _ & _ & Hkept & Hground).
    pose proof (inv_static _ _ Hinv) as Hwf.
    apply solutions_complete; try done.
    + intros k Hk Hl.
      destruct (Hmentioned k Hk) as (c & Hc & Hm).
      assert (c ∈ constraints_ s0) as [i Hi]%list_elem_of_lookup.
      { apply Hkept. split; [done|]. by eapply mentions_variable. }
      assert (i ∈ ([] : list nat)) as Hin
        by (apply (wf_v2c _ Hwf _ _ i Hl); eauto).
      by apply elem_of_nil in Hin.
    + intros c Hc. apply Hfacts. by apply Hkept.
  - destruct (Hinvalid eq_refl) as [(c & Hc & Hg & Hfalse) _].
    specialize (Hfacts c Hc). rewrite subst_ground in Hfacts by done.
    congruence.
Qed.

End Results.

(** * Repeated calls, frame conditions and [may_equal] *)

Section Enumerate.

Lemma enumerate_spec fuel m s :
  length (remaining s) = m → search_inv s → valid_ s = true →
  (n_variables_ s ≤ length (may_equal_ s))%nat → (rounds s < fuel)%nat →
  ∃ s', enumerate (S m) fuel s = Ok (remaining s, s').
Proof.
  revert s. induction m as [|m IH]; intros s Hm Hinv Hv Hme Hfuel.
  - destruct (NextAssignment_loop_total fuel s Hinv Hme Hfuel)
      as (A & s1 & Hloop).
    assert (NextAssignment fuel s = Ok (A, s1)) as Hcall.
    { unfold NextAssignment. rewrite Hv. simpl.
      destruct (Nat.eqb_spec (n_variables_ s) 0) as [Hn|Hn]; [|done].
      pose proof (wf_n _ (inv_static _ _ (proj1 Hinv))). lia. }
    destruct (NextAssignment_spec fuel s A s1 (fun _ => Hinv) Hcall)
      as (_ & _ & _ & [(_ & _ & _ & Hrem)|(-> & _ & Hrem)]).
    + rewrite Hrem in Hm. done.
    + simpl. rewrite Hcall. simpl. rewrite Hrem by done. eauto.
  - destruct (NextAssignment_loop_total fuel s Hinv Hme Hfuel)
      as (A & s1 & Hloop).
    assert (NextAssignment fuel s = Ok (A, s1)) as Hcall.
    { unfold NextAssignment. rewrite Hv. simpl.
      destruct (Nat.eqb_spec (n_variables_ s) 0) as [Hn|Hn]; [|done].
      pose proof (wf_n _ (inv_static _ _ (proj1 Hinv))). lia. }
    destruct (NextAssignment_spec fuel s A s1 (fun _ => Hinv) Hcall)
      as (Hsame & Hinv1 & Hle & [(HA & _ & Hv1 & Hrem)|(-> & _ & Hrem)]).
    + destruct (IH s1) as [s' Henum]; try done; auto.
      * rewrite Hrem in Hm. simpl in Hm. lia.
      * destruct Hsame as (_ & -> & _ & _ & ->). done.
      * lia.
      * exists s'. change (enumerate (S (S m)) fuel s)
          with (do r <- NextAssignment fuel s;
                match r.1 with
                | [] => Ok ([], r.2)
                | _ => do rest <- enumerate (S m) fuel r.2;
                       Ok (r.1 :: rest.1, rest.2)
                end).
        rewrite Hcall. cbn [bind fst snd]. destruct A as [|a A]; [done|].
        rewrite Henum. cbn [bind fst snd]. by rewrite Hrem.
    + rewrite Hrem in Hm by done. done.
Qed.

End Enumerate.

Section Frame.

Lemma Assign_frame to s s' :
  Assign to s = Ok s' → same_instance s s' ∧ valid_ s' = valid_ s.
Proof.
  unfold Assign.
  intros (_ & _ & (v2c & _ & (w & _ & [= <-])%bind_Ok)%bind_Ok)%bind_Ok.
  by repeat split.
Qed.

Lemma UnAssign_frame s s' :
  UnAssign s = Ok s' → same_instance s s' ∧ valid_ s' = valid_ s.
Proof.
  unfold UnAssign. destruct (_ <? 0).
  - intros [= <-]. by repeat split.
  - intros (v2c & _ & (w & _ & [= <-])%bind_Ok)%bind_Ok. by repeat split.
Qed.

Lemma GetOptions_frame s s' :
  GetOptions s = Ok s' → same_instance s s' ∧ valid_ s' = valid_ s.
Proof.
  unfold GetOptions. destruct (_ || _).
  - intros [= <-]. by repeat split.
  - intros (? & _ & (? & _ & (? & _ & (? & _ & (? & _ & [= <-])
      %bind_Ok)%bind_Ok)%bind_Ok)%bind_Ok)%bind_Ok.
    by repeat split.
Qed.

Lemma same_valid_trans s1 s2 s3 :
  same_instance s1 s2 ∧ valid_ s2 = valid_ s1 →
  same_instance s2 s3 ∧ valid_ s3 = valid_ s2 →
  same_instance s1 s3 ∧ valid_ s3 = valid_ s1.
Proof.
  intros [? ?] [? ?]. split; [by eapply same_instance_trans|congruence].
Qed.

Lemma loop_body_frame s r :
  loop_body s = Ok r →
  same_instance s (iteration_state r) ∧
  valid_ (iteration_state r) = valid_ s.
Proof.
  unfold loop_body. intros (state & _ & H)%bind_Ok.
  destruct (_ =? _)%nat.
  - apply bind_Ok in H as (s1 & H1%UnAssign_frame & [= <-]). done.
  - apply bind_Ok in H as (to & _ & (s1 & H1%Assign_frame & H)%bind_Ok).
    destruct (_ =? _).
    + apply bind_Ok in H as (s3 & H3%UnAssign_frame & [= <-]). simpl.
      eapply same_valid_trans; [|exact H3].
      eapply same_valid_trans; [exact H1|]. by repeat split.
    + apply bind_Ok in H as (s3 & H3%GetOptions_frame & [= <-]). simpl.
      eapply same_valid_trans; [|exact H3].
      eapply same_valid_trans; [exact H1|]. by repeat split.
Qed.

Lemma NextAssignment_loop_frame fuel s A s' :
  NextAssignment_loop fuel s = Ok (A, s') →
  same_instance s s' ∧
  (valid_ s' = valid_ s ∨ (A = [] ∧ valid_ s' = false)).
Proof.
  revert s. induction fuel as [|fuel IH]; intros s; simpl; [done|].
  destruct (0 <=? current_index_ s).
  - intros (r & [Hsame Hv]%loop_body_frame & H)%bind_Ok.
    destruct r as [s1|A1 s1]; simpl in *.
    + apply IH in H as [Hsame' Hv'].
      split; [by eapply same_instance_trans|].
      rewrite <- Hv. done.
    + injection H as <- <-. split; [done|]. by left.
  - intros [= <- <-]. split; [by repeat split|]. right. done.
Qed.

End Frame.

Section LowerMayEqual.

Lemma lookup_lower me k :
  lower me !! k = (fun m => filter (fun j => (j < k)%nat) m) <$> me !! k.
Proof. unfold lower. by rewrite list_lookup_imap. Qed.

Lemma GetOptions_lower s :
  GetOptions (lower_solver s) =
  do s' <- GetOptions s; Ok (lower_solver s').
Proof.
  unfold GetOptions, lower_solver. simpl.
  destruct (_ || _) eqn:Hguard; [done|].
  apply orb_false_iff in Hguard as [_ Hneg%Z.ltb_ge].
  destruct (at_int (states_ s) _) as [state|]; simpl; [|done].
  destruct (at_int (var_to_constraints_ s) _) as [v2c|]; simpl; [|done].
  destruct (options_loop _ _ _ _ _ _) as [o|]; simpl; [|done].
  unfold get_int. destruct (Z.ltb_spec (current_index_ s) 0); [lia|].
  unfold vec_get. rewrite lookup_lower.
  destruct (may_equal_ s !! _) as [m|]; simpl; [|done].
  rewrite (inequality_loop_ext (assignment_ s) (assignment_ s)
             (filter (fun j => (j < Z.to_nat (current_index_ s))%nat) m) m).
  - by destruct (inequality_loop _ _ _ _).
  - done.
  - intros i Hi%elem_of_seq. rewrite elem_of_filter. split; [tauto|].
    intros ?. split; [lia|done].
Qed.

Lemma Assign_lower to s :
  Assign to (lower_solver s) = do s' <- Assign to s; Ok (lower_solver s').
Proof.
  unfold Assign, lower_solver. simpl.
  destruct (get_int (assignment_ s) _); simpl; [|done].
  destruct (get_int (var_to_constraints_ s) _); simpl; [|done].
  by destruct (foldM _ _ _).
Qed.

Lemma UnAssign_lower s :
  UnAssign (lower_solver s) = do s' <- UnAssign s; Ok (lower_solver s').
Proof.
  unfold UnAssign, lower_solver. simpl.
  destruct (_ <? 0); [done|].
  destruct (at_int (var_to_constraints_ s) _); simpl; [|done].
  by destruct (foldM _ _ _).
Qed.

Lemma loop_body_lower s :
  loop_body (lower_solver s) =
  do r <- loop_body s; Ok (lower_iteration r).
Proof.
  unfold loop_body.
  change (states_ (lower_solver s)) with (states_ s).
  change (current_index_ (lower_solver s)) with (current_index_ s).
  destruct (get_int (states_ s) _) as [state|]; simpl; [|done].
  destruct (_ =? _)%nat.
  - rewrite UnAssign_lower. by destruct (UnAssign s).
  - destruct (vec_get _ _) as [to|]; simpl; [|done].
    rewrite Assign_lower. destruct (Assign to s) as [s1|]; simpl; [|done].
    destruct (_ =? _).
    + change (set_states (lower_solver s1) ?x)
        with (lower_solver (set_states s1 x)).
      rewrite UnAssign_lower. by destruct (UnAssign _).
    + change (set_states (lower_solver s1) ?x)
        with (lower_solver (set_states s1 x)).
      rewrite GetOptions_lower. by destruct (GetOptions _).
Qed.

Lemma NextAssignment_loop_lower fuel s :
  NextAssignment_loop fuel (lower_solver s) =
  do r <- NextAssignment_loop fuel s; Ok (r.1, lower_solver r.2).
Proof.
  revert s. induction fuel as [|fuel IH]; intros s; simpl; [done|].
  change (current_index_ (lower_solver s)) with (current_index_ s).
  destruct (0 <=? current_index_ s); [|done].
  rewrite loop_body_lower. destruct (loop_body s) as [[s1|A s1]|]; simpl.
  - apply IH.
  - done.
  - done.
Qed.

End LowerMayEqual.

(** * The claims *)

Section Claims.

Lemma working_invariant_pre lim s : search_pre lim s → working_invariant s.
Proof.
  intros Hinv i c j Hc Hj Hvar%IsVariable_true.
  pose proof (inv_static _ _ Hinv) as Hwf.
  pose proof (inv_index _ _ Hinv) as Hidx.
  exists (subst (take (Z.to_nat (current_index_ s)) (assignment_ s)) c).
  split.
  { by rewrite (inv_working _ _ Hinv), list_lookup_fmap, Hc. }
  rewrite tget_subst, subst_pos_var by done.
  destruct (Z.ltb_spec (- tget c j) (current_index_ s)) as [Hlt|Hge].
  - destruct (lookup_lt_is_Some_2 (assignment_ s) (Z.to_nat (- tget c j)))
      as [a Ha]; [rewrite (wf_assignment_len _ Hwf); lia|].
    rewrite lookup_take_lt by lia. by rewrite Ha.
  - by rewrite lookup_take_ge by lia.
Qed.

Lemma stores_st_one : stores st_one ({[(1, 1, 1)]} ∪ ∅).
Proof.
  eapply stores_add; [apply stores_new| |].
  - unfold is_fact. simpl. lia.
  - vm_compute. reflexivity.
Defined.

Lemma reachable_st_one : reachable st_one.
Proof. eexists. apply stores_st_one. Defined.

Lemma reachable_foldM facts st st' :
  reachable st → Forall is_fact facts → foldM AddFact st facts = Ok st' →
  reachable st'.
Proof.
  revert st. induction facts as [|f facts IH]; intros st Hst Hfacts; simpl.
  - by intros [= <-].
  - intros (st1 & Hadd & H)%bind_Ok.
    apply Forall_cons in Hfacts as [Hf Hfacts].
    apply (IH st1); [|done..]. destruct Hst as [F HF].
    eexists. by eapply stores_add.
Qed.

Lemma reachable_build facts st :
  Forall is_fact facts → build facts = Ok st → reachable st.
Proof.
  apply reachable_foldM. eexists. apply stores_new.
Qed.

Lemma reachable_st_pairs : reachable st_pairs.
Proof.
  apply (reachable_build [(1, 2, 1); (1, 2, 2); (2, 2, 1)]).
  - repeat constructor; simpl; lia.
  - vm_compute. reflexivity.
Defined.

(** C1 — Soundness of the solver: every non-empty assignment returned by
    [NextAssignment], over any number of calls on a solver constructed
    over a structure built through the interface, has length [n], holds
    positive nodes only, and turns every constraint supplied at
    construction into a fact of the structure. *)
Theorem next_assignment_sound st n cs me s0 s fuel A s' :
  reachable st → Solver_new st n cs me = Ok s0 → after_calls s0 s →
  NextAssignment fuel s = Ok (A, s') → A ≠ [] →
  length A = n ∧ (∀ a, a ∈ A → 0 < a) ∧
  ∀ c, c ∈ cs → IsTrue st (subst A c) = true.
Proof.
  intros Hst Hnew Hcalls Hcall HA.
  destruct (returned_solution _ _ _ _ _ _ _ _ _ Hnew Hcalls Hcall HA)
    as [Hv Hsol].
  destruct (new_solutions_satisfying _ _ _ _ _ _ Hst Hnew Hv Hsol)
    as (? & ? & ? & _).
  done.
Qed.

Lemma next_assignment_sound_witness :
  length [1] = 1%nat ∧ (∀ a, a ∈ [1] → 0 < a) ∧
  ∀ c, c ∈ [(0, 0, 0)] → IsTrue st_one (subst [1] c) = true.
Proof.
  apply (next_assignment_sound st_one 1 [(0, 0, 0)] [∅]
           solver_one solver_one 5 [1]
           (unwrap (@nil Z, no_solver) (NextAssignment 5 solver_one)).2).
  - apply reachable_st_one.
  - vm_compute. reflexivity.
  - apply after_calls_none.
  - vm_compute. reflexivity.
  - discriminate.
Defined.

(** The contract on the structure matters here: [AddFact] does not check
    positivity, and with the triplet (0, 5, 7) stored the solver returns
    [5] for the constraint (0, 0, 7), although (5, 5, 7) is not in the
    structure. *)
Example soundness_needs_facts :
  (do st <- build [(0, 5, 7)];
   do s <- Solver_new st 1 [(0, 0, 7)] [∅];
   do r <- NextAssignment 5 s;
   Ok (r.1, IsTrue st (subst r.1 (0, 0, 7)))) = Ok ([5], false).
Proof. vm_compute. reflexivity. Qed.

(** C2 (as stated) fails: with a variable that no constraint holds, the
    assignment [1; 2] satisfies every constraint and every inequality
    restriction, yet the enumeration is empty. *)
Lemma enumeration_misses_free_variable :
  satisfying st_one 2 [(0, 0, 0)] [∅; ∅] [1; 2] ∧
  (do s <- Solver_new st_one 2 [(0, 0, 0)] [∅; ∅];
   do r <- enumerate 3 10 s; Ok r.1) = Ok [].
Proof.
  split; [|vm_compute; reflexivity].
  split; [reflexivity|]. split; [|split].
  - intros a. rewrite !elem_of_cons, elem_of_nil. lia.
  - intros c ->%list_elem_of_singleton. vm_compute. reflexivity.
  - intros j k m a b Hjk Hm _ Ha Hb.
    destruct k as [|[|k]]; [lia| |done].
    destruct j as [|j]; [|lia].
    simpl in Ha, Hb. congruence.
Qed.

(** C2 (amended) — Completeness and uniqueness of the enumeration, for
    an instance whose [may_equal] has an entry per variable and in which
    every variable is held by at least one constraint: requesting
    assignments until the empty one comes back terminates, returns no
    assignment twice, and returns exactly the assignments of positive
    nodes to the [n] variables that turn every constraint into a fact and
    respect the inequality restrictions. *)
Theorem enumeration_complete st n cs me s0 :
  reachable st → Solver_new st n cs me = Ok s0 →
  (n ≤ length me)%nat →
  (∀ k, (k < n)%nat → ∃ c, c ∈ cs ∧ mentions c k) →
  ∃ calls fuel out s',
    enumerate calls fuel s0 = Ok (out, s') ∧
    NoDup out ∧
    ∀ A, A ∈ out ↔ satisfying st n cs me A.
Proof.
  intros Hst Hnew Hlen Hmentioned.
  destruct (Solver_new_inv _ _ _ _ _ Hnew)
    as (Hs & Hn & Hme & _ & Hvalid & _).
  destruct (valid_ s0) eqn:Hv.
  - destruct (Hvalid eq_refl) as (Hinv & _ & Hrem & _).
    destruct (enumerate_spec (S (rounds s0)) (length (remaining s0)) s0)
      as [s' Henum]; try done; [rewrite Hn, Hme; lia|lia|].
    exists (S (length (remaining s0))), (S (rounds s0)), (remaining s0), s'.
    split; [done|]. rewrite Hrem. split; [apply NoDup_sols|].
    intros A. split.
    + by apply new_solutions_satisfying.
    + intros HA. by eapply satisfying_new_solutions.
  - exists 1%nat, 0%nat, [], s0. split; [|split].
    + simpl. unfold NextAssignment. by rewrite Hv.
    + constructor.
    + intros A. split; [by intros ?%elem_of_nil|].
      intros HA.
      destruct (satisfying_new_solutions _ _ _ _ _ _ Hst Hnew Hlen
                  Hmentioned HA) as [Hv' _].
      congruence.
Qed.

Lemma enumeration_complete_witness :
  ∃ calls fuel out s',
    enumerate calls fuel solver_pairs = Ok (out, s') ∧
    NoDup out ∧
    ∀ A, A ∈ out ↔ satisfying st_pairs 2 [(0, 2, -1)] [∅; ∅] A.
Proof.
  apply (enumeration_complete st_pairs 2 [(0, 2, -1)] [∅; ∅] solver_pairs).
  - apply reachable_st_pairs.
  - vm_compute. reflexivity.
  - simpl. lia.
  - intros k Hk. exists (0, 2, -1). split; [constructor|].
    destruct k as [|[|k]]; [exists 0%nat|exists 2%nat|lia];
      simpl; split; lia.
Defined.

(** C3 — FactIndex lookup correctness: after any sequence of [AddFact]
    and [RemoveFact] calls on facts that do not abort, [Lookup] of a
    pattern (each position 0 or a node) returns, without repetition,
    exactly the facts added and not removed since that agree with the
    pattern at each of its non-zero positions; and [IsTrue] tells which
    facts those are. *)
Theorem Lookup_correct st F p :
  stores st F → is_pattern p →
  NoDup (Lookup st p) ∧
  (∀ f, f ∈ Lookup st p ↔ f ∈ F ∧ matches p f) ∧
  (∀ f, is_fact f → IsTrue st f = true ↔ f ∈ F).
Proof.
  intros [Hinv HF]%stores_inv _. split; [apply (sinv_nodup _ Hinv)|]. split.
  - intros f. rewrite <- HF. split.
    + intros Hin. apply (sinv_sound _ Hinv) in Hin as (_ & ? & ?). done.
    + intros [Hown Hm]. by apply (sinv_complete _ Hinv).
  - intros f Hf. rewrite <- HF. by apply IsTrue_iff.
Qed.

Lemma Lookup_correct_witness :
  NoDup (Lookup st_one (1, 0, 1)) ∧
  (∀ f, f ∈ Lookup st_one (1, 0, 1) ↔
        f ∈ ({[(1, 1, 1)]} ∪ ∅ : gset Triplet) ∧ matches (1, 0, 1) f) ∧
  (∀ f, is_fact f →
        IsTrue st_one f = true ↔ f ∈ ({[(1, 1, 1)]} ∪ ∅ : gset Triplet)).
Proof.
  apply (Lookup_correct st_one ({[(1, 1, 1)]} ∪ ∅) (1, 0, 1)).
  - apply stores_st_one.
  - intros [|[|[|j]]] _; simpl; lia.
Defined.

(** C4 — Inequality enforcement: in every non-empty assignment returned
    by [NextAssignment], two variables [j < k] with [j] not a member of
    [may_equal[k]] hold different nodes. *)
Theorem next_assignment_unequal st n cs me s0 s fuel A s' j k m a b :
  Solver_new st n cs me = Ok s0 → after_calls s0 s →
  NextAssignment fuel s = Ok (A, s') → A ≠ [] →
  (j < k)%nat → me !! k = Some m → j ∉ m →
  A !! j = Some a → A !! k = Some b → a ≠ b.
Proof.
  intros Hnew Hcalls Hcall HA Hjk Hm Hj Ha Hb.
  destruct (returned_solution _ _ _ _ _ _ _ _ _ Hnew Hcalls Hcall HA)
    as [_ Hsol].
  destruct (Solver_new_inv _ _ _ _ _ Hnew) as (_ & _ & Hme & _).
  eapply solutions_unequal; try done. by rewrite Hme.
Qed.

Lemma next_assignment_unequal_witness : (1 : Z) ≠ 2.
Proof.
  apply (next_assignment_unequal st_pairs 2 [(0, 2, -1)] [∅; ∅]
           solver_pairs solver_pairs 10 [1; 2]
           (unwrap (@nil Z, no_solver) (NextAssignment 10 solver_pairs)).2
           0%nat 1%nat ∅ 1 2).
  - vm_compute. reflexivity.
  - apply after_calls_none.
  - vm_compute. reflexivity.
  - discriminate.
  - lia.
  - reflexivity.
  - apply not_elem_of_empty.
  - reflexivity.
  - reflexivity.
Defined.

(** C5 — Ground-constraint infeasibility: if some constraint with three
    positive positions is not a fact of the structure at construction,
    the constructed solver is not valid, and every call of
    [NextAssignment] returns the empty result (and leaves the solver as
    it is). *)
Theorem ground_constraint_infeasible st n cs me s0 c :
  Solver_new st n cs me = Ok s0 → c ∈ cs → is_fact c →
  IsTrue st c = false →
  IsValid s0 = false ∧
  ∀ s, after_calls s0 s → ∀ fuel, NextAssignment fuel s = Ok ([], s).
Proof.
  intros Hnew Hc (H0 & H1 & H2) Hfalse.
  destruct (Solver_new_inv _ _ _ _ _ Hnew) as (_ & _ & _ & _ & Hvalid & _).
  assert (valid_ s0 = false) as Hv.
  { destruct (valid_ s0); [|done].
    destruct (Hvalid eq_refl) as (_ & _ & _ & _ & Hground).
    rewrite Hground in Hfalse; [done..|].
    intros ([|[|[|j]]] & Hj & Hle); simpl in *; lia. }
  split; [done|].
  assert (∀ fuel, NextAssignment fuel s0 = Ok ([], s0)) as Hcall.
  { intros fuel. unfold NextAssignment. by rewrite Hv. }
  assert (∀ s, after_calls s0 s → s = s0) as Hsame.
  { induction 1 as [|s fuel A s' _ -> Hnext]; [done|].
    rewrite Hcall in Hnext. by injection Hnext as _ <-. }
  intros s ->%Hsame. done.
Qed.

Lemma ground_constraint_infeasible_witness :
  IsValid solver_ground = false ∧
  ∀ s, after_calls solver_ground s →
       ∀ fuel, NextAssignment fuel s = Ok ([], s).
Proof.
  apply (ground_constraint_infeasible st_one 1 [(2, 2, 2); (0, 0, 0)] [∅]
           solver_ground (2, 2, 2)).
  - vm_compute. reflexivity.
  - constructor.
  - unfold is_fact. simpl. lia.
  - vm_compute. reflexivity.
Defined.

(** C6 — Working-constraints invariant: at the head of every round of
    the search of a valid solver, and right after the [Assign] of a
    round, each position of [working_constraints_] whose original
    constraint holds a variable of index below [current_index_] contains
    the node assigned to that variable, and each position whose original
    constraint holds a variable of index at least [current_index_] still
    contains that variable's encoding.  ([UnAssign] leads to the head of
    the next round.) *)
Theorem working_constraints_invariant st n cs me s0 s :
  Solver_new st n cs me = Ok s0 → valid_ s0 = true → searching s0 s →
  working_invariant s ∧
  ∀ state to s1,
    0 ≤ current_index_ s →
    states_ s !! Z.to_nat (current_index_ s) = Some state →
    options state !! options_it state = Some to →
    Assign to s = Ok s1 → working_invariant s1.
Proof.
  intros Hnew Hv Hs.
  destruct (searching_inv _ _ _ _ _ _ Hnew Hv Hs) as [_ Hinv].
  split; [by eapply working_invariant_pre, Hinv|].
  intros state to s1 H0 Hstate Hto Hassign.
  pose proof (advanced_pre s state to Hinv H0 Hstate Hto) as Hpre.
  apply working_invariant_pre in Hpre.
  destruct (current_state s Hinv H0) as (state' & Hstate' & Hdom & _).
  rewrite Hstate in Hstate'. injection Hstate' as <-.
  rewrite (Assign_spec _ s to (proj1 Hinv)) in Hassign;
    [|done|apply Hinv|].
  - injection Hassign as <-. exact Hpre.
  - eapply domain_positive; [exact Hdom|]. by eapply list_elem_of_lookup_2.
Qed.

Lemma working_constraints_invariant_witness :
  working_invariant solver_pairs ∧
  ∀ state to s1,
    0 ≤ current_index_ solver_pairs →
    states_ solver_pairs !! Z.to_nat (current_index_ solver_pairs)
      = Some state →
    options state !! options_it state = Some to →
    Assign to solver_pairs = Ok s1 → working_invariant s1.
Proof.
  apply (working_constraints_invariant st_pairs 2 [(0, 2, -1)] [∅; ∅]
           solver_pairs solver_pairs).
  - vm_compute. reflexivity.
  - vm_compute. reflexivity.
  - apply searching_start.
Defined.

(** C7 (as stated) fails: the call that exhausts the search writes the
    valid flag. *)
Lemma exhausting_call_clears_valid :
  (do r <- NextAssignment 5 solver_empty;
   Ok (valid_ solver_empty, r.1, valid_ r.2)) = Ok (true, [], false).
Proof. vm_compute. reflexivity. Qed.

(** C7 (amended) — Frame condition on iteration: a call of
    [NextAssignment] leaves the referenced structure, the number of
    variables, the stored constraints, [var_to_constraints_] and
    [may_equal_] unchanged; the valid flag is unchanged too, except that a
    call returning the empty result may clear it. *)
Theorem next_assignment_frame fuel s A s' :
  NextAssignment fuel s = Ok (A, s') →
  same_instance s s' ∧
  (valid_ s' = valid_ s ∨ (A = [] ∧ valid_ s' = false)).
Proof.
  unfold NextAssignment. destruct (_ || _).
  - intros [= <- <-]. split; [apply same_instance_refl|by left].
  - apply NextAssignment_loop_frame.
Qed.

Lemma next_assignment_frame_witness :
  same_instance solver_pairs
    (unwrap (@nil Z, no_solver) (NextAssignment 10 solver_pairs)).2 ∧
  (valid_ (unwrap (@nil Z, no_solver) (NextAssignment 10 solver_pairs)).2
   = valid_ solver_pairs ∨
   ([1; 2] = [] ∧
    valid_ (unwrap (@nil Z, no_solver) (NextAssignment 10 solver_pairs)).2
    = false)).
Proof.
  apply (next_assignment_frame 10 solver_pairs [1; 2]).
  vm_compute. reflexivity.
Defined.

(** C8 (as stated) fails: [may_equal[0]] holding index 0 is accepted, and
    the solver goes on to enumerate. *)
Lemma may_equal_not_validated :
  (do s <- Solver_new st_one 1 [(0, 0, 0)] [{[0%nat]}];
   do r <- NextAssignment 5 s; Ok r.1) = Ok [1].
Proof. vm_compute. reflexivity. Qed.

Lemma Solver_new_lower st n cs me :
  Solver_new st n cs (lower me) =
  do s <- Solver_new st n cs me; Ok (lower_solver s).
Proof.
  unfold Solver_new. destruct (n =? 0)%nat; [done|].
  destruct (register_constraints _ _ _ _) as [[[v2c kept] valid]|];
    simpl; [|done].
  destruct valid; [|done].
  apply (GetOptions_lower
           (set_working
              (mkSolver st n true kept [] v2c me (replicate n 0)
                 (replicate n new_State) 0) kept)).
Qed.

Lemma NextAssignment_lower fuel s :
  NextAssignment fuel (lower_solver s) =
  do r <- NextAssignment fuel s; Ok (r.1, lower_solver r.2).
Proof.
  unfold NextAssignment.
  change (valid_ (lower_solver s)) with (valid_ s).
  change (n_variables_ (lower_solver s)) with (n_variables_ s).
  destruct (_ || _); [done|]. apply NextAssignment_loop_lower.
Qed.

(** C8 (amended) — A [may_equal] list in which some [may_equal[k]] holds
    an index [j >= k] is not rejected; such entries are never consulted:
    construction and every call of [NextAssignment] behave exactly as
    with those entries removed. *)
Theorem may_equal_upper_entries_ignored st n cs me :
  Solver_new st n cs (lower me) =
    (do s <- Solver_new st n cs me; Ok (lower_solver s)) ∧
  ∀ fuel s,
    NextAssignment fuel (lower_solver s) =
    do r <- NextAssignment fuel s; Ok (r.1, lower_solver r.2).
Proof.
  split; [apply Solver_new_lower|]. intros fuel s.
  apply NextAssignment_lower.
Qed.

Lemma searching_invalid s0 s :
  valid_ s0 = false → searching s0 s → s = s0.
Proof.
  intros Hv. induction 1 as [|s r _ -> Hv' _ _|s _ -> Hv' _];
    [done|congruence..].
Qed.

(** C9 — Unconstrained-variable edge case: if [var_to_constraints_[k]]
    is empty for a variable index [k] below [n], the options of level [k]
    are empty at the head of every round of the search, no call of
    [NextAssignment] returns an assignment, and (given a [may_equal] entry
    per variable) the first call terminates with the empty result. *)
Theorem unconstrained_variable_blocks st n cs me s0 k :
  Solver_new st n cs me = Ok s0 → (k < n)%nat →
  var_to_constraints_ s0 !! k = Some [] →
  (∀ s, searching s0 s →
     ∃ stk, states_ s !! k = Some stk ∧ options stk = []) ∧
  (∀ s fuel A s', after_calls s0 s →
     NextAssignment fuel s = Ok (A, s') → A = []) ∧
  ((n ≤ length me)%nat → ∃ fuel s', NextAssignment fuel s0 = Ok ([], s')).
Proof.
  intros Hnew Hk Hl.
  destruct (Solver_new_inv _ _ _ _ _ Hnew)
    as (Hs & Hn & Hme & _ & Hvalid & Hinvalid).
  assert (∀ s fuel A s', after_calls s0 s →
            NextAssignment fuel s = Ok (A, s') → A = []) as Hnone.
  { intros s fuel A s' Hcalls Hcall.
    destruct A as [|a A]; [done|]. exfalso.
    destruct (returned_solution _ _ _ _ _ _ _ _ _ Hnew Hcalls Hcall)
      as [_ Hsol]; [done|].
    destruct (solutions_shape _ _ Hsol) as (Hlen & _ & Hdom).
    destruct (lookup_lt_is_Some_2 (a :: A) k) as [v Hv]; [lia|].
    destruct (Hdom k v Hv) as (o & Ho & Hvo).
    apply domain_unconstrained in Ho.
    - subst o. by apply elem_of_nil in Hvo.
    - rewrite length_take, Nat.min_l by lia. done. }
  split; [|split; [done|]].
  - intros s Hsearch. destruct (valid_ s0) eqn:Hv.
    + destruct (searching_inv _ _ _ _ _ _ Hnew Hv Hsearch)
        as [Hsame [Hinv _]].
      destruct (lookup_lt_is_Some_2 (states_ s) k) as [stk Hstk].
      { rewrite (wf_states_len _ (inv_static _ _ Hinv)).
        destruct Hsame as (_ & -> & _). lia. }
      exists stk. split; [done|]. apply (inv_stale _ _ Hinv k); [done|].
      destruct Hsame as (_ & _ & _ & -> & _). done.
    + apply (searching_invalid _ _ Hv) in Hsearch as ->.
      destruct (Hinvalid eq_refl) as [_ ->]. exists new_State.
      split; [|done]. by apply lookup_replicate_2.
  - intros Hlen. destruct (valid_ s0) eqn:Hv.
    + destruct (Hvalid eq_refl) as (Hinv & _).
      destruct (NextAssignment_loop_total (S (rounds s0)) s0)
        as (A & s' & Hloop); [done|rewrite Hn, Hme; lia|lia|].
      assert (NextAssignment (S (rounds s0)) s0 = Ok (A, s')) as Hcall.
      { unfold NextAssignment. rewrite Hv. simpl.
        destruct (Nat.eqb_spec (n_variables_ s0) 0); [lia|done]. }
      rewrite (Hnone s0 _ A s' (after_calls_none s0) Hcall) in Hcall.
      eauto.
    + exists 0%nat, s0. unfold NextAssignment. by rewrite Hv.
Qed.

Lemma unconstrained_variable_blocks_witness :
  (∀ s, searching solver_free s →
     ∃ stk, states_ s !! 1%nat = Some stk ∧ options stk = []) ∧
  (∀ s fuel A s', after_calls solver_free s →
     NextAssignment fuel s = Ok (A, s') → A = []) ∧
  ((2 ≤ length [(∅ : gset nat); ∅])%nat →
   ∃ fuel s', NextAssignment fuel solver_free = Ok ([], s')).
Proof.
  apply (unconstrained_variable_blocks st_one 2 [(0, 0, 0)] [∅; ∅]
           solver_free 1).
  - vm_compute. reflexivity.
  - lia.
  - vm_compute. reflexivity.
Defined.

(** C10 — [AddFact] performs no positivity validation: for a triplet
    with a zero or negative position and for which [IsTrue] is false, the
    call does not abort, the triplet is appended to the bucket of each of
    its eight keys, and [IsTrue] is true for it afterwards. *)
Theorem AddFact_unchecked st fact :
  ¬ is_fact fact → IsTrue st fact = false →
  ∃ st', AddFact st fact = Ok st' ∧
    IsTrue st' fact = true ∧
    ∀ i, i ∈ masks → fact ∈ Lookup st' (mask_key i fact).
Proof.
  intros _ Hfalse.
  destruct (AddFact st fact) as [st'|e] eqn:Hadd.
  2:{ unfold AddFact in Hadd. by rewrite Hfalse in Hadd. }
  exists st'. split; [done|].
  assert (∀ key, matches key fact → fact ∈ Lookup st' key) as Hin.
  { intros key Hm. rewrite (Lookup_AddFact _ _ _ _ Hadd).
    apply elem_of_app. right.
    apply elem_of_replicate. split; [done|].
    pose proof (hits_pos fact key Hm). lia. }
  split.
  - apply IsTrue_bucket. rewrite <- Lookup_bucket.
    specialize (Hin fact (matches_refl fact)).
    intros Hnil. rewrite Hnil in Hin. by apply elem_of_nil in Hin.
  - intros i Hi. apply Hin, elem_of_mask_keys, list_elem_of_fmap. eauto.
Qed.

Lemma AddFact_unchecked_witness :
  ∃ st', AddFact st_one (0, -1, 1) = Ok st' ∧
    IsTrue st' (0, -1, 1) = true ∧
    ∀ i, i ∈ masks → (0, -1, 1) ∈ Lookup st' (mask_key i (0, -1, 1)).
Proof.
  apply (AddFact_unchecked st_one (0, -1, 1)).
  - unfold is_fact. simpl. lia.
  - vm_compute. reflexivity.
Defined.

(** The test of [AddFact] is [IsTrue], that is, a non-empty bucket under
    the triplet itself: once (5, 1, 1) is stored, (0, 1, 1) is the key of a
    non-empty bucket and adding it aborts. *)
Example AddFact_rejects_key_of_stored_fact :
  (do st <- build [(5, 1, 1)]; AddFact st (0, 1, 1)) = Err AssertionFailed.
Proof. vm_compute. reflexivity. Qed.

End Claims.

(** * Further properties of the fact structure *)

Section StructureMore.

Lemma stores_IsTrue st F f :
  stores st F → is_fact f → IsTrue st f = true ↔ f ∈ F.
Proof.
  intros [Hinv HF]%stores_inv Hf. rewrite <- HF. by apply IsTrue_iff.
Qed.

Lemma stores_facts st F f : stores st F → f ∈ F → is_fact f.
Proof.
  intros [Hinv HF]%stores_inv Hin. apply HF in Hin.
  by apply (sinv_sound _ Hinv) in Hin as (? & _).
Qed.

Lemma stores_Lookup st F key f :
  stores st F → f ∈ Lookup st key ↔ f ∈ F ∧ matches key f.
Proof.
  intros [Hinv HF]%stores_inv. rewrite <- HF. split.
  - intros Hin. by apply (sinv_sound _ Hinv) in Hin as (_ & ? & ?).
  - intros [Hown Hm]. by apply (sinv_complete _ Hinv).
Qed.

Lemma IsTrue_Lookup st key :
  IsTrue st key = match Lookup st key with [] => false | _ => true end.
Proof. unfold IsTrue, Lookup. by destruct (facts_ st !! key). Qed.

Lemma bucket_insert_ne (m : gmap Triplet (list Triplet)) k key b :
  k ≠ key → bucket (<[k := b]> m) key = bucket m key.
Proof. intros Hne. unfold bucket. by rewrite lookup_insert_ne. Qed.

Lemma erase_all_total f ms m :
  NoDup ((fun i => mask_key i f) <$> ms) →
  (∀ i, i ∈ ms → f ∈ bucket m (mask_key i f)) →
  ∃ m', erase_all m f ms = Ok m'.
Proof.
  revert m. induction ms as [|i ms IH]; intros m Hnd Hin; simpl; [eauto|].
  rewrite fmap_cons in Hnd. apply NoDup_cons in Hnd as [Hi Hnd].
  unfold erase_at. rewrite decide_True by (apply Hin; constructor). simpl.
  apply IH; [done|]. intros i' Hi'.
  rewrite bucket_insert_ne; [apply Hin; by constructor|].
  intros Heq. apply Hi. rewrite Heq. apply list_elem_of_fmap. eauto.
Qed.

Lemma RemoveFact_total st F f :
  stores st F → f ∈ F → ∃ st', RemoveFact st f = Ok st'.
Proof.
  intros Hst Hin. pose proof (stores_facts _ _ _ Hst Hin) as Hf.
  unfold RemoveFact.
  rewrite (proj2 (stores_IsTrue _ _ _ Hst Hf) Hin).
  destruct (erase_all_total f masks (facts_ st)) as [m' ->].
  - by apply NoDup_mask_keys.
  - intros i Hi. rewrite <- Lookup_bucket.
    apply (stores_Lookup _ _ _ _ Hst). split; [done|].
    apply elem_of_mask_keys, list_elem_of_fmap. eauto.
  - simpl. eauto.
Qed.

Lemma filter_ne_fresh (f : Triplet) (l : list Triplet) :
  f ∉ l → filter (fun g => g ≠ f) l = l.
Proof.
  induction l as [|y l IH]; [done|]. intros Hf.
  apply not_elem_of_cons in Hf as [Hne Hf].
  rewrite filter_cons, decide_True by done. by rewrite IH.
Qed.

Lemma erase_first_filter (f : Triplet) (l : list Triplet) :
  NoDup l → erase_first f l = filter (fun g => g ≠ f) l.
Proof.
  induction 1 as [|y l Hy Hnd IH]; [done|]. simpl.
  rewrite filter_cons. destruct (decide (f = y)) as [->|Hne].
  - rewrite decide_False by tauto. by rewrite filter_ne_fresh.
  - rewrite decide_True by done. by rewrite IH.
Qed.

Lemma erase_first_snoc (f : Triplet) (l : list Triplet) :
  f ∉ l → erase_first f (l ++ [f]) = l.
Proof.
  induction l as [|y l IH]; simpl.
  - intros _. by rewrite decide_True.
  - intros [Hne Hf]%not_elem_of_cons.
    rewrite decide_False by done. by rewrite IH.
Qed.

Lemma stores_foldM facts st F st' :
  stores st F → Forall is_fact facts → foldM AddFact st facts = Ok st' →
  stores st' (foldl (fun G f => {[f]} ∪ G) F facts).
Proof.
  revert st F. induction facts as [|f facts IH]; intros st F Hst Hfacts; simpl.
  - by intros [= <-].
  - intros (st1 & Hadd & H)%bind_Ok.
    apply Forall_cons in Hfacts as [Hf Hfacts].
    apply (IH st1); [|done..]. by eapply stores_add.
Qed.

Lemma stores_st_pairs :
  stores st_pairs ({[(2, 2, 1)]} ∪ ({[(1, 2, 2)]} ∪ ({[(1, 2, 1)]} ∪ ∅))).
Proof.
  apply (stores_foldM [(1, 2, 1); (1, 2, 2); (2, 2, 1)] new_Structure ∅).
  - apply stores_new.
  - repeat constructor; simpl; lia.
  - vm_compute. reflexivity.
Defined.

(** X1 — [AddFact] on a structure built through the interface: adding a
    fact that is present aborts on the assertion; adding a fact that is
    absent succeeds and makes it present. *)
Theorem AddFact_aborts_iff_present st F f :
  stores st F → is_fact f →
  (f ∈ F → AddFact st f = Err AssertionFailed) ∧
  (f ∉ F → ∃ st', AddFact st f = Ok st' ∧ stores st' ({[f]} ∪ F)).
Proof.
  intros Hst Hf. pose proof (stores_IsTrue _ _ _ Hst Hf) as Htrue.
  split; intros Hin.
  - unfold AddFact. by rewrite (proj2 Htrue Hin).
  - destruct (AddFact st f) as [st'|e] eqn:Hadd.
    + exists st'. split; [done|]. by eapply stores_add.
    + unfold AddFact in Hadd. destruct (IsTrue st f); [|done].
      exfalso. tauto.
Qed.

Lemma AddFact_aborts_iff_present_witness :
  ((1, 1, 1) ∈ ({[(1, 1, 1)]} ∪ ∅ : gset Triplet) →
   AddFact st_one (1, 1, 1) = Err AssertionFailed) ∧
  ((1, 1, 1) ∉ ({[(1, 1, 1)]} ∪ ∅ : gset Triplet) →
   ∃ st', AddFact st_one (1, 1, 1) = Ok st' ∧
     stores st' ({[(1, 1, 1)]} ∪ ({[(1, 1, 1)]} ∪ ∅))).
Proof.
  apply (AddFact_aborts_iff_present st_one ({[(1, 1, 1)]} ∪ ∅) (1, 1, 1)).
  - apply stores_st_one.
  - unfold is_fact. simpl. lia.
Defined.

(** X2 — [RemoveFact] on a structure built through the interface:
    removing a fact that is absent aborts on the assertion; removing a
    fact that is present succeeds (every one of the eight buckets holds
    it, so no inner assertion fails) and makes it absent. *)
Theorem RemoveFact_aborts_iff_absent st F f :
  stores st F → is_fact f →
  (f ∉ F → RemoveFact st f = Err AssertionFailed) ∧
  (f ∈ F → ∃ st', RemoveFact st f = Ok st' ∧ stores st' (F ∖ {[f]})).
Proof.
  intros Hst Hf. pose proof (stores_IsTrue _ _ _ Hst Hf) as Htrue.
  split; intros Hin.
  - unfold RemoveFact. destruct (IsTrue st f); [|done]. exfalso. tauto.
  - destruct (RemoveFact_total _ _ _ Hst Hin) as [st' Hrm].
    exists st'. split; [done|]. by eapply stores_remove.
Qed.

Lemma RemoveFact_aborts_iff_absent_witness :
  ((1, 1, 1) ∉ ({[(1, 1, 1)]} ∪ ∅ : gset Triplet) →
   RemoveFact st_one (1, 1, 1) = Err AssertionFailed) ∧
  ((1, 1, 1) ∈ ({[(1, 1, 1)]} ∪ ∅ : gset Triplet) →
   ∃ st', RemoveFact st_one (1, 1, 1) = Ok st' ∧
     stores st' (({[(1, 1, 1)]} ∪ ∅) ∖ {[(1, 1, 1)]})).
Proof.
  apply (RemoveFact_aborts_iff_absent st_one ({[(1, 1, 1)]} ∪ ∅) (1, 1, 1)).
  - apply stores_st_one.
  - unfold is_fact. simpl. lia.
Defined.

(** X3 — [RemoveFact] never removes a triplet that is not a fact from a
    structure built through the interface: the call aborts, also when
    [IsTrue] holds for the triplet because it is the key of a non-empty
    bucket. *)
Theorem RemoveFact_pattern_aborts st F t :
  stores st F → ¬ is_fact t → RemoveFact st t = Err AssertionFailed.
Proof.
  intros Hst Ht. unfold RemoveFact. destruct (IsTrue st t); [|done].
  change masks with (0 :: [1; 2; 3; 4; 5; 6; 7]).
  cbn [erase_all]. unfold erase_at.
  rewrite decide_False; [done|].
  rewrite <- Lookup_bucket, (stores_Lookup _ _ _ _ Hst).
  intros [Hin _]. apply Ht. by eapply stores_facts.
Qed.

Lemma RemoveFact_pattern_aborts_witness :
  RemoveFact st_one (0, 1, 1) = Err AssertionFailed.
Proof.
  apply (RemoveFact_pattern_aborts st_one ({[(1, 1, 1)]} ∪ ∅) (0, 1, 1)).
  - apply stores_st_one.
  - unfold is_fact. simpl. lia.
Defined.

(** X4 — [AddFact] of a fact appends it at the end of the bucket of every
    key that matches it (each position of the key 0 or equal to the
    fact's) and leaves every other bucket as it is: a bucket lists its
    facts in the order of their insertion. *)
Theorem AddFact_appends st f st' key :
  is_fact f → AddFact st f = Ok st' →
  (matches key f → Lookup st' key = Lookup st key ++ [f]) ∧
  (¬ matches key f → Lookup st' key = Lookup st key).
Proof.
  intros Hf Hadd. rewrite (Lookup_AddFact _ _ _ _ Hadd). split; intros Hm.
  - by rewrite hits_matches.
  - rewrite hits_no_match by done. apply app_nil_r.
Qed.

Lemma AddFact_appends_witness :
  (matches (0, 2, 0) (2, 2, 2) →
   Lookup (unwrap new_Structure (AddFact st_one (2, 2, 2))) (0, 2, 0) =
   Lookup st_one (0, 2, 0) ++ [(2, 2, 2)]) ∧
  (¬ matches (0, 2, 0) (2, 2, 2) →
   Lookup (unwrap new_Structure (AddFact st_one (2, 2, 2))) (0, 2, 0) =
   Lookup st_one (0, 2, 0)).
Proof.
  apply (AddFact_appends st_one (2, 2, 2)).
  - unfold is_fact. simpl. lia.
  - vm_compute. reflexivity.
Defined.

(** X5 — On a structure built through the interface, a successful
    [RemoveFact] of a fact takes exactly that fact out of every bucket
    and keeps the other facts of each bucket in their order. *)
Theorem RemoveFact_erases st F f st' key :
  stores st F → is_fact f → RemoveFact st f = Ok st' →
  Lookup st' key = filter (fun g => g ≠ f) (Lookup st key).
Proof.
  intros Hst Hf Hrm. rewrite (Lookup_RemoveFact _ _ _ _ Hrm).
  destruct (classic_matches key f) as [Hm|Hm].
  - rewrite hits_matches by done. simpl.
    apply erase_first_filter.
    apply stores_inv in Hst as [Hinv _]. apply (sinv_nodup _ Hinv).
  - rewrite hits_no_match by done. simpl.
    rewrite filter_ne_fresh; [done|].
    rewrite (stores_Lookup _ _ _ _ Hst). tauto.
Qed.

Lemma RemoveFact_erases_witness :
  Lookup (unwrap new_Structure (RemoveFact st_pairs (1, 2, 2))) (0, 2, 0) =
  filter (fun g => g ≠ (1, 2, 2)) (Lookup st_pairs (0, 2, 0)).
Proof.
  apply (RemoveFact_erases st_pairs
           ({[(2, 2, 1)]} ∪ ({[(1, 2, 2)]} ∪ ({[(1, 2, 1)]} ∪ ∅)))).
  - apply stores_st_pairs.
  - unfold is_fact. simpl. lia.
  - vm_compute. reflexivity.
Defined.

(** X6 — Round trip through the entry points of the Python module: on a
    structure built through the interface, [RemoveFactPy] of three nodes
    right after [AddFactPy] of the same nodes succeeds and gives back,
    for every key, the list that [Lookup] returned before and the
    answer that [IsTrue] gave before. *)
Theorem AddFactPy_RemoveFactPy_round_trip st F i j k st1 :
  stores st F → 0 < i → 0 < j → 0 < k →
  AddFactPy st i j k = Ok st1 →
  ∃ st2, RemoveFactPy st1 i j k = Ok st2 ∧
    ∀ key, Lookup st2 key = Lookup st key ∧ IsTrue st2 key = IsTrue st key.
Proof.
  unfold AddFactPy, RemoveFactPy. intros Hst Hi Hj Hk Hadd.
  assert (is_fact (i, j, k)) as Hf by done.
  pose proof (stores_add _ _ _ _ Hst Hf Hadd) as Hst1.
  destruct (RemoveFact_total st1 _ (i, j, k) Hst1) as [st2 Hrm].
  { apply elem_of_union_l, elem_of_singleton. done. }
  exists st2. split; [done|]. intros key.
  assert (Lookup st2 key = Lookup st key) as Heq.
  { rewrite (Lookup_RemoveFact _ _ _ _ Hrm), (Lookup_AddFact _ _ _ _ Hadd).
    destruct (classic_matches key (i, j, k)) as [Hm|Hm].
    - rewrite hits_matches by done. simpl. apply erase_first_snoc.
      rewrite (stores_Lookup _ _ _ _ Hst). intros [Hin _].
      apply (stores_IsTrue _ _ _ Hst Hf) in Hin.
      apply AddFact_Ok in Hadd as [Hfalse _]. congruence.
    - rewrite hits_no_match by done. simpl. apply app_nil_r. }
  split; [done|]. by rewrite !IsTrue_Lookup, Heq.
Qed.

Lemma AddFactPy_RemoveFactPy_round_trip_witness :
  ∃ st2,
    RemoveFactPy (unwrap new_Structure (AddFactPy st_one 2 1 2)) 2 1 2
      = Ok st2 ∧
    ∀ key, Lookup st2 key = Lookup st_one key ∧
           IsTrue st2 key = IsTrue st_one key.
Proof.
  apply (AddFactPy_RemoveFactPy_round_trip st_one ({[(1, 1, 1)]} ∪ ∅)
           2 1 2).
  - apply stores_st_one.
  - lia.
  - lia.
  - lia.
  - vm_compute. reflexivity.
Defined.

(** X7 — [IsTrue] on an arbitrary triplet of a structure built through
    the interface tells whether some present fact matches it as a
    pattern; in particular it is false for a triplet with a negative
    position. *)
Theorem IsTrue_pattern st F key :
  stores st F →
  (IsTrue st key = true ↔ ∃ f, f ∈ F ∧ matches key f) ∧
  ((∃ j, (j < 3)%nat ∧ tget key j < 0) → IsTrue st key = false).
Proof.
  intros Hst.
  assert (IsTrue st key = true ↔ ∃ f, f ∈ F ∧ matches key f) as Hiff.
  { rewrite IsTrue_Lookup. split.
    - destruct (Lookup st key) as [|f l] eqn:Hl; [done|]. intros _.
      exists f. apply (stores_Lookup _ _ key _ Hst). rewrite Hl. constructor.
    - intros (f & Hin). apply (stores_Lookup _ _ key _ Hst) in Hin.
      destruct (Lookup st key); [by apply elem_of_nil in Hin|done]. }
  split; [done|]. intros (j & Hj & Hneg).
  apply not_true_is_false. intros Htrue.
  apply Hiff in Htrue as (f & Hin & Hm).
  pose proof (stores_facts _ _ _ Hst Hin) as (H0 & H1 & H2).
  specialize (Hm j Hj). destruct j as [|[|[|j]]]; simpl in *; lia.
Qed.

Lemma IsTrue_pattern_witness :
  (IsTrue st_one (0, 1, 0) = true ↔
   ∃ f, f ∈ ({[(1, 1, 1)]} ∪ ∅ : gset Triplet) ∧ matches (0, 1, 0) f) ∧
  ((∃ j, (j < 3)%nat ∧ tget (0, 1, 0) j < 0) →
   IsTrue st_one (0, 1, 0) = false).
Proof.
  apply (IsTrue_pattern st_one ({[(1, 1, 1)]} ∪ ∅) (0, 1, 0)).
  apply stores_st_one.
Defined.

(** X8 — [AllTrue] on a list of facts tells whether every one of them is
    present in a structure built through the interface; on the empty
    list it is true. *)
Theorem AllTrue_correct st F facts :
  stores st F → Forall is_fact facts →
  AllTrue st facts = true ↔ ∀ f, f ∈ facts → f ∈ F.
Proof.
  intros Hst. induction 1 as [|f facts Hf _ IH]; simpl.
  - split; [|done]. intros _ f Hin. by apply elem_of_nil in Hin.
  - pose proof (stores_IsTrue _ _ _ Hst Hf) as Htrue.
    destruct (IsTrue st f).
    + rewrite IH. split.
      * intros Hall g [->|Hg]%elem_of_cons; [tauto|auto].
      * intros Hall g Hg. apply Hall. by constructor.
    + split; [done|]. intros Hall.
      assert (f ∈ F) as Hin by (apply Hall; constructor).
      apply Htrue in Hin. done.
Qed.

Lemma AllTrue_correct_witness :
  AllTrue st_pairs [(1, 2, 2); (2, 2, 1)] = true ↔
  ∀ f, f ∈ [(1, 2, 2); (2, 2, 1)] →
       f ∈ ({[(2, 2, 1)]} ∪ ({[(1, 2, 2)]} ∪ ({[(1, 2, 1)]} ∪ ∅))
            : gset Triplet).
Proof.
  apply (AllTrue_correct st_pairs).
  - apply stores_st_pairs.
  - repeat constructor; simpl; lia.
Defined.

Lemma hits_own a b c :
  hits (a, b, c) (a, b, c) masks = (2 ^ zeros (a, b, c))%nat.
Proof.
  rewrite hits_fmap, mask_keys_explicit. unfold zeros. simpl tget.
  destruct (decide (a = 0)) as [->|Ha], (decide (b = 0)) as [->|Hb],
    (decide (c = 0)) as [->|Hc];
    rewrite !filter_cons, !filter_nil;
    repeat (case_decide; simplify_eq; try lia); reflexivity.
Qed.

(** X9 — [AddFact] does not tell a position holding 0 from a wildcard:
    after a successful [AddFact] of a triplet, the bucket under the
    triplet itself holds [2 ^ k] copies of it and nothing else, where
    [k] is the number of its positions that hold 0 (one copy for a
    fact). *)
Theorem AddFact_own_bucket st t st' :
  AddFact st t = Ok st' → Lookup st' t = replicate (2 ^ zeros t) t.
Proof.
  intros Hadd. rewrite (Lookup_AddFact _ _ _ _ Hadd).
  apply AddFact_Ok in Hadd as [Hfalse _].
  rewrite IsTrue_Lookup in Hfalse.
  destruct (Lookup st t); [|done].
  destruct t as [[a b] c]. by rewrite hits_own.
Qed.

Lemma AddFact_own_bucket_witness :
  Lookup (unwrap new_Structure (AddFact new_Structure (0, 1, 0))) (0, 1, 0)
  = replicate (2 ^ zeros (0, 1, 0)) (0, 1, 0).
Proof.
  apply (AddFact_own_bucket new_Structure (0, 1, 0)).
  vm_compute. reflexivity.
Defined.

End StructureMore.

(** * Further properties of the solver *)

Section SolverMore.

(** *** What the operations write *)

Lemma Assign_fields to s s' :
  Assign to s = Ok s' →
  assignment_ s' = <[Z.to_nat (current_index_ s) := to]> (assignment_ s) ∧
  (Z.to_nat (current_index_ s) < length (assignment_ s))%nat ∧
  states_ s' = states_ s ∧
  current_index_ s' = current_index_ s + 1.
Proof.
  unfold Assign.
  intros (a & [_ Ha]%get_int_Ok &
          (v2c & _ & (w & _ & [= <-])%bind_Ok)%bind_Ok)%bind_Ok.
  split; [done|]. split; [by eapply lookup_lt_Some|done].
Qed.

Lemma UnAssign_fields s s' :
  UnAssign s = Ok s' →
  assignment_ s' = assignment_ s ∧ states_ s' = states_ s ∧
  current_index_ s' = current_index_ s - 1.
Proof.
  unfold UnAssign. destruct (_ <? 0).
  - intros [= <-]. done.
  - intros (v2c & _ & (w & _ & [= <-])%bind_Ok)%bind_Ok. done.
Qed.

Lemma GetOptions_fields s s' :
  GetOptions s = Ok s' →
  constraints_ s' = constraints_ s ∧
  working_constraints_ s' = working_constraints_ s ∧
  assignment_ s' = assignment_ s ∧
  current_index_ s' = current_index_ s ∧
  length (states_ s') = length (states_ s).
Proof.
  unfold GetOptions. destruct (_ || _).
  - intros [= <-]. done.
  - intros (? & _ & (? & _ & (? & _ & (? & _ & (? & _ & [= <-])
      %bind_Ok)%bind_Ok)%bind_Ok)%bind_Ok)%bind_Ok.
    simpl. by rewrite length_insert.
Qed.

Lemma loop_body_Return s A s' :
  loop_body s = Ok (Return A s') →
  A ≠ [] ∧ assignment_ s' = A ∧
  current_index_ s' = Z.of_nat (n_variables_ s) - 1.
Proof.
  unfold loop_body. intros (state & _ & H)%bind_Ok.
  destruct (_ =? _)%nat.
  { by apply bind_Ok in H as (s1 & _ & [=]). }
  apply bind_Ok in H as (to & _ & (s1 & H1 & H)%bind_Ok).
  pose proof (Assign_frame _ _ _ H1) as [(_ & Hn & _) _].
  apply Assign_fields in H1 as (Ha & Hlen & _ & Hc).
  cbn [current_index_ n_variables_ assignment_ set_states] in H.
  destruct (Z.eqb_spec (current_index_ s1) (Z.of_nat (n_variables_ s1)))
    as [Heq|Hne].
  - apply bind_Ok in H as (s3 & (Ha3 & _ & Hc3)%UnAssign_fields & [= <- <-]).
    simpl in Ha3, Hc3. split; [|split; [done|]].
    + rewrite Ha. intros Hnil. apply (f_equal length) in Hnil.
      rewrite length_insert in Hnil. simpl in Hnil. lia.
    + rewrite Hc3, Heq, Hn. done.
  - by apply bind_Ok in H as (s3 & _ & [=]).
Qed.

Lemma NextAssignment_loop_result fuel s A s' :
  NextAssignment_loop fuel s = Ok (A, s') →
  (A = [] ∧ valid_ s' = false) ∨
  (A ≠ [] ∧ assignment_ s' = A ∧
   current_index_ s' = Z.of_nat (n_variables_ s) - 1 ∧
   valid_ s' = valid_ s).
Proof.
  revert s. induction fuel as [|fuel IH]; intros s; simpl; [done|].
  destruct (0 <=? current_index_ s).
  - intros (r & Hbody & H)%bind_Ok.
    pose proof (loop_body_frame _ _ Hbody) as [(_ & Hn & _) Hv].
    destruct r as [s1|A1 s1]; simpl in *.
    + apply IH in H as [?|(? & ? & Hc & Hv')]; [by left|right].
      rewrite Hc, Hv', Hn, Hv. done.
    + injection H as <- <-.
      apply loop_body_Return in Hbody as (? & ? & ?). right. done.
  - intros [= <- <-]. left. done.
Qed.

(** X10 — Exhaustion is permanent: once a call of [NextAssignment]
    has returned the empty result, every later call returns the empty
    result at once and leaves the solver as it is; unless the solver
    has no variable, [IsValid] is false from then on.  This holds for
    every solver state, with no assumption on how it was reached. *)
Theorem exhaustion_is_permanent fuel s s' :
  NextAssignment fuel s = Ok ([], s') →
  ((0 < n_variables_ s)%nat → IsValid s' = false) ∧
  ∀ fuel', NextAssignment fuel' s' = Ok ([], s').
Proof.
  unfold NextAssignment, IsValid.
  destruct (negb (valid_ s) || (n_variables_ s =? 0)%nat) eqn:Hguard.
  - intros [= <-]. rewrite Hguard. split; [|done].
    intros Hn. apply orb_true_iff in Hguard as [Hv|Hz].
    + by destruct (valid_ s).
    + apply Nat.eqb_eq in Hz. lia.
  - intros [[_ Hv]|(? & _)]%NextAssignment_loop_result; [|done].
    rewrite Hv. done.
Qed.

Lemma exhaustion_is_permanent_witness :
  ((0 < n_variables_ solver_empty)%nat →
   IsValid (after_call 5 solver_empty) = false) ∧
  ∀ fuel',
    NextAssignment fuel' (after_call 5 solver_empty)
    = Ok ([], after_call 5 solver_empty).
Proof.
  apply (exhaustion_is_permanent 5 solver_empty).
  vm_compute. reflexivity.
Defined.

(** X11 — A call of [NextAssignment] that returns an assignment leaves
    the solver valid, at the last level ([current_index_ = n - 1]), and
    with the returned vector still stored in [assignment_].  This holds
    for every solver state. *)
Theorem returned_assignment_kept fuel s A s' :
  NextAssignment fuel s = Ok (A, s') → A ≠ [] →
  assignment_ s' = A ∧
  current_index_ s' = Z.of_nat (n_variables_ s) - 1 ∧
  IsValid s' = true.
Proof.
  unfold NextAssignment, IsValid.
  destruct (negb (valid_ s) || (n_variables_ s =? 0)%nat) eqn:Hguard.
  - intros [= <- <-]. done.
  - intros [[? _]|(_ & Ha & Hc & Hv)]%NextAssignment_loop_result HA; [done|].
    apply orb_false_iff in Hguard as [Hvalid _].
    split; [done|]. split; [done|]. rewrite Hv. by destruct (valid_ s).
Qed.

Lemma returned_assignment_kept_witness :
  assignment_ (after_call 10 solver_pairs) = [1; 2] ∧
  current_index_ (after_call 10 solver_pairs)
  = Z.of_nat (n_variables_ solver_pairs) - 1 ∧
  IsValid (after_call 10 solver_pairs) = true.
Proof.
  apply (returned_assignment_kept 10 solver_pairs).
  - vm_compute. reflexivity.
  - discriminate.
Defined.

(** *** The constructor *)

Lemma parametric_spec c : parametric c = true ↔ has_variable c.
Proof.
  unfold parametric, has_variable.
  rewrite !orb_true_iff, !IsVariable_true. split.
  - intros [[H|H]|H]; [exists 0%nat|exists 1%nat|exists 2%nat];
      (split; [lia|done]).
  - intros (j & Hj & Hle). destruct j as [|[|[|j]]]; [tauto..|lia].
Qed.

Lemma parametric_false c : parametric c = false ↔ ¬ has_variable c.
Proof.
  rewrite <- parametric_spec. by destruct (parametric c).
Qed.

Lemma register_positions_any size c v v' any :
  foldM (register_position size c) (v, false) positions = Ok (v', any) →
  any = parametric c.
Proof.
  intros (_ & Hany & _)%register_positions_spec.
  apply eq_true_iff_eq. rewrite Hany, parametric_spec.
  unfold has_variable. split.
  - intros [?|(j & Hj%elem_of_positions & ?)]; [done|eauto].
  - intros (j & Hj%elem_of_positions & ?). eauto.
Qed.

Lemma register_constraints_kept st cs v2c kept v2c' kept' :
  register_constraints st cs v2c kept = Ok (v2c', kept', true) →
  kept' = kept ++ filter (fun c => parametric c) cs.
Proof.
  revert v2c kept. induction cs as [|c cs IH]; intros v2c kept;
    [simpl|rewrite register_constraints_cons].
  - intros [= <- <-]. by rewrite app_nil_r.
  - intros ([v1 any] & Hpos & H)%bind_Ok. simpl in H.
    apply register_positions_any in Hpos. subst any.
    rewrite filter_cons. destruct (parametric c) eqn:Hp.
    + rewrite decide_True by done.
      apply IH in H. rewrite H, <- app_assoc. done.
    + rewrite decide_False by (simpl; tauto).
      destruct (IsTrue st c); simpl in H; [by apply IH in H|done].
Qed.

(** X12 — What the constructor leaves behind when the solver is valid:
    [constraints_] holds the constraints with a variable position, in
    the order given, and the ground ones are dropped;
    [working_constraints_] is a copy of it; [var_to_constraints_[k]]
    holds exactly the indices into [constraints_] of the constraints
    with variable [k]; every variable is unassigned and the search is at
    level 0. *)
Theorem Solver_new_fields st n cs me s0 :
  Solver_new st n cs me = Ok s0 → IsValid s0 = true →
  constraints_ s0 = filter (fun c => parametric c) cs ∧
  working_constraints_ s0 = constraints_ s0 ∧
  length (var_to_constraints_ s0) = n ∧
  (∀ k l i, var_to_constraints_ s0 !! k = Some l →
     (i ∈ l ↔ ∃ c, constraints_ s0 !! i = Some c ∧ mentions c k)) ∧
  assignment_ s0 = replicate n 0 ∧
  length (states_ s0) = n ∧
  current_index_ s0 = 0.
Proof.
  unfold IsValid. intros Hnew Hv.
  destruct (Solver_new_inv _ _ _ _ _ Hnew) as (_ & Hn & _ & _ & Hvalid & _).
  destruct (Hvalid Hv) as ([Hinv _] & _).
  pose proof (inv_static _ _ Hinv) as Hwf.
  apply Solver_new_Ok in Hnew as (v2c & kept & valid & _ & Hreg & H).
  destruct valid; [|subst s0; done].
  apply register_constraints_kept in Hreg. simpl in Hreg.
  apply GetOptions_fields in H as (Hc & Hw & Ha & Hi & Hs). simpl in *.
  split; [congruence|]. split; [congruence|].
  split; [rewrite (wf_v2c_len _ Hwf); done|].
  split; [apply (wf_v2c _ Hwf)|].
  split; [done|]. split; [|done].
  by rewrite Hs, length_replicate.
Qed.

Lemma Solver_new_fields_witness :
  constraints_ solver_mixed = filter (fun c => parametric c)
                                 [(1, 1, 1); (0, 0, 0)] ∧
  working_constraints_ solver_mixed = constraints_ solver_mixed ∧
  length (var_to_constraints_ solver_mixed) = 1%nat ∧
  (∀ k l i, var_to_constraints_ solver_mixed !! k = Some l →
     (i ∈ l ↔
      ∃ c, constraints_ solver_mixed !! i = Some c ∧ mentions c k)) ∧
  assignment_ solver_mixed = replicate 1 0 ∧
  length (states_ solver_mixed) = 1%nat ∧
  current_index_ solver_mixed = 0.
Proof.
  apply (Solver_new_fields st_one 1 [(1, 1, 1); (0, 0, 0)] [∅] solver_mixed).
  - vm_compute. reflexivity.
  - vm_compute. reflexivity.
Defined.

(** X13 — [IsValid] right after construction tells whether every ground
    constraint (no variable position) is true in the structure. *)
Theorem IsValid_iff_ground_constraints st n cs me s0 :
  Solver_new st n cs me = Ok s0 →
  IsValid s0 = true ↔
  ∀ c, c ∈ cs → parametric c = false → IsTrue st c = true.
Proof.
  unfold IsValid. intros Hnew.
  destruct (Solver_new_inv _ _ _ _ _ Hnew)
    as (_ & _ & _ & _ & Hvalid & Hinvalid).
  split.
  - intros Hv c Hc Hp%parametric_false.
    destruct (Hvalid Hv) as (_ & _ & _ & _ & Hground). auto.
  - intros Hground. destruct (valid_ s0); [done|].
    destruct (Hinvalid eq_refl) as [(c & Hc & Hp%parametric_false & Hfalse) _].
    rewrite Hground in Hfalse; done.
Qed.

Lemma IsValid_iff_ground_constraints_witness :
  IsValid solver_ground = true ↔
  ∀ c, c ∈ [(2, 2, 2); (0, 0, 0)] → parametric c = false →
       IsTrue st_one c = true.
Proof.
  apply (IsValid_iff_ground_constraints st_one 1 [(2, 2, 2); (0, 0, 0)] [∅]).
  vm_compute. reflexivity.
Defined.

Lemma register_positions_total size c js v b :
  (∀ j, j ∈ js → tget c j ≤ 0 →
     (Z.to_nat (- tget c j) < length v)%nat) →
  ∃ r, foldM (register_position size c) (v, b) js = Ok r.
Proof.
  revert v b. induction js as [|j js IH]; intros v b Hr; simpl; [eauto|].
  unfold register_position at 1. simpl.
  destruct (IsVariable (tget c j)) eqn:Hv.
  - apply IsVariable_true in Hv.
    destruct (lookup_lt_is_Some_2 v (Z.to_nat (- tget c j))) as [l Hl].
    { apply Hr; [constructor|done]. }
    assert (at_int v (- tget c j) = Ok l) as ->.
    { apply at_int_Ok. split; [lia|done]. }
    simpl. apply IH. intros j' Hj' Hle. rewrite length_insert.
    apply Hr; [by constructor|done].
  - simpl. apply IH. intros j' Hj' Hle. apply Hr; [by constructor|done].
Qed.

Lemma register_constraints_total st n cs v2c kept :
  length v2c = n → Forall (in_range n) cs →
  ∃ r, register_constraints st cs v2c kept = Ok r.
Proof.
  revert v2c kept. induction cs as [|c cs IH]; intros v2c kept Hlen Hcs;
    [simpl; eauto|].
  rewrite register_constraints_cons. apply Forall_cons in Hcs as [Hc Hcs].
  destruct (register_positions_total (length kept) c positions v2c false)
    as [[v1 any] Hpos].
  { intros j Hj%elem_of_positions Hle. rewrite Hlen. by apply Hc. }
  rewrite Hpos. cbn [bind fst snd].
  apply register_positions_spec in Hpos as (Hlen1 & _).
  destruct any; [apply IH; [congruence|done]|].
  destruct (IsTrue st c); simpl; [apply IH; [congruence|done]|eauto].
Qed.

(** X14 — The constructor returns a solver (it neither fails its
    assertion, nor throws, nor reads out of bounds) when there is at
    least one variable, every variable position of every constraint
    holds an index below [n], and [may_equal] is not empty. *)
Theorem Solver_new_total st n cs me :
  (0 < n)%nat → Forall (in_range n) cs → me ≠ [] →
  ∃ s0, Solver_new st n cs me = Ok s0.
Proof.
  intros Hn Hcs Hme. unfold Solver_new.
  destruct (Nat.eqb_spec n 0); [lia|].
  destruct (register_constraints_total st n cs (replicate n []) [])
    as [[[v2c kept] valid] Hreg]; [apply length_replicate|done|].
  rewrite Hreg. cbn [bind fst snd valid_].
  apply (register_constraints_spec st n) in Hreg as (Hreg & _);
    [|apply registered_initial].
  destruct valid; [|eauto].
  change (∃ s0, GetOptions (initial st n kept v2c me) = Ok s0).
  pose proof (initial_pre st n kept v2c me Hn Hreg) as Hpre.
  rewrite (GetOptions_spec (initial st n kept v2c me))
    by (done || simpl; lia).
  destruct Hreg as (Hlen & Hv2c & _).
  destruct (lookup_lt_is_Some_2 v2c 0) as [l Hl]; [lia|].
  destruct (domain_total st kept v2c me [] l) as [o Ho].
  - done.
  - intros i Hi. apply (Hv2c _ _ _ Hl) in Hi as (c & Hc & _).
    by eapply lookup_lt_Some.
  - destruct me; [done|simpl; lia].
  - cbn [structure_ constraints_ var_to_constraints_ may_equal_
         current_index_ assignment_ initial].
    change (Z.to_nat 0) with 0%nat. rewrite take_0, Ho. simpl. eauto.
Qed.

Lemma Solver_new_total_witness :
  ∃ s0, Solver_new st_pairs 2 [(0, 2, -1)] [∅; ∅] = Ok s0.
Proof.
  apply (Solver_new_total st_pairs 2 [(0, 2, -1)] [∅; ∅]).
  - lia.
  - constructor; [|constructor].
    intros [|[|[|j]]] Hj; simpl; lia.
  - discriminate.
Defined.

Lemma register_positions_out_of_range size c js v b j :
  j ∈ js → tget c j ≤ 0 → (length v ≤ Z.to_nat (- tget c j))%nat →
  foldM (register_position size c) (v, b) js = Err OutOfRange.
Proof.
  revert v b. induction js as [|j' js IH]; intros v b Hj Hle Hout;
    [by apply elem_of_nil in Hj|].
  simpl. unfold register_position at 1. simpl.
  destruct (decide (j' = j)) as [->|Hne].
  - rewrite (proj2 (IsVariable_true _) Hle). unfold at_int.
    destruct (Z.ltb_spec (- tget c j) 0); [done|].
    unfold vec_at. by rewrite lookup_ge_None_2.
  - apply elem_of_cons in Hj as [?|Hj]; [congruence|].
    destruct (IsVariable (tget c j')) eqn:Hv.
    + destruct (at_int v (- tget c j')) as [l|e] eqn:Hat; simpl.
      * apply IH; [done..|by rewrite length_insert].
      * unfold at_int in Hat. destruct (_ <? 0); [by injection Hat as <-|].
        unfold vec_at in Hat.
        destruct (v !! _); [done|by injection Hat as <-].
    + simpl. by apply IH.
Qed.

Lemma register_constraints_app st pre rest v2c kept :
  register_constraints st (pre ++ rest) v2c kept =
  do r <- register_constraints st pre v2c kept;
  if r.2 then register_constraints st rest r.1.1 r.1.2 else Ok r.
Proof.
  revert v2c kept. induction pre as [|c pre IH]; intros v2c kept; [done|].
  rewrite <- app_comm_cons, !register_constraints_cons.
  destruct (foldM _ _ positions) as [[v1 any]|]; [|done].
  cbn [bind fst snd]. destruct any; [apply IH|].
  destruct (IsTrue st c); simpl; [apply IH|done].
Qed.

(** X15 — The constructor throws [std::out_of_range] when it comes to a
    constraint with a variable index that is not below [n]: that is the
    case when every earlier constraint has its variables in range and
    the earlier ground constraints are true (a false one ends the loop
    before). *)
Theorem Solver_new_out_of_range st n pre c post me j :
  (0 < n)%nat → Forall (in_range n) pre →
  (∀ d, d ∈ pre → parametric d = false → IsTrue st d = true) →
  (j < 3)%nat → tget c j ≤ 0 → (n ≤ Z.to_nat (- tget c j))%nat →
  Solver_new st n (pre ++ c :: post) me = Err OutOfRange.
Proof.
  intros Hn Hpre Hground Hj Hle Hout. unfold Solver_new.
  destruct (Nat.eqb_spec n 0); [lia|].
  rewrite register_constraints_app.
  destruct (register_constraints_total st n pre (replicate n []) [])
    as [[[v1 k1] valid] Hreg]; [apply length_replicate|done|].
  rewrite Hreg. cbn [bind fst snd].
  apply (register_constraints_spec st n) in Hreg as (Hreg & _ & Hinvalid);
    [|apply registered_initial].
  destruct valid.
  - rewrite register_constraints_cons.
    rewrite (register_positions_out_of_range _ _ _ _ _ j); [done| |done|].
    + by apply elem_of_positions.
    + destruct Hreg as [-> _]. done.
  - destruct (Hinvalid eq_refl) as (d & Hd & Hp%parametric_false & Hfalse).
    rewrite Hground in Hfalse; done.
Qed.

Lemma Solver_new_out_of_range_witness :
  Solver_new st_one 1 ([(1, 1, 1)] ++ (0, -1, 0) :: []) [∅]
  = Err OutOfRange.
Proof.
  apply (Solver_new_out_of_range st_one 1 [(1, 1, 1)] (0, -1, 0) [] [∅]
           1%nat).
  - lia.
  - constructor; [|constructor]. intros [|[|[|j]]] Hj; simpl; lia.
  - intros d ->%list_elem_of_singleton _. vm_compute. reflexivity.
  - lia.
  - simpl. lia.
  - simpl. lia.
Defined.

(** *** Inside the search *)

Lemma assigned_pre lim s to :
  search_pre lim s → 0 ≤ current_index_ s →
  current_index_ s < Z.of_nat (n_variables_ s) → 0 < to →
  search_pre 0 (assigned s to).
Proof.
  intros [Hwf Hidx Hw Ha Hopt Hstale] H0 Hn Hpos.
  set (ci := Z.to_nat (current_index_ s)) in *.
  assert (ci < length (assignment_ s))%nat as Hci
    by (rewrite (wf_assignment_len _ Hwf); lia).
  split; simpl.
  - destruct Hwf. split; simpl; try done. by rewrite length_insert.
  - lia.
  - replace (Z.to_nat (current_index_ s + 1)) with (S ci) by lia.
    rewrite (take_S_r _ _ to) by (by apply list_lookup_insert_eq).
    by rewrite take_insert_ge.
  - intros j a Hj. destruct (decide (j = ci)) as [->|Hne].
    + rewrite list_lookup_insert_eq by done. by intros [= <-].
    + rewrite list_lookup_insert_ne by done. apply Ha. lia.
  - intros j stj Hj. lia.
  - done.
Qed.

(** X16 — Round trip inside the search: at the head of any round of the
    search of a valid solver, [Assign] of a node followed by [UnAssign]
    succeeds and gives back the solver as it was (working constraints,
    level, states), except that [assignment_] keeps the node at the
    level's index. *)
Theorem Assign_UnAssign_round_trip st n cs me s0 s to :
  Solver_new st n cs me = Ok s0 → IsValid s0 = true → searching s0 s →
  0 ≤ current_index_ s → 0 < to →
  ∃ s1, Assign to s = Ok s1 ∧
    UnAssign s1 =
    Ok (set_assignment s
          (<[Z.to_nat (current_index_ s) := to]> (assignment_ s))).
Proof.
  unfold IsValid. intros Hnew Hv Hs H0 Hpos.
  destruct (searching_inv _ _ _ _ _ _ Hnew Hv Hs) as [_ [Hinv Hn]].
  exists (assigned s to). split; [by eapply Assign_spec|].
  pose proof (assigned_pre _ s to Hinv H0 Hn Hpos) as Hpre.
  rewrite (UnAssign_spec 0 (assigned s to) Hpre) by (simpl; lia).
  f_equal. cbn [current_index_ assigned set_index assignment_ constraints_
                set_working set_assignment].
  replace (current_index_ s + 1 - 1) with (current_index_ s) by lia.
  rewrite take_insert_ge by done.
  rewrite <- (inv_working _ _ Hinv). by destruct s.
Qed.

Lemma Assign_UnAssign_round_trip_witness :
  ∃ s1, Assign 7 solver_pairs = Ok s1 ∧
    UnAssign s1 =
    Ok (set_assignment solver_pairs
          (<[Z.to_nat (current_index_ solver_pairs) := 7]>
             (assignment_ solver_pairs))).
Proof.
  apply (Assign_UnAssign_round_trip st_pairs 2 [(0, 2, -1)] [∅; ∅]
           solver_pairs).
  - vm_compute. reflexivity.
  - vm_compute. reflexivity.
  - apply searching_start.
  - vm_compute. discriminate.
  - lia.
Defined.

(** X17 — The option sets of the search: at the head of any round of the
    search of a valid solver, the [options] of every level up to the
    current one are strictly increasing and hold positive nodes only,
    the cursor of the level is within the set (so reading it is
    defined), and no option of level [j] equals the node assigned to an
    earlier variable [i] unless [i] is in [may_equal[j]]. *)
Theorem options_well_formed st n cs me s0 s j stj :
  Solver_new st n cs me = Ok s0 → IsValid s0 = true → searching s0 s →
  Z.of_nat j ≤ current_index_ s → states_ s !! j = Some stj →
  sorted (options stj) ∧
  (∀ v, v ∈ options stj → 0 < v) ∧
  (options_it stj ≤ length (options stj))%nat ∧
  ∀ v i a m, v ∈ options stj → (i < j)%nat → me !! j = Some m → i ∉ m →
    assignment_ s !! i = Some a → a ≠ v.
Proof.
  unfold IsValid. intros Hnew Hv Hs Hj Hstj.
  destruct (searching_inv _ _ _ _ _ _ Hnew Hv Hs)
    as [(_ & _ & _ & _ & Hme) [Hinv Hn]].
  destruct (Solver_new_inv _ _ _ _ _ Hnew) as (_ & _ & Hme0 & _).
  destruct (inv_options _ _ Hinv j stj) as [Hdom Hit]; [lia|done|].
  split; [by eapply domain_sorted|].
  split; [intros v; by eapply domain_positive|].
  split; [done|].
  intros v i a m Hin Hi Hm Hnotin Ha.
  apply (elem_of_domain _ _ _ _ _ _ v Hdom) in Hin
    as (l & m' & _ & Hm' & _ & _ & Hne).
  rewrite (length_take_assignment _ _ _ Hinv) in Hm' by lia.
  rewrite Hme, Hme0, Hm in Hm'. injection Hm' as <-.
  apply (Hne i a); [|done|].
  - rewrite (length_take_assignment _ _ _ Hinv) by lia. done.
  - by rewrite lookup_take_lt.
Qed.

Lemma options_well_formed_witness :
  sorted (options (mkState [1; 2] 0)) ∧
  (∀ v, v ∈ options (mkState [1; 2] 0) → 0 < v) ∧
  (options_it (mkState [1%Z; 2%Z] 0)
   ≤ length (options (mkState [1%Z; 2%Z] 0)))%nat ∧
  ∀ v i a m, v ∈ options (mkState [1; 2] 0) → (i < 0)%nat →
    [(∅ : gset nat); ∅] !! 0%nat = Some m → i ∉ m →
    assignment_ solver_pairs !! i = Some a → a ≠ v.
Proof.
  apply (options_well_formed st_pairs 2 [(0, 2, -1)] [∅; ∅]
           solver_pairs solver_pairs 0 (mkState [1; 2] 0)).
  - vm_compute. reflexivity.
  - vm_compute. reflexivity.
  - apply searching_start.
  - vm_compute. discriminate.
  - vm_compute. reflexivity.
Defined.

(** *** Over the calls *)

Lemma after_calls_remaining s t :
  (valid_ s = true → search_inv s) → after_calls s t →
  same_instance s t ∧
  (valid_ t = true → search_inv t) ∧
  (rounds t ≤ rounds s)%nat ∧
  (valid_ t = true →
     valid_ s = true ∧ ∃ pre, remaining s = pre ++ remaining t).
Proof.
  intros Hinv. induction 1 as [|t fuel A t' _ (Hsame & IH & Hle & Hrem) Hcall].
  - split; [apply same_instance_refl|]. split; [done|]. split; [done|].
    intros Hv. split; [done|]. by exists [].
  - apply NextAssignment_spec in Hcall
      as (Hsame' & Hinv' & Hle' & Hres); [|done].
    split; [by eapply same_instance_trans|]. split; [done|]. split; [lia|].
    intros Hv'.
    destruct Hres as [(HA & Hv & _ & Hrem')|(_ & Hv & _)]; [|congruence].
    destruct (Hrem Hv) as (Hvs & pre & Hpre). split; [done|].
    exists (pre ++ [A]). rewrite Hpre, Hrem', <- app_assoc. done.
Qed.

(** X18 — Every call terminates: for a solver constructed with a
    [may_equal] entry per variable there is a bound on the rounds of the
    loop of [NextAssignment] that holds for every call, whatever calls
    came before. *)
Theorem every_call_terminates st n cs me s0 :
  Solver_new st n cs me = Ok s0 → (n ≤ length me)%nat →
  ∃ bound, ∀ s fuel, after_calls s0 s → (bound ≤ fuel)%nat →
    ∃ A s', NextAssignment fuel s = Ok (A, s').
Proof.
  intros Hnew Hlen.
  destruct (Solver_new_inv _ _ _ _ _ Hnew) as (_ & Hn & Hme & _ & Hvalid & _).
  exists (S (rounds s0)). intros s fuel Hcalls Hfuel.
  destruct (after_calls_remaining s0 s) as (Hsame & Hinv & Hle & _);
    [intros Hv; by apply Hvalid|done|].
  unfold NextAssignment. destruct (valid_ s) eqn:Hv; simpl; [|eauto].
  specialize (Hinv eq_refl).
  destruct (Nat.eqb_spec (n_variables_ s) 0) as [Hz|Hz].
  { pose proof (wf_n _ (inv_static _ _ (proj1 Hinv))). lia. }
  apply NextAssignment_loop_total; [done| |lia].
  destruct Hsame as (_ & -> & _ & _ & ->). rewrite Hn, Hme. done.
Qed.

Lemma every_call_terminates_witness :
  ∃ bound, ∀ s fuel, after_calls solver_pairs s → (bound ≤ fuel)%nat →
    ∃ A s', NextAssignment fuel s = Ok (A, s').
Proof.
  apply (every_call_terminates st_pairs 2 [(0, 2, -1)] [∅; ∅] solver_pairs).
  - vm_compute. reflexivity.
  - simpl. lia.
Defined.



(** X20 — With an empty [may_equal] the constructor reads
    [may_equal_[0]] out of bounds: this happens whenever the constraints
    are such that the constructor reaches its call of [GetOptions]
    (variables in range, ground constraints true). *)
Theorem Solver_new_empty_may_equal st n cs :
  (0 < n)%nat → Forall (in_range n) cs →
  (∀ c, c ∈ cs → parametric c = false → IsTrue st c = true) →
  Solver_new st n cs [] = Err UndefinedBehaviour.
Proof.
  intros Hn Hcs Hground. unfold Solver_new.
  destruct (Nat.eqb_spec n 0); [lia|].
  destruct (register_constraints_total st n cs (replicate n []) [])
    as [[[v2c kept] valid] Hreg]; [apply length_replicate|done|].
  rewrite Hreg. cbn [bind fst snd valid_].
  apply (register_constraints_spec st n) in Hreg as (Hreg & _ & Hinvalid);
    [|apply registered_initial].
  destruct valid.
  - change (GetOptions (initial st n kept v2c []) = Err UndefinedBehaviour).
    pose proof (initial_pre st n kept v2c [] Hn Hreg) as Hpre.
    rewrite (GetOptions_spec (initial st n kept v2c []))
      by (done || simpl; lia).
    cbn [structure_ constraints_ var_to_constraints_ may_equal_
         current_index_ assignment_ initial].
    change (Z.to_nat 0) with 0%nat. rewrite take_0.
    destruct Hreg as (Hlen & Hv2c & _).
    destruct (lookup_lt_is_Some_2 v2c 0) as [l Hl]; [lia|].
    unfold domain, vec_at. cbn [length]. rewrite Hl. cbn [bind].
    destruct (options_loop_total st (subst [] <$> kept) (- Z.of_nat 0)
                l false []) as [o ->]; [|done].
    intros i Hi. apply (Hv2c _ _ _ Hl) in Hi as (c & Hc & _).
    rewrite length_fmap. by eapply lookup_lt_Some.
  - destruct (Hinvalid eq_refl) as (d & Hd & Hp%parametric_false & Hfalse).
    rewrite Hground in Hfalse; done.
Qed.

Lemma Solver_new_empty_may_equal_witness :
  Solver_new st_one 1 [(1, 1, 1); (0, 0, 0)] [] = Err UndefinedBehaviour.
Proof.
  apply (Solver_new_empty_may_equal st_one 1 [(1, 1, 1); (0, 0, 0)]).
  - lia.
  - constructor; [|constructor; [|constructor]];
      intros [|[|[|j]]] Hj; simpl; lia.
  - intros d [->|[->|[]%elem_of_nil]%elem_of_cons]%elem_of_cons Hp;
      vm_compute; vm_compute in Hp; done.
Defined.

(** *** The order of the results *)

Lemma lex_lt_prefix P v w r1 r2 :
  v < w → lex_lt (P ++ v :: r1) (P ++ w :: r2).
Proof.
  intros Hvw. induction P as [|a P IH]; simpl; [by left|by right].
Qed.

Lemma StronglySorted_bind {A B} (R0 : relation A) (R : relation B)
    (f : A → list B) (l : list A) :
  StronglySorted R0 l →
  (∀ x, x ∈ l → StronglySorted R (f x)) →
  (∀ x y a b, R0 x y → a ∈ f x → b ∈ f y → R a b) →
  StronglySorted R (l ≫= f).
Proof.
  intros Hl Hf Hcross. induction Hl as [|x l Hl IH Hx]; [constructor|].
  change ((x :: l) ≫= f) with (f x ++ (l ≫= f)).
  apply StronglySorted_app_2.
  - intros a b Ha (y & Hb & Hy)%list_elem_of_bind.
    apply (Hcross x y); [|done..].
    rewrite Forall_forall in Hx. by apply Hx.
  - apply Hf. constructor.
  - apply IH. intros y Hy. apply Hf. by constructor.
Qed.

Lemma dom_sorted st cons v2c me P : sorted (dom st cons v2c me P).
Proof.
  unfold dom. destruct (domain st cons v2c me P) as [o|] eqn:Ho.
  - by eapply domain_sorted.
  - constructor.
Qed.

Lemma sols_sorted st cons v2c me d P :
  StronglySorted lex_lt (sols st cons v2c me d P).
Proof.
  revert P. induction d as [|d IH]; intros P; simpl.
  - repeat constructor.
  - apply (StronglySorted_bind Z.lt).
    + apply dom_sorted.
    + intros v _. apply IH.
    + intros v w A B Hvw (_ & HA & _)%elem_of_sols (_ & HB & _)%elem_of_sols.
      rewrite <- (take_drop (length (P ++ [v])) A), HA.
      rewrite <- (take_drop (length (P ++ [w])) B), HB.
      rewrite <- !app_assoc. simpl. by apply lex_lt_prefix.
Qed.

(** X21 — The results come in increasing lexicographic order: an
    assignment returned by a call of [NextAssignment] is
    lexicographically greater than every assignment returned by an
    earlier call on the same solver (each level tries its options
    smallest node first). *)
Theorem results_increase st n cs me s0 s fuel A s1 t fuel' B t' :
  Solver_new st n cs me = Ok s0 → after_calls s0 s →
  NextAssignment fuel s = Ok (A, s1) → after_calls s1 t →
  NextAssignment fuel' t = Ok (B, t') → A ≠ [] → B ≠ [] →
  lex_lt A B.
Proof.
  intros Hnew Hcalls HcallA Hlater HcallB HA HB.
  destruct (after_calls_inv _ _ _ _ _ _ Hnew Hcalls) as [_ Hinv].
  apply NextAssignment_spec in HcallA
    as (_ & Hinv1 & _ & Hres); [|intros Hv; by apply Hinv].
  destruct Hres as [(_ & Hv & Hv1 & HremA)|(? & _)]; [|done].
  destruct (Hinv Hv) as (_ & _ & pre0 & Hpre0).
  destruct (after_calls_remaining s1 t Hinv1 Hlater)
    as (_ & Hinvt & _ & Hremt).
  apply NextAssignment_spec in HcallB as (_ & _ & _ & Hres); [|done].
  destruct Hres as [(_ & Hvt & _ & HremB)|(? & _)]; [|done].
  destruct (Hremt Hvt) as (_ & pre & Hpre).
  pose proof (sols_sorted (structure_ s0) (constraints_ s0)
                (var_to_constraints_ s0) (may_equal_ s0)
                (n_variables_ s0) []) as Hsorted.
  fold (solutions s0) in Hsorted.
  rewrite Hpre0, HremA, Hpre, HremB in Hsorted.
  apply StronglySorted_app_1_r, StronglySorted_cons in Hsorted as [Hall _].
  rewrite Forall_forall in Hall. apply Hall.
  apply elem_of_app. right. constructor.
Qed.

Lemma results_increase_witness : lex_lt [1; 2] [2; 1].
Proof.
  apply (results_increase st_pairs 2 [(0, 2, -1)] [∅; ∅] solver_pairs
           solver_pairs 10 [1; 2] (after_call 10 solver_pairs)
           (after_call 10 solver_pairs) 10 [2; 1]
           (after_call 10 (after_call 10 solver_pairs))).
  - vm_compute. reflexivity.
  - apply after_calls_none.
  - vm_compute. reflexivity.
  - apply after_calls_none.
  - vm_compute. reflexivity.
  - discriminate.
  - discriminate.
Defined.

(** *** What the options of a level are *)

Lemma picks_agrees st F P k c v :
  stores st F → (∀ a, a ∈ P → 0 < a) → length P = k → mentions c k →
  picks st (- Z.of_nat k) (subst P c) v ↔
  0 < v ∧ ∃ f, f ∈ F ∧ agrees (P ++ [v]) c f.
Proof.
  intros Hst HP <- Hmention. split.
  - intros (t & Ht & Hunify & Hpos). split; [done|].
    apply (stores_Lookup _ _ _ _ Hst) in Ht as [Hin Hmatch].
    pose proof (stores_facts _ _ _ Hst Hin) as Hfact.
    destruct (proj1 (unify_spec _ _ _ _ Hfact) (conj Hunify Hpos))
      as (_ & _ & Hholes).
    exists t. split; [done|]. intros j Hj.
    specialize (Hmatch j Hj). specialize (Hholes j Hj).
    rewrite (proj1 (tget_empty_holes _ _ j Hj)) in Hmatch.
    rewrite tget_subst in Hmatch, Hholes.
    destruct (IsVariable (tget c j)) eqn:Hvar.
    + apply IsVariable_true in Hvar. intros a Ha.
      rewrite subst_pos_var in Hmatch, Hholes by done.
      apply lookup_app_Some in Ha as [Ha|[Hge Ha]].
      * rewrite Ha in Hmatch. simpl in Hmatch.
        assert (0 < a) by (apply HP; by eapply list_elem_of_lookup_2).
        rewrite zero_var_node in Hmatch by done. lia.
      * apply list_lookup_singleton_Some in Ha as [Hk <-].
        rewrite lookup_ge_None_2 in Hholes by done. simpl in Hholes.
        apply Hholes. lia.
    + apply IsVariable_false in Hvar.
      rewrite subst_pos_node in Hmatch by done.
      rewrite zero_var_node in Hmatch by done. lia.
  - intros (Hpos & t & Hin & Hagree).
    pose proof (stores_facts _ _ _ Hst Hin) as Hfact.
    exists t. split.
    + apply (stores_Lookup _ _ _ _ Hst). split; [done|]. intros j Hj.
      specialize (Hagree j Hj).
      rewrite (proj1 (tget_empty_holes _ _ j Hj)), tget_subst.
      destruct (IsVariable (tget c j)) eqn:Hvar.
      * apply IsVariable_true in Hvar. rewrite subst_pos_var by done.
        destruct (P !! Z.to_nat (- tget c j)) as [a|] eqn:Ha; simpl.
        -- assert (0 < a) by (apply HP; by eapply list_elem_of_lookup_2).
           rewrite zero_var_node by done. right. symmetry.
           apply Hagree. by apply lookup_app_l_Some.
        -- left. by apply zero_var_var.
      * apply IsVariable_false in Hvar.
        rewrite subst_pos_node, zero_var_node by done. right. done.
    + apply (unify_spec _ _ _ _ Hfact). split; [|split; [done|]].
      * destruct Hmention as (j & Hj & Heq). exists j. split; [done|].
        rewrite tget_subst, subst_pos_var by lia.
        rewrite Heq, Z.opp_involutive, Nat2Z.id.
        by rewrite lookup_ge_None_2.
      * intros j Hj Heq. specialize (Hagree j Hj).
        rewrite tget_subst in Heq.
        destruct (IsVariable (tget c j)) eqn:Hvar.
        -- apply IsVariable_true in Hvar.
           rewrite subst_pos_var in Heq by done.
           destruct (P !! Z.to_nat (- tget c j)) as [a|] eqn:Ha;
             simpl in Heq.
           ++ assert (0 < a) by (apply HP; by eapply list_elem_of_lookup_2).
              lia.
           ++ apply Hagree. rewrite Heq, Z.opp_involutive, Nat2Z.id.
              by rewrite lookup_app_r, Nat.sub_diag.
        -- apply IsVariable_false in Hvar.
           rewrite subst_pos_node in Heq by done. lia.
Qed.

(** X22 — What [GetOptions] computes, in terms of the facts: at the head
    of any round of the search of a valid solver over a structure built
    through the interface, a node [v] is among the options of a level
    [j] up to the current one exactly when [v] is positive, some
    constraint holds variable [j], every constraint holding variable [j]
    has a present fact that agrees with it under the values of the
    variables below [j] and [v] for variable [j], and [v] differs from
    the value of every earlier variable that is not in [may_equal[j]]. *)
Theorem options_meaning st F n cs me s0 s j stj v :
  stores st F → Solver_new st n cs me = Ok s0 → IsValid s0 = true →
  searching s0 s → Z.of_nat j ≤ current_index_ s →
  states_ s !! j = Some stj →
  v ∈ options stj ↔
  0 < v ∧
  (∃ c, c ∈ cs ∧ mentions c j) ∧
  (∀ c, c ∈ cs → mentions c j →
     ∃ f, f ∈ F ∧ agrees (take j (assignment_ s) ++ [v]) c f) ∧
  (∀ i a m, (i < j)%nat → me !! j = Some m → i ∉ m →
     assignment_ s !! i = Some a → a ≠ v).
Proof.
  unfold IsValid. intros Hst Hnew Hv Hs Hj Hstj.
  destruct (searching_inv _ _ _ _ _ _ Hnew Hv Hs)
    as [(Hsst & _ & Hcons & _ & Hme) [Hinv Hn]].
  destruct (Solver_new_inv _ _ _ _ _ Hnew)
    as (Hst0 & _ & Hme0 & _ & Hvalid & _).
  destruct (Hvalid Hv) as (_ & _ & _ & Hkept & _).
  pose proof (inv_static _ _ Hinv) as Hwf.
  destruct (inv_options _ _ Hinv j stj) as [Hdom _]; [lia|done|].
  pose proof (take_assignment_positive _ _ j Hinv Hj) as HP.
  pose proof (length_take_assignment _ _ j Hinv Hj) as Hlen.
  rewrite Hsst, Hst0 in Hdom.
  assert (∀ c, c ∈ constraints_ s ∧ mentions c j ↔ c ∈ cs ∧ mentions c j)
    as Hcs.
  { intros c. rewrite Hcons, Hkept. split; [tauto|].
    intros [? Hm]. split; [|done]. split; [done|].
    by eapply mentions_variable. }
  pose proof (elem_of_domain _ _ _ _ _ _ v Hdom) as Helem.
  rewrite Hlen in Helem. split.
  - intros Hv0.
    pose proof Hv0 as (l & m & Hl & Hm & Hne & Hall & Hineq)%Helem.
    split; [by eapply domain_positive|]. split; [|split].
    + destruct l as [|i l]; [done|].
      destruct (proj1 (wf_v2c _ Hwf _ _ i Hl)) as (c & Hc & Hmention);
        [constructor|].
      exists c. apply Hcs. split; [by eapply list_elem_of_lookup_2|done].
    + intros c Hc Hmention.
      destruct (proj2 (Hcs c) (conj Hc Hmention)) as [Hin _].
      apply list_elem_of_lookup in Hin as [i Hi].
      destruct (Hall i) as (wc & Hwc & Hpicks).
      { apply (wf_v2c _ Hwf _ _ i Hl). eauto. }
      rewrite list_lookup_fmap, Hi in Hwc. injection Hwc as <-.
      by apply (picks_agrees _ _ _ _ _ _ Hst HP Hlen Hmention) in Hpicks
        as [_ Hf].
    + intros i a m' Hi Hm' Hnotin Ha.
      rewrite Hme, Hme0, Hm' in Hm. injection Hm as <-.
      apply (Hineq i a); [done..|by rewrite lookup_take_lt].
  - intros (Hpos & (c0 & Hc0) & Hfacts & Hineq). apply Helem.
    apply domain_Ok in Hdom as (l & _ & m & Hl & _ & Hm & _).
    rewrite Hlen in Hl, Hm.
    exists l, m. split; [done|]. split; [done|]. split; [|split].
    + apply Hcs in Hc0 as [Hin Hmention].
      apply list_elem_of_lookup in Hin as [i Hi].
      assert (i ∈ l) as Hil by (apply (wf_v2c _ Hwf _ _ i Hl); eauto).
      intros ->. by apply elem_of_nil in Hil.
    + intros i Hi.
      apply (wf_v2c _ Hwf _ _ i Hl) in Hi as (c & Hc & Hmention).
      exists (subst (take j (assignment_ s)) c).
      split; [by rewrite list_lookup_fmap, Hc|].
      apply (picks_agrees _ _ _ _ _ _ Hst HP Hlen Hmention).
      split; [done|]. apply Hfacts; [|done].
      apply Hcs. split; [by eapply list_elem_of_lookup_2|done].
    + intros i a Hi Hnotin Ha. apply (Hineq i a m); [done| |done|].
      * by rewrite <- Hme0, <- Hme.
      * by rewrite lookup_take_lt in Ha.
Qed.

Lemma options_meaning_witness :
  1 ∈ options (mkState [1; 2] 0) ↔
  0 < 1 ∧
  (∃ c, c ∈ [(0, 2, -1)] ∧ mentions c 0) ∧
  (∀ c, c ∈ [(0, 2, -1)] → mentions c 0 →
     ∃ f, f ∈ ({[(2, 2, 1)]} ∪ ({[(1, 2, 2)]} ∪ ({[(1, 2, 1)]} ∪ ∅))
               : gset Triplet) ∧
          agrees (take 0 (assignment_ solver_pairs) ++ [1]) c f) ∧
  (∀ i a m, (i < 0)%nat → [(∅ : gset nat); ∅] !! 0%nat = Some m → i ∉ m →
     assignment_ solver_pairs !! i = Some a → a ≠ 1).
Proof.
  apply (options_meaning st_pairs
           ({[(2, 2, 1)]} ∪ ({[(1, 2, 2)]} ∪ ({[(1, 2, 1)]} ∪ ∅)))
           2 [(0, 2, -1)] [∅; ∅] solver_pairs solver_pairs 0
           (mkState [1; 2] 0) 1).
  - apply stores_st_pairs.
  - vm_compute. reflexivity.
  - vm_compute. reflexivity.
  - apply searching_start.
  - vm_compute. discriminate.
  - vm_compute. reflexivity.
Defined.

(** *** The results and the order of insertion of the facts *)

Lemma IsTrue_same st1 st2 F key :
  stores st1 F → stores st2 F → IsTrue st1 key = IsTrue st2 key.
Proof.
  intros H1 H2. rewrite !IsTrue_Lookup.
  assert (∀ f, f ∈ Lookup st1 key ↔ f ∈ Lookup st2 key) as Heq.
  { intros f. by rewrite (stores_Lookup _ _ _ _ H1), (stores_Lookup _ _ _ _ H2). }
  destruct (Lookup st1 key) as [|f1 l1], (Lookup st2 key) as [|f2 l2];
    try done.
  - exfalso. eapply elem_of_nil, Heq. constructor.
  - exfalso. eapply elem_of_nil, Heq. constructor.
Qed.

Lemma picks_same st1 st2 F var wc v :
  stores st1 F → stores st2 F → picks st1 var wc v → picks st2 var wc v.
Proof.
  intros H1 H2 (t & Ht & Hu). exists t. split; [|done].
  apply (stores_Lookup _ _ _ _ H2). by apply (stores_Lookup _ _ _ _ H1).
Qed.

Lemma sorted_unique l1 l2 :
  sorted l1 → sorted l2 → (∀ v, v ∈ l1 ↔ v ∈ l2) → l1 = l2.
Proof.
  intros Hs1 Hs2 Heq.
  apply (StronglySorted_unique_strong Z.lt); [intros; lia|done..|].
  apply NoDup_Permutation; [by apply sorted_NoDup..|done].
Qed.

Lemma domain_same st1 st2 F cons v2c me P o1 o2 :
  stores st1 F → stores st2 F →
  domain st1 cons v2c me P = Ok o1 → domain st2 cons v2c me P = Ok o2 →
  o1 = o2.
Proof.
  intros H1 H2 Ho1 Ho2.
  apply sorted_unique; [by eapply domain_sorted..|]. intros v.
  rewrite (elem_of_domain _ _ _ _ _ _ v Ho1),
    (elem_of_domain _ _ _ _ _ _ v Ho2).
  split; intros (l & m & Hl & Hm & Hne & Hall & Hineq);
    exists l, m; (do 3 (split; [done|])); (split; [|done]);
    intros i Hi; destruct (Hall i Hi) as (wc & Hwc & Hp);
    exists wc; (split; [done|]).
  - by apply (picks_same st1 st2 F).
  - by apply (picks_same st2 st1 F).
Qed.

Lemma dom_same st1 st2 F cons v2c me P :
  stores st1 F → stores st2 F →
  (∀ k l i, v2c !! k = Some l → i ∈ l → (i < length cons)%nat) →
  dom st1 cons v2c me P = dom st2 cons v2c me P.
Proof.
  intros H1 H2 Hidx. unfold dom.
  destruct (domain st1 cons v2c me P) as [o1|e1] eqn:Ho1,
    (domain st2 cons v2c me P) as [o2|e2] eqn:Ho2; [| | |done].
  - by apply (domain_same st1 st2 F cons v2c me P).
  - apply domain_Ok in Ho1 as (l & _ & m & Hl & _ & Hm & _).
    destruct (domain_total st2 cons v2c me P l) as [o Ho]; [done|eauto| |].
    + by eapply lookup_lt_Some.
    + congruence.
  - apply domain_Ok in Ho2 as (l & _ & m & Hl & _ & Hm & _).
    destruct (domain_total st1 cons v2c me P l) as [o Ho]; [done|eauto| |].
    + by eapply lookup_lt_Some.
    + congruence.
Qed.

Lemma sols_same st1 st2 F cons v2c me d P :
  stores st1 F → stores st2 F →
  (∀ k l i, v2c !! k = Some l → i ∈ l → (i < length cons)%nat) →
  sols st1 cons v2c me d P = sols st2 cons v2c me d P.
Proof.
  intros H1 H2 Hidx. revert P. induction d as [|d IH]; intros P; simpl;
    [done|].
  rewrite (dom_same st1 st2 F) by done.
  apply bind_ext_in. intros v _. apply IH.
Qed.

Lemma register_constraints_same st1 st2 F cs v2c kept :
  stores st1 F → stores st2 F →
  register_constraints st1 cs v2c kept = register_constraints st2 cs v2c kept.
Proof.
  intros H1 H2. revert v2c kept.
  induction cs as [|c cs IH]; intros v2c kept; [done|].
  rewrite !register_constraints_cons.
  destruct (foldM _ _ positions) as [[v1 any]|]; [|done].
  cbn [bind fst snd]. destruct any; [apply IH|].
  rewrite (IsTrue_same st1 st2 F c) by done.
  destruct (IsTrue st2 c); simpl; [apply IH|done].
Qed.

Lemma enumerate_out calls fuel s out s' :
  (valid_ s = true → search_inv s) →
  enumerate calls fuel s = Ok (out, s') →
  out = if valid_ s then remaining s else [].
Proof.
  revert s out s'. induction calls as [|calls IH]; intros s out s' Hinv;
    [done|].
  cbn [enumerate].
  intros ([A s1] & Hcall & H)%bind_Ok. cbn [fst snd] in H.
  apply NextAssignment_spec in Hcall as (_ & Hinv1 & _ & Hres); [|done].
  destruct Hres as [(HA & Hv & Hv1 & Hrem)|(-> & Hv1 & Hrem)].
  - destruct A as [|a A]; [done|].
    apply bind_Ok in H as ([rest s2] & Hrest & [= <- <-]).
    apply IH in Hrest; [|done]. rewrite Hv1 in Hrest.
    rewrite Hv, Hrem. simpl. by rewrite Hrest.
  - injection H as <- <-. destruct (valid_ s); [|done].
    by rewrite Hrem.
Qed.

(** X23 — The results depend on the set of facts only, not on the order
    in which the facts were inserted (or on facts removed since): two
    solvers constructed with the same arguments over two structures
    that hold the same facts are valid together, and requesting
    assignments until the empty one comes back yields the same
    assignments in the same order. *)
Theorem results_depend_on_fact_set st1 st2 F n cs me s1 s2
    calls1 fuel1 out1 t1 calls2 fuel2 out2 t2 :
  stores st1 F → stores st2 F →
  Solver_new st1 n cs me = Ok s1 → Solver_new st2 n cs me = Ok s2 →
  enumerate calls1 fuel1 s1 = Ok (out1, t1) →
  enumerate calls2 fuel2 s2 = Ok (out2, t2) →
  IsValid s1 = IsValid s2 ∧ out1 = out2.
Proof.
  unfold IsValid. intros H1 H2 Hnew1 Hnew2 Henum1 Henum2.
  destruct (Solver_new_inv _ _ _ _ _ Hnew1)
    as (_ & Hn1 & Hme1 & _ & Hvalid1 & _).
  destruct (Solver_new_inv _ _ _ _ _ Hnew2)
    as (_ & Hn2 & Hme2 & _ & Hvalid2 & _).
  apply enumerate_out in Henum1; [|intros Hv; by apply Hvalid1].
  apply enumerate_out in Henum2; [|intros Hv; by apply Hvalid2].
  apply Solver_new_Ok in Hnew1 as (v2c & kept & valid & _ & Hreg1 & Hs1).
  apply Solver_new_Ok in Hnew2 as (v2c' & kept' & valid' & _ & Hreg2 & Hs2).
  rewrite (register_constraints_same st1 st2 F) in Hreg1 by done.
  rewrite Hreg1 in Hreg2. injection Hreg2 as <- <- <-.
  destruct valid.
  - pose proof (GetOptions_frame _ _ Hs1) as [(Hst1 & _ & Hc1 & Hv2c1 & _) Hv1].
    pose proof (GetOptions_frame _ _ Hs2) as [(Hst2 & _ & Hc2 & Hv2c2 & _) Hv2].
    simpl in *. rewrite Hv1, Hv2. split; [done|]. subst out1 out2.
    rewrite Hv1, Hv2.
    destruct (Hvalid1 Hv1) as ([Hinv1 _] & _ & -> & _).
    destruct (Hvalid2 Hv2) as (_ & _ & -> & _).
    unfold solutions.
    rewrite Hst1, Hst2, Hc1, Hc2, Hv2c1, Hv2c2, Hn1, Hn2, Hme1, Hme2.
    apply (sols_same st1 st2 F); [done..|].
    intros k l i Hl Hi. rewrite <- Hc1, <- Hv2c1 in *.
    by eapply static_index_lt; [apply (inv_static _ _ Hinv1)|..].
  - subst s1 s2 out1 out2. done.
Qed.

Lemma stores_st_pairs_rev :
  stores st_pairs_rev
    ({[(2, 2, 1)]} ∪ ({[(1, 2, 2)]} ∪ ({[(1, 2, 1)]} ∪ ∅))).
Proof.
  assert (({[(2, 2, 1)]} ∪ ({[(1, 2, 2)]} ∪ ({[(1, 2, 1)]} ∪ ∅))
           : gset Triplet)
          = {[(1, 2, 1)]} ∪ ({[(1, 2, 2)]} ∪ ({[(2, 2, 1)]} ∪ ∅))) as ->.
  { apply set_eq. intros x.
    rewrite !elem_of_union, !elem_of_singleton, elem_of_empty. tauto. }
  apply (stores_foldM [(2, 2, 1); (1, 2, 2); (1, 2, 1)] new_Structure ∅).
  - apply stores_new.
  - repeat constructor; simpl; lia.
  - vm_compute. reflexivity.
Defined.

Lemma results_depend_on_fact_set_witness :
  IsValid solver_pairs = IsValid solver_pairs_rev ∧
  [[1; 2]; [2; 1]] = [[1; 2]; [2; 1]].
Proof.
  apply (results_depend_on_fact_set st_pairs st_pairs_rev
           ({[(2, 2, 1)]} ∪ ({[(1, 2, 2)]} ∪ ({[(1, 2, 1)]} ∪ ∅)))
           2 [(0, 2, -1)] [∅; ∅] solver_pairs solver_pairs_rev
           3 10 [[1; 2]; [2; 1]]
           (unwrap ([], no_solver) (enumerate 3 10 solver_pairs)).2
           3 10 [[1; 2]; [2; 1]]
           (unwrap ([], no_solver) (enumerate 3 10 solver_pairs_rev)).2).
  - apply stores_st_pairs.
  - apply stores_st_pairs_rev.
  - vm_compute. reflexivity.
  - vm_compute. reflexivity.
  - vm_compute. reflexivity.
  - vm_compute. reflexivity.
Defined.

End SolverMore.
